(** * Interviews: questionnaire compiler and interview interpreter

    A shallow embedding of the questionnaire compiler
    ([src/server/payloads.cpp]) and of the interview interpreter
    ([src/server/ontology.cpp], [include/interviews/ontology.hpp]),
    with the properties the specification states about them.

    Conventions of the embedding.
    - A question pointer ([question*], [question_r]) is the position of the
      question in its questionnaire: the first pass of the compiler records
      exactly that position as the question's index.
    - A C++ exception is a value [Err e]; functions that can throw return
      a [result].
    - The expression host (V8 behind [slot_js]) and the JSON printer of
      hx2a are not part of the repository: they are fields of the class
      [Expr], over which the interpreter is parametrised. *)

From Stdlib Require Import ZArith Ascii String.
From stdpp Require Import gmap strings list fin_maps pretty.

Open Scope string_scope.
Open Scope list_scope.

(** ** Exceptions ([include/interviews/exception.hpp]) *)

Inductive exn : Set :=
| function_has_no_code
| function_is_null
| function_parameter_does_not_exist
| function_parameter_refers_to_self
| function_parameter_refers_to_subsequent_question
| function_parameter_refers_to_question_with_different_loop_nest
| function_call_out_of_bounds
| source_questionnaire_name_is_empty
| source_questionnaire_has_no_questions
| source_questionnaire_contains_null_question
| source_question_text_is_missing
| source_question_has_invalid_options
| source_question_contains_null_option
| source_question_contains_null_transition
| source_question_transition_is_missing
| source_question_transitions_lack_catch_all
| source_question_transition_catch_all_is_not_last
| source_question_transition_does_not_exist
| source_question_transitions_to_itself
| source_question_transitions_to_previous_question
| source_question_transitions_across_loop
| source_question_begin_loop_transitions_to_begin_loop
| source_question_argument_does_not_exist
| source_question_transition_condition_is_incorrect
| transition_has_both_condition_and_code
| template_question_does_not_exist
| question_label_is_invalid
| question_label_is_a_duplicate
| question_loop_is_not_balanced
| question_loop_is_not_closed
| question_loop_logic_error
| question_loop_variable_unknown
| question_begin_loop_refers_to_unknown_question
| question_begin_loop_refers_to_unanswerable_question
| question_begin_loop_variable_is_invalid
| question_begin_loop_has_no_operand
| question_begin_loop_refers_to_question_with_different_loop_nest
| question_localization_is_duplicate
| question_localization_does_not_exist
| question_localization_for_template_does_not_exist
| answer_is_incorrect
| answer_is_missing
| answer_index_does_not_exist
| selection_is_invalid
| option_localization_label_is_empty
| option_localization_comment_does_not_exist
| option_localization_comment_is_present
| interview_is_not_started
| interview_is_already_started
| interview_is_already_completed
| questionnaire_localization_does_not_exist
| internal_error
(** raised by the expression host when a snippet fails to run *)
| expression_error
(** [checked_cast] (hx2a) applied to an object of another dynamic type *)
| bad_checked_cast
(** not an exception: the program dereferences the end iterator
    ([++qi; **qi] with [qi] the last question), which C++ leaves
    undefined; kept apart so that no theorem depends on what happens *)
| end_iterator_dereferenced
(** not an exception: the bound on the number of steps of a loop of the
    embedding was reached before the loop ended *)
| out_of_fuel.

#[global] Instance exn_eq_dec : EqDecision exn.
Proof. solve_decision. Defined.

Inductive result (A : Type) : Type :=
| Ok (a : A)
| Err (e : exn).
Arguments Ok {A} a.
Arguments Err {A} e.

Definition rbind {A B} (r : result A) (k : A -> result B) : result B :=
  match r with
  | Ok a => k a
  | Err e => Err e
  end.

Notation "'let*' x ':=' c 'in' k" := (rbind c (fun x => k))
  (at level 10, x pattern, c at level 100, k at level 200).

(** [if (c) throw e;] *)
Definition throw_if (c : bool) (e : exn) : result unit :=
  if c then Err e else Ok tt.

Definition is_ok {A} (r : result A) : bool :=
  match r with Ok _ => true | Err _ => false end.

(** Iteration of a throwing loop body over a container, left to right. *)
Fixpoint rmap {A B} (f : A -> result B) (l : list A) : result (list B) :=
  match l with
  | [] => Ok []
  | x :: l' =>
      let* y := f x in
      let* ys := rmap f l' in
      Ok (y :: ys)
  end.

Fixpoint rfold {A S} (f : S -> A -> result S) (s : S) (l : list A) : result S :=
  match l with
  | [] => Ok s
  | x :: l' => let* s' := f s x in rfold f s' l'
  end.

Definition string_empty (s : string) : bool :=
  match s with EmptyString => true | _ => false end.

(** ** Labels ([question::validate_label], [misc.hpp]) *)

Definition js_language_var : string := "language".
Definition js_language_str2_var : string := "language_str2".
Definition reserved_labels : list string := [js_language_var; js_language_str2_var].

Definition label_is_reserved (label : string) : bool :=
  existsb (String.eqb label) reserved_labels.

Definition isdigit (c : ascii) : bool :=
  let n := nat_of_ascii c in ((48 <=? n) && (n <=? 57))%nat.

Definition isalpha (c : ascii) : bool :=
  let n := nat_of_ascii c in
  (((65 <=? n) && (n <=? 90)) || ((97 <=? n) && (n <=? 122)))%nat.

Definition is_dollar (c : ascii) : bool := Ascii.eqb c "$".
Definition is_underscore (c : ascii) : bool := Ascii.eqb c "_".

Fixpoint label_tail_ok (s : string) : bool :=
  match s with
  | EmptyString => true
  | String c s' =>
      (isdigit c || isalpha c || is_underscore c || is_dollar c) && label_tail_ok s'
  end.

(** the regular expression [[a-zA-Z$][0-9a-zA-Z_$]*], matched against the
    whole label *)
Definition label_matches (s : string) : bool :=
  match s with
  | EmptyString => false
  | String c s' => (isalpha c || is_dollar c) && label_tail_ok s'
  end.

Definition validate_label (label : string) : bool :=
  label_matches label && negb (label_is_reserved label).

(** ** The ontology ([include/interviews/ontology.hpp]) *)

Definition qref := nat.
Definition language_t := nat.
Definition time_t := Z.

(** [unsigned int] arithmetic of the change counters *)
Definition uint_modulus : Z := 2 ^ 32.
Definition uint_succ (n : Z) : Z := ((n + 1) mod uint_modulus)%Z.

(** [class function]: a snippet and the questions whose answers it reads *)
Record function := {
  f_parameters : list qref;
  f_code : string
}.

Definition function_empty (f : function) : bool := string_empty (f_code f).

Definition uses_as_parameter (f : function) (q : qref) : bool :=
  existsb (Nat.eqb q) (f_parameters f).

(** [class transition]; a null [_condition] is the one-argument
    constructor *)
Record transition := {
  t_condition : option function;
  t_destination : qref
}.

(** [class option] *)
Record option_ := { o_has_comment : bool }.

Inductive multiple_choices_kind :=
| select_at_most | select_limit | rank_at_most | rank_limit.

#[global] Instance multiple_choices_kind_eq_dec : EqDecision multiple_choices_kind.
Proof. solve_decision. Defined.

(** The hierarchy below [question_body], one constructor per concrete
    class, with the members of the intermediate classes
    ([question_body_with_comment], [question_body_with_options],
    [question_body_multiple_choices]) as arguments. *)
Inductive body_variant :=
| b_message
| b_input (has_comment optional : bool)
| b_select (has_comment randomize : bool) (options : list option_)
| b_multiple_choices (k : multiple_choices_kind)
    (has_comment randomize : bool) (options : list option_) (limit : nat).

Record question_body := {
  qb_text_functions : list function;
  qb_style : string;
  qb_variant : body_variant
}.

Definition body_can_be_final (b : question_body) : bool :=
  match qb_variant b with b_message => true | _ => false end.

Definition body_is_impacted_by (b : question_body) (q : qref) : bool :=
  existsb (fun f => uses_as_parameter f q) (qb_text_functions b).

Definition push_text_function_back (b : question_body) (f : function) : question_body :=
  {| qb_text_functions := qb_text_functions b ++ [f];
     qb_style := qb_style b;
     qb_variant := qb_variant b |}.

Record template_question := {
  tq_label : string;
  tq_body : question_body
}.

Inductive loop_type_t := regular | begin_loop | end_loop.

#[global] Instance loop_type_eq_dec : EqDecision loop_type_t.
Proof. solve_decision. Defined.

Inductive question_variant :=
| q_with_body (b : question_body)
| q_from_template (tq : template_question)
| q_begin_loop (operand_question : qref) (variable operand : string)
| q_end_loop.

Record question := {
  q_label : string;
  q_transitions : list transition;
  q_variant : question_variant
}.

Definition get_loop_type (q : question) : loop_type_t :=
  match q_variant q with
  | q_begin_loop _ _ _ => begin_loop
  | q_end_loop => end_loop
  | _ => regular
  end.

Definition supports_localization (q : question) : bool :=
  match q_variant q with q_with_body _ => true | _ => false end.

Definition supports_answer (q : question) : bool :=
  match q_variant q with
  | q_begin_loop _ _ _ | q_end_loop => false
  | _ => true
  end.

Definition can_be_final (q : question) : bool :=
  match q_variant q with
  | q_with_body b => body_can_be_final b
  | q_from_template tq => body_can_be_final (tq_body tq)
  | _ => false
  end.

Definition is_final (q : question) : bool :=
  (length (q_transitions q) =? 0)%nat && can_be_final q.

(** [get_body]; the base class has a dummy body behind an assertion *)
Definition get_body (q : question) : option question_body :=
  match q_variant q with
  | q_with_body b => Some b
  | q_from_template tq => Some (tq_body tq)
  | _ => None
  end.

Definition question_is_impacted_by (q : question) (by_q : qref) : bool :=
  match q_variant q with
  | q_with_body b => body_is_impacted_by b by_q
  | q_begin_loop operand_question _ _ => (operand_question =? by_q)%nat
  | _ => false
  end.

Definition push_transition_back (q : question) (t : transition) : question :=
  {| q_label := q_label q;
     q_transitions := q_transitions q ++ [t];
     q_variant := q_variant q |}.

Definition loop_nest := list qref.

(** [class question_info] *)
Record question_info := {
  qi_index : nat;
  qi_loop_nest : loop_nest;
  qi_matching_begin_loop : option qref
}.

Definition get_parent_begin_loop (qi : question_info) : option qref :=
  last (qi_loop_nest qi).

(** [question::update_loop_nest] and its two overrides *)
Definition update_loop_nest (q : question) (ln : loop_nest) (self : qref) : result loop_nest :=
  match q_variant q with
  | q_begin_loop _ _ _ => Ok (ln ++ [self])
  | q_end_loop =>
      match ln with
      | [] => Err question_loop_is_not_balanced
      | _ => Ok (removelast ln)
      end
  | _ => Ok ln
  end.

(** [question::update_loop_counter] and its two overrides *)
Definition update_loop_counter (q : question) (counter : nat) : result nat :=
  match q_variant q with
  | q_begin_loop _ _ _ => Ok (S counter)
  | q_end_loop =>
      match counter with
      | O => Err question_loop_is_not_balanced
      | S c => Ok c
      end
  | _ => Ok counter
  end.

(** [class questionnaire] *)
Record questionnaire := {
  qq_name : string;
  qq_questions : list question;
  qq_locked : bool;
  qq_change_count : Z
}.

Definition make_questionnaire (name : string) : questionnaire :=
  {| qq_name := name; qq_questions := []; qq_locked := false; qq_change_count := 1 |}.

(** [questionnaire::push_question_back]: [check_lock], append, [touch] *)
Definition push_question_back (qq : questionnaire) (q : question) : questionnaire :=
  {| qq_name := qq_name qq;
     qq_questions := qq_questions qq ++ [q];
     qq_locked := qq_locked qq;
     qq_change_count := uint_succ (qq_change_count qq) |}.

Definition set_questions (qq : questionnaire) (qs : list question) : questionnaire :=
  {| qq_name := qq_name qq;
     qq_questions := qs;
     qq_locked := qq_locked qq;
     qq_change_count := qq_change_count qq |}.

(** *** Localizations *)

Record option_localization := {
  ol_label : string;
  ol_comment_label : string
}.

Inductive localization_variant :=
| l_message
| l_input (comment_label : string)
| l_select (comment_label : string) (options : list option_localization)
| l_multiple_choices (k : multiple_choices_kind)
    (comment_label : string) (options : list option_localization).

Record question_localization_body := {
  qlb_text : string;
  qlb_variant : localization_variant
}.

Record question_localization := {
  qloc_question : qref;
  qloc_body : question_localization_body
}.

Record questionnaire_localization := {
  qql_questionnaire_change_count : Z;
  qql_title : string;
  qql_language : language_t;
  qql_questions_localizations : list question_localization
}.

Definition make_questionnaire_localization (title : string) (lang : language_t)
  : questionnaire_localization :=
  {| qql_questionnaire_change_count := 0;
     qql_title := title;
     qql_language := lang;
     qql_questions_localizations := [] |}.

Definition push_question_localization_back
    (qql : questionnaire_localization) (ql : question_localization)
  : questionnaire_localization :=
  {| qql_questionnaire_change_count := qql_questionnaire_change_count qql;
     qql_title := qql_title qql;
     qql_language := qql_language qql;
     qql_questions_localizations := qql_questions_localizations qql ++ [ql] |}.

(** ** Source payloads ([include/interviews/payloads.hpp]) *)

Record source_option := {
  so_label : string;
  so_comment_label : string
}.

Record source_function := {
  sf_parameters : list string;
  sf_code : string
}.

(** [own_vector] members may hold null pointers: their elements are
    options *)
Record source_text := {
  stx_functions : list (option source_function);
  stx_value : string
}.

Record source_transition := {
  st_parameters : list string;
  st_condition : string;
  st_code : string;
  st_destination : string
}.

Inductive source_variant :=
| sq_message (style : string) (text : option source_text)
| sq_input (style : string) (text : option source_text)
    (comment_label : string) (optional : bool)
| sq_select (style : string) (text : option source_text)
    (comment_label : string) (randomize : bool)
    (options : list (option source_option))
| sq_multiple_choices (k : multiple_choices_kind)
    (style : string) (text : option source_text)
    (comment_label : string) (randomize : bool)
    (options : list (option source_option)) (limit : nat)
| sq_from_template (template_name : string)
| sq_begin_loop (question variable operand : string)
| sq_end_loop.

Record source_question := {
  sq_label : string;
  sq_transitions : list (option source_transition);
  sq_variant : source_variant
}.

Record source_questionnaire := {
  sqq_name : string;
  sqq_title : string;
  sqq_language : language_t;
  sqq_questions : list (option source_question)
}.

(** the [source_text] of the inline source questions, none for the others *)
Definition sq_text (sq : source_question) : option source_text :=
  match sq_variant sq with
  | sq_message _ t | sq_input _ t _ _ | sq_select _ t _ _ _
  | sq_multiple_choices _ _ t _ _ _ _ => t
  | _ => None
  end.

Definition sq_is_inline (sq : source_question) : bool :=
  match sq_variant sq with
  | sq_message _ _ | sq_input _ _ _ _ | sq_select _ _ _ _ _
  | sq_multiple_choices _ _ _ _ _ _ _ => true
  | _ => false
  end.

(** [p.or_throw<E>()] *)
Definition or_throw {A} (p : option A) (e : exn) : result A :=
  match p with Some a => Ok a | None => Err e end.

(** ** Parametric text: the compile-time validation
    ([validate_parametric_text], payloads.cpp) *)

Definition eval_prefix : ascii := "@".
Definition eval_open : ascii := "{".
Definition eval_close : ascii := "}".

Definition uint64_modulus : Z := 2 ^ 64.

Definition digit_value (c : ascii) : Z := Z.of_nat (nat_of_ascii c) - 48.

(** [funcn += funcn * 10 + c - '0';] on a [uint64_t] *)
Definition accumulate_funcn (funcn : Z) (c : ascii) : Z :=
  ((funcn + (funcn * 10 + digit_value c)) mod uint64_modulus)%Z.

(** The scanning loops of [validate_parametric_text] and of
    [calculate_text] read one character per step; the place the program
    has reached in the loop body is the scanner's state. *)
Inductive scan_state :=
| in_text                      (* at the top of the [while] *)
| after_prefix                 (* read [@] *)
| after_open                   (* read [@{] *)
| in_number (funcn : Z).       (* inside the [do] loop, after a digit *)

Fixpoint validate_from (st : scan_state) (text : string) (fn : nat) : result unit :=
  match text with
  | EmptyString => Ok tt        (* [i == e]: [return] or the loop ends *)
  | String c rest =>
      match st with
      | in_text =>
          if Ascii.eqb c eval_prefix then validate_from after_prefix rest fn
          else validate_from in_text rest fn
      | after_prefix =>
          if Ascii.eqb c eval_open then validate_from after_open rest fn
          else validate_from in_text rest fn
      | after_open =>
          if isdigit c then validate_from (in_number (digit_value c)) rest fn
          else validate_from in_text rest fn
      | in_number funcn =>
          if isdigit c then validate_from (in_number (accumulate_funcn funcn c)) rest fn
          else if Ascii.eqb c eval_close && (Z.of_nat fn <=? funcn)%Z
               then Err function_call_out_of_bounds
               else validate_from in_text rest fn
      end
  end.

Definition validate_parametric_text (text : string) (fn : nat) : result unit :=
  validate_from in_text text fn.

(** ** The source compiler ([src/server/payloads.cpp]) *)

Section Compiler.

(** [function::compile], the syntactic check of a snippet by the
    expression host *)
Variable js_compile : string -> bool.

(** [template_question::find]: the template library, by label *)
Variable template_library : gmap string template_question.

(** *** Text functions *)

(** the body of the loop over [_parameters] in
    [source_function::compile] *)
Definition compile_function_parameter
    (qblm : gmap string question_info) (qi : question_info) (par : string)
  : result qref :=
  match qblm !! par with
  | None => Err function_parameter_does_not_exist
  | Some pqi =>
      let qn := qi_index qi in
      let pqn := qi_index pqi in
      let* _ := throw_if (qn =? pqn)%nat function_parameter_refers_to_self in
      let* _ := throw_if (qn <? pqn)%nat
                  function_parameter_refers_to_subsequent_question in
      let* _ := throw_if (negb (bool_decide (qi_loop_nest qi = qi_loop_nest pqi)))
                  function_parameter_refers_to_question_with_different_loop_nest in
      Ok pqn
  end.

Definition source_function_compile
    (qblm : gmap string question_info) (qi : question_info) (sf : source_function)
  : result function :=
  let* _ := throw_if (string_empty (sf_code sf)) function_has_no_code in
  let* ps := rmap (compile_function_parameter qblm qi) (sf_parameters sf) in
  Ok {| f_parameters := ps; f_code := sf_code sf |}.

Definition source_text_compile
    (qblm : gmap string question_info) (qi : question_info) (st : source_text)
  : result (list function) :=
  let* fs := rmap (fun osf =>
                     let* f := or_throw osf function_is_null in
                     source_function_compile qblm qi f)
                  (stx_functions st) in
  let* _ := validate_parametric_text (stx_value st) (length (stx_functions st)) in
  Ok fs.

(** *** Transitions *)

(** the loop over [t->_parameters] in [compile_transitions] *)
Definition compile_transition_parameter
    (m : gmap string question_info) (par : string) : result qref :=
  match m !! par with
  | None => Err source_question_argument_does_not_exist
  | Some pqi => Ok (qi_index pqi)
  end.

(** [question::check_conditions] behind the [try]/[catch (...)] *)
Definition check_conditions (ts : list transition) : bool :=
  forallb (fun t => match t_condition t with
                    | Some f => js_compile (f_code f)
                    | None => true
                    end) ts.

(** the [switch (q->get_loop_type())] of [compile_transitions] *)
Definition check_loop_crossing
    (q : question) (self : qref) (qpbl : option qref)
    (dq : question) (dqi : question_info) : result unit :=
  match get_loop_type q with
  | regular | end_loop =>
      let dqpbl := get_parent_begin_loop dqi in
      throw_if
        (negb (bool_decide (qpbl = dqpbl))
         || (bool_decide (get_loop_type dq = end_loop)
             && negb (bool_decide (qpbl = qi_matching_begin_loop dqi))))
        source_question_transitions_across_loop
  | begin_loop =>
      match get_loop_type dq with
      | begin_loop => Err source_question_begin_loop_transitions_to_begin_loop
      | end_loop =>
          throw_if (negb (bool_decide (qi_matching_begin_loop dqi = Some self)))
            source_question_transitions_across_loop
      | regular =>
          throw_if (negb (bool_decide (get_parent_begin_loop dqi = Some self)))
            source_question_transitions_across_loop
      end
  end.

(** the choice between [_condition] and [_code] *)
Definition transition_code (t : source_transition) : result string :=
  if negb (string_empty (st_condition t)) then
    let* _ := throw_if (negb (string_empty (st_code t)))
                transition_has_both_condition_and_code in
    Ok (st_condition t)
  else Ok (st_code t).

(** One turn of the [while (i != e)] loop of [compile_transitions];
    [is_last] is [i == l], [pushed] the transitions already pushed on
    the question. *)
Definition compile_transition
    (m : gmap string question_info) (qs : list question)
    (q : question) (qqi : question_info)
    (pushed : list transition) (is_last : bool) (ot : option source_transition)
  : result transition :=
  let* t := or_throw ot source_question_contains_null_transition in
  let* _ := throw_if (negb is_last
                      && string_empty (st_condition t) && string_empty (st_code t))
              source_question_transition_catch_all_is_not_last in
  match m !! st_destination t with
  | None => Err source_question_transition_does_not_exist
  | Some dqi =>
      let qn := qi_index qqi in
      let dn := qi_index dqi in
      let* _ := throw_if (qn =? dn)%nat source_question_transitions_to_itself in
      let* _ := throw_if (dn <? qn)%nat
                  source_question_transitions_to_previous_question in
      (* [f->second.second]: the map only holds questions of [qs] *)
      let* dq := or_throw (qs !! dn) internal_error in
      let* _ := check_loop_crossing q qn (get_parent_begin_loop qqi) dq dqi in
      let* ocode := transition_code t in
      let* ps := rmap (compile_transition_parameter m) (st_parameters t) in
      let ot := {| t_condition := Some {| f_parameters := ps; f_code := ocode |};
                   t_destination := dn |} in
      let* _ := throw_if (negb (check_conditions (pushed ++ [ot])))
                  source_question_transition_condition_is_incorrect in
      Ok ot
  end.

Fixpoint compile_transitions_loop
    (m : gmap string question_info) (qs : list question)
    (q : question) (qqi : question_info)
    (pushed : list transition) (ts : list (option source_transition))
  : result (list transition) :=
  match ts with
  | [] => Ok pushed
  | ot :: ts' =>
      let is_last := match ts' with [] => true | _ => false end in
      let* t := compile_transition m qs q qqi pushed is_last ot in
      compile_transitions_loop m qs q qqi (pushed ++ [t]) ts'
  end.

(** [source_question::compile_transitions]; [qi] is the position of
    the iterator in the questionnaire, [qs] the questions between
    [questions_cbegin()] and [qe]. The value is the list of the
    transitions pushed on the question. *)
Definition compile_transitions
    (m : gmap string question_info) (qqi : question_info)
    (qi : nat) (qs : list question) (q : question) (sq : source_question)
  : result (list transition) :=
  match sq_transitions sq with
  | [] =>
      if can_be_final q then Ok []
      else
        let* _ := throw_if (qi =? length qs)%nat
                    source_question_transition_is_missing in
        (* [++qi; **qi] *)
        match qs !! (S qi) with
        | Some _ => Ok [ {| t_condition := None; t_destination := S qi |} ]
        | None => Err end_iterator_dereferenced
        end
  | ts =>
      let* t := or_throw (mjoin (last ts)) source_question_contains_null_transition in
      let* _ := throw_if (negb (string_empty (st_condition t)))
                  source_question_transitions_lack_catch_all in
      compile_transitions_loop m qs q qqi [] ts
  end.

Definition set_transitions (q : question) (ts : list transition) : question :=
  {| q_label := q_label q; q_transitions := ts; q_variant := q_variant q |}.

Definition set_text_functions (q : question) (fs : list function) : question :=
  match q_variant q with
  | q_with_body b =>
      {| q_label := q_label q;
         q_transitions := q_transitions q;
         q_variant := q_with_body {| qb_text_functions := qb_text_functions b ++ fs;
                                     qb_style := qb_style b;
                                     qb_variant := qb_variant b |} |}
  | _ => q
  end.

(** [source_question::compile] of the second pass:
    [compile_transitions], then [compile_more], which compiles the
    text of the inline questions *)
Definition source_question_compile_second
    (m : gmap string question_info) (qqi : question_info)
    (qi : nat) (qs : list question) (q : question) (sq : source_question)
  : result question :=
  let* ts := compile_transitions m qqi qi qs q sq in
  let q1 := set_transitions q (q_transitions q ++ ts) in
  if sq_is_inline sq then
    (* [HX2A_ASSERT(_text)]: the first pass refused a null text *)
    let* st := or_throw (sq_text sq) internal_error in
    let* fs := source_text_compile m qqi st in
    Ok (set_text_functions q1 fs)
  else Ok q1.

(** *** First pass: the questions *)

(** the constructor of [question], which validates the label *)
Definition make_question (label : string) (v : question_variant) : result question :=
  let* _ := throw_if (negb (validate_label label)) question_label_is_invalid in
  Ok {| q_label := label; q_transitions := []; q_variant := v |}.

Definition text_is_missing (t : option source_text) : bool :=
  match t with
  | None => true
  | Some t => string_empty (stx_value t)
  end.

Definition text_value (t : option source_text) : string :=
  match t with Some t => stx_value t | None => "" end.

Definition has_size (s : string) : bool := negb (string_empty s).

(** [option_localization::check], which the constructor of
    [option_localization] runs on the option it is built for *)
Definition option_localization_check (ch : option_) (ol : option_localization)
  : result unit :=
  let* _ := throw_if (string_empty (ol_label ol)) option_localization_label_is_empty in
  if o_has_comment ch then
    throw_if (string_empty (ol_comment_label ol))
      option_localization_comment_does_not_exist
  else
    throw_if (negb (string_empty (ol_comment_label ol)))
      option_localization_comment_is_present.

(** [source_question_with_options::compile_options] *)
Definition compile_options (options : list (option source_option))
  : result (list option_ * list option_localization) :=
  let* l := rmap (fun osch =>
                    let* sch := or_throw osch source_question_contains_null_option in
                    let ch := {| o_has_comment := has_size (so_comment_label sch) |} in
                    let ol := {| ol_label := so_label sch;
                                 ol_comment_label := so_comment_label sch |} in
                    let* _ := option_localization_check ch ol in
                    Ok (ch, ol))
                 options in
  Ok (map fst l, map snd l).

Definition make_body (style : string) (v : body_variant) : question_body :=
  {| qb_text_functions := []; qb_style := style; qb_variant := v |}.

(** [source_question_*::compile (qq, m)]: the question and, for the
    questions that have one, the body of its first localization; [qs]
    are the questions already pushed on the questionnaire *)
Definition source_question_compile_first
    (qs : list question) (m : gmap string question_info) (sq : source_question)
  : result (question * option question_localization_body) :=
  let label := sq_label sq in
  match sq_variant sq with
  | sq_message style text =>
      let* _ := throw_if (text_is_missing text) source_question_text_is_missing in
      let* q := make_question label (q_with_body (make_body style b_message)) in
      Ok (q, Some {| qlb_text := text_value text; qlb_variant := l_message |})
  | sq_input style text comment_label optional =>
      let* _ := throw_if (text_is_missing text) source_question_text_is_missing in
      let* q := make_question label
                  (q_with_body (make_body style (b_input (has_size comment_label) optional))) in
      Ok (q, Some {| qlb_text := text_value text; qlb_variant := l_input comment_label |})
  | sq_select style text comment_label randomize options =>
      let* _ := throw_if (text_is_missing text) source_question_text_is_missing in
      let* _ := throw_if (length options <=? 1)%nat source_question_has_invalid_options in
      let* _ := make_question label
                  (q_with_body (make_body style (b_select (has_size comment_label) randomize []))) in
      let* (os, ols) := compile_options options in
      Ok ({| q_label := label; q_transitions := [];
             q_variant := q_with_body
               (make_body style (b_select (has_size comment_label) randomize os)) |},
          Some {| qlb_text := text_value text;
                  qlb_variant := l_select comment_label ols |})
  | sq_multiple_choices k style text comment_label randomize options limit0 =>
      (* [adjust_limit] *)
      let limit := if (limit0 =? 0)%nat then length options else limit0 in
      let* _ := throw_if (text_is_missing text) source_question_text_is_missing in
      let* _ := throw_if ((limit <=? 1) || (length options <? limit))%nat
                  source_question_has_invalid_options in
      let* _ := make_question label
                  (q_with_body (make_body style
                     (b_multiple_choices k (has_size comment_label) randomize [] limit))) in
      let* (os, ols) := compile_options options in
      Ok ({| q_label := label; q_transitions := [];
             q_variant := q_with_body
               (make_body style
                  (b_multiple_choices k (has_size comment_label) randomize os limit)) |},
          Some {| qlb_text := text_value text;
                  qlb_variant := l_multiple_choices k comment_label ols |})
  | sq_from_template template_name =>
      let* tq := or_throw (template_library !! template_name)
                   template_question_does_not_exist in
      let* q := make_question label (q_from_template tq) in
      Ok (q, None)
  | sq_begin_loop question variable operand =>
      let* oqi := or_throw (m !! question)
                    question_begin_loop_refers_to_unknown_question in
      let* oq := or_throw (qs !! qi_index oqi) internal_error in
      let* q := make_question label (q_begin_loop (qi_index oqi) variable operand) in
      let* _ := throw_if (negb (supports_answer oq))
                  question_begin_loop_refers_to_unanswerable_question in
      let* _ := throw_if (negb (validate_label variable))
                  question_begin_loop_variable_is_invalid in
      let* _ := throw_if (string_empty operand) question_begin_loop_has_no_operand in
      Ok (q, None)
  | sq_end_loop =>
      let* q := make_question label q_end_loop in
      Ok (q, None)
  end.

Record first_pass_state := {
  fp_qq : questionnaire;
  fp_ql : questionnaire_localization;
  fp_m : gmap string question_info;
  fp_ln : loop_nest;
  fp_qn : nat
}.

Definition make_info (qn : nat) (ln : loop_nest) (mbl : option qref) : question_info :=
  {| qi_index := qn; qi_loop_nest := ln; qi_matching_begin_loop := mbl |}.

(** the body of the first [for (const auto& sq: _questions)] *)
Definition first_pass_step (s : first_pass_state) (osq : option source_question)
  : result first_pass_state :=
  let* sq := or_throw osq source_questionnaire_contains_null_question in
  let* (q, oqlb) := source_question_compile_first (qq_questions (fp_qq s)) (fp_m s) sq in
  let qq := push_question_back (fp_qq s) q in
  let* _ := throw_if (bool_decide (is_Some (fp_m s !! q_label q)))
              question_label_is_a_duplicate in
  let qn := fp_qn s in
  let* (m, ln) :=
    match fp_ln s with
    | [] =>
        let* ln := update_loop_nest q [] qn in
        Ok (<[q_label q := make_info qn [] None]> (fp_m s), ln)
    | _ =>
        if bool_decide (get_loop_type q = end_loop) then
          let mbl := last (fp_ln s) in
          let ln := removelast (fp_ln s) in
          Ok (<[q_label q := make_info qn ln mbl]> (fp_m s), ln)
        else
          let* ln := update_loop_nest q (fp_ln s) qn in
          Ok (<[q_label q := make_info qn (fp_ln s) None]> (fp_m s), ln)
    end in
  let ql := match oqlb with
            | Some qlb => push_question_localization_back (fp_ql s)
                            {| qloc_question := qn; qloc_body := qlb |}
            | None => fp_ql s
            end in
  Ok {| fp_qq := qq; fp_ql := ql; fp_m := m; fp_ln := ln; fp_qn := S qn |}.

Definition first_pass (src : source_questionnaire) : result first_pass_state :=
  rfold first_pass_step
    {| fp_qq := make_questionnaire (sqq_name src);
       fp_ql := make_questionnaire_localization (sqq_title src) (sqq_language src);
       fp_m := ∅; fp_ln := []; fp_qn := 0 |}
    (sqq_questions src).

(** *** The operands of the begin loops *)

(** [questionnaire::dump (leveled_questionnaire&)]; the map is keyed by
    question pointer, here the list is read by position *)
Fixpoint dump_leveled_from (qs : list question) (qn : nat) (ln : loop_nest)
  : result (list question_info) :=
  match qs with
  | [] => Ok []
  | q :: qs' =>
      let* (info, ln') :=
        match ln with
        | [] =>
            let* ln' := update_loop_nest q [] qn in
            Ok (make_info qn [] None, ln')
        | _ =>
            if bool_decide (get_loop_type q = end_loop) then
              Ok (make_info qn (removelast ln) (last ln), removelast ln)
            else
              let* ln' := update_loop_nest q ln qn in
              Ok (make_info qn ln None, ln')
        end in
      let* infos := dump_leveled_from qs' (S qn) ln' in
      Ok (info :: infos)
  end.

Definition dump_leveled (qq : questionnaire) : result (list question_info) :=
  dump_leveled_from (qq_questions qq) 0 [].

Definition check_begin_loop_operand
    (lq : list question_info) (self : qref) (q : question) : result unit :=
  match q_variant q with
  | q_begin_loop operand_question _ _ =>
      (* [HX2A_ASSERT(f != lq.cend())], twice *)
      let* qi := or_throw (lq !! self) internal_error in
      let* qiq := or_throw (lq !! operand_question) internal_error in
      throw_if (negb (bool_decide (qi_loop_nest qi = qi_loop_nest qiq)))
        question_begin_loop_refers_to_question_with_different_loop_nest
  | _ => Ok tt
  end.

Fixpoint check_begin_loop_operands_from
    (lq : list question_info) (qn : nat) (qs : list question) : result unit :=
  match qs with
  | [] => Ok tt
  | q :: qs' =>
      let* _ := check_begin_loop_operand lq qn q in
      check_begin_loop_operands_from lq (S qn) qs'
  end.

(** *** Second pass: the transitions and the text functions *)

Fixpoint second_pass
    (m : gmap string question_info) (qs : list question) (qi : nat)
    (sqs : list (option source_question)) : result (list question) :=
  match sqs with
  | [] => Ok qs
  | osq :: sqs' =>
      (* the first pass already refused a null source question *)
      let* sq := or_throw osq internal_error in
      let* q := or_throw (qs !! qi) internal_error in
      let* qqi := or_throw (m !! q_label q) internal_error in
      let* q' := source_question_compile_second m qqi qi qs q sq in
      second_pass m (<[qi := q']> qs) (S qi) sqs'
  end.

(** [source_questionnaire::compile] *)
Definition compile (src : source_questionnaire)
  : result (questionnaire * questionnaire_localization) :=
  let* _ := throw_if (string_empty (sqq_name src)) source_questionnaire_name_is_empty in
  let* _ := throw_if (match sqq_questions src with [] => true | _ => false end)
              source_questionnaire_has_no_questions in
  let* s := first_pass src in
  let* _ := throw_if (negb (match fp_ln s with [] => true | _ => false end))
              question_loop_is_not_closed in
  let* lq := dump_leveled (fp_qq s) in
  let* _ := check_begin_loop_operands_from lq 0 (qq_questions (fp_qq s)) in
  let* qs := second_pass (fp_m s) (qq_questions (fp_qq s)) 0 (sqq_questions src) in
  Ok (set_questions (fp_qq s) qs, fp_ql s).

End Compiler.

(** ** Answers *)

(** [class choice] *)
Record choice := {
  ch_option_localization : option_localization;
  ch_index : nat;
  ch_comment : string
}.

(** the hierarchy below [answer_body] *)
Inductive answer_body :=
| ab_message
| ab_input (input comment : string)
| ab_select (c : choice) (comment : string)
| ab_multiple_choices (k : multiple_choices_kind) (choices : list choice) (comment : string).

(** *** Answer payloads ([answer_*_payload::compile], payloads.cpp) *)

Record choice_payload := {
  cp_index : nat;
  cp_comment : string
}.

Inductive answer_payload :=
| answer_message_payload
| answer_input_payload (comment input : string)
| answer_select_payload (comment : string) (choice : option choice_payload)
| answer_multiple_choices_payload (k : multiple_choices_kind)
    (comment : string) (choices : list choice_payload).

(** [checked_cast<question_localization_body_with_options>] *)
Definition cast_localization_with_options (qlb : question_localization_body)
  : result (list option_localization) :=
  match qlb_variant qlb with
  | l_select _ ols | l_multiple_choices _ _ ols => Ok ols
  | _ => Err bad_checked_cast
  end.

(** [checked_cast<question_body_select_at_most>] and its three siblings:
    the limit of a body of exactly that class *)
Definition cast_body_multiple_choices (k : multiple_choices_kind) (qb : question_body)
  : result nat :=
  match qb_variant qb with
  | b_multiple_choices k' _ _ _ limit =>
      if bool_decide (k = k') then Ok limit else Err bad_checked_cast
  | _ => Err bad_checked_cast
  end.

(** [question_localization_body_with_options::find_option_localization
    (size_t)] *)
Definition find_option_localization (ols : list option_localization) (index : nat)
  : result option_localization :=
  let* _ := throw_if (length ols <=? index)%nat selection_is_invalid in
  or_throw (ols !! index) internal_error.

Definition make_choice (ols : list option_localization) (cp : choice_payload)
  : result choice :=
  let* ol := find_option_localization ols (cp_index cp) in
  Ok {| ch_option_localization := ol;
        ch_index := cp_index cp;
        ch_comment := cp_comment cp |}.

(** [answer_multiple_choices_payload::shared_compile] *)
Definition shared_compile (qlb : question_localization_body) (choices : list choice_payload)
  : result (list choice) :=
  let* ols := cast_localization_with_options qlb in
  rmap (make_choice ols) choices.

(** the test on [_choices.size()] of the four multiple-choice payloads *)
Definition limit_is_violated (k : multiple_choices_kind) (size limit : nat) : bool :=
  match k with
  | select_at_most | rank_at_most => (limit <? size)%nat
  | select_limit | rank_limit => negb (size =? limit)%nat
  end.

(** the virtual [answer_payload::compile (qb, qlb)] *)
Definition answer_payload_compile
    (qb : question_body) (qlb : question_localization_body) (p : answer_payload)
  : result answer_body :=
  match p with
  | answer_message_payload => Ok ab_message
  | answer_input_payload comment input => Ok (ab_input input comment)
  | answer_select_payload comment None => Err answer_is_incorrect
  | answer_select_payload comment (Some cp) =>
      let* ols := cast_localization_with_options qlb in
      let* _ := throw_if (length ols <=? cp_index cp)%nat answer_is_incorrect in
      let* c := make_choice ols cp in
      Ok (ab_select c comment)
  | answer_multiple_choices_payload k comment choices =>
      let* limit := cast_body_multiple_choices k qb in
      let* _ := throw_if (limit_is_violated k (length choices) limit)
                  answer_is_incorrect in
      let* cs := shared_compile qlb choices in
      Ok (ab_multiple_choices k cs comment)
  end.

Record template_question_localization := {
  tql_template_question : template_question;
  tql_language : language_t;
  tql_body : question_localization_body
}.

(** the variant [localizations] *)
Inductive localizations :=
| loc_question (ql : question_localization)
| loc_template (tql : template_question_localization) (qft : qref).

(** [class answer]. [a_id] is the identity of the object: begin-loop
    entries designate their operand answer by a weak link, and the
    revision compares answers by address. Geolocations are opaque to
    the interpreter and left out. *)
Record answer := {
  a_id : nat;
  a_localization : localizations;
  a_ip_address : string;
  a_elapsed : time_t;
  a_total_elapsed : time_t;
  a_body : answer_body
}.

(** [answer::get_question] *)
Definition a_question (a : answer) : qref :=
  match a_localization a with
  | loc_question ql => qloc_question ql
  | loc_template _ qft => qft
  end.

(** [answer::get_question_localization_body] *)
Definition a_localization_body (a : answer) : question_localization_body :=
  match a_localization a with
  | loc_question ql => qloc_body ql
  | loc_template tql _ => tql_body tql
  end.

(** the body and the localization body [answer_payload::make_answer]
    hands to [compile] *)
Definition localizations_bodies (qs : list question) (l : localizations)
  : result (qref * question_body * question_localization_body) :=
  match l with
  | loc_question ql =>
      (* [ql->get_question()->get_body()] *)
      let* q := or_throw (qs !! qloc_question ql) internal_error in
      let* qb := or_throw (get_body q) internal_error in
      Ok (qloc_question ql, qb, qloc_body ql)
  | loc_template tql qft =>
      Ok (qft, tq_body (tql_template_question tql), tql_body tql)
  end.

(** both overloads of [answer_payload::make_answer]; [id] is the
    address of the new object *)
Definition make_answer
    (qs : list question) (id : nat) (l : localizations) (ip_address : string)
    (elapsed total_elapsed : time_t) (p : answer_payload) : result answer :=
  let* (q, qb, qlb) := localizations_bodies qs l in
  let* body := answer_payload_compile qb qlb p in
  Ok {| a_id := id; a_localization := l;
        a_ip_address := ip_address; a_elapsed := elapsed;
        a_total_elapsed := total_elapsed; a_body := body |}.

(** ** JSON values and the expression host *)

(** The values of [hx2a::json]; numbers are kept as integers. *)
#[warnings="-register-all"]
Inductive json :=
| j_null
| j_bool (b : bool)
| j_number (n : Z)
| j_string (s : string)
| j_array (items : list json).

(** [operator==] on JSON values *)
Fixpoint json_eqb (v w : json) : bool :=
  match v, w with
  | j_null, j_null => true
  | j_bool a, j_bool b => Bool.eqb a b
  | j_number a, j_number b => (a =? b)%Z
  | j_string a, j_string b => String.eqb a b
  | j_array l, j_array l' =>
      (fix all2 (l l' : list json) : bool :=
         match l, l' with
         | [], [] => true
         | x :: r, y :: r' => json_eqb x y && all2 r r'
         | _, _ => false
         end) l l'
  | _, _ => false
  end.

(** [!v]: a default-constructed value, what the host returns for
    [null] and, through the wrappers of [compute_loop_operand], for
    [undefined] *)
Definition json_is_null (v : json) : bool :=
  match v with j_null => true | _ => false end.

(** [json::is_true]: the [true] boolean or a non null number *)
Definition json_is_true (v : json) : bool :=
  match v with
  | j_bool b => b
  | j_number n => negb (n =? 0)%Z
  | _ => false
  end.

Definition json_if_string (v : json) : option string :=
  match v with j_string s => Some s | _ => None end.

Definition json_if_array (v : json) : option (list json) :=
  match v with j_array l => Some l | _ => None end.

(** *** The stack ([the_stack_frame], [the_stack]) *)

Record the_stack_frame := {
  sf_question_begin_loop : qref;
  sf_loop_operand_answer : answer;
  sf_loop_operand : json;
  sf_loop_operand_size : nat;
  sf_loop_variable_value : option json;
  sf_index : nat;
  sf_answers_by_question_map : gmap qref answer
}.

(** innermost frame last *)
Record the_stack := {
  ts_vector : list the_stack_frame;
  ts_answers_by_question_map : gmap qref answer
}.

Definition empty_stack : the_stack :=
  {| ts_vector := []; ts_answers_by_question_map := ∅ |}.

Definition stack_empty (ts : the_stack) : bool :=
  match ts_vector ts with [] => true | _ => false end.

Definition frame_find_answer (f : the_stack_frame) (q : qref) : option answer :=
  sf_answers_by_question_map f !! q.

(** the loop of [the_stack::find_answer] from [crbegin()] to [crend()] *)
Fixpoint find_answer_in (frames : list the_stack_frame) (q : qref) : option answer :=
  match frames with
  | [] => None
  | f :: frames' =>
      match frame_find_answer f q with
      | Some a => Some a
      | None => find_answer_in frames' q
      end
  end.

(** [the_stack::find_answer]: innermost frame first, then the top map *)
Definition find_answer (ts : the_stack) (q : qref) : option answer :=
  match find_answer_in (reverse (ts_vector ts)) q with
  | Some a => Some a
  | None => ts_answers_by_question_map ts !! q
  end.

Definition frame_replace_answer (f : the_stack_frame) (a : answer) : the_stack_frame :=
  {| sf_question_begin_loop := sf_question_begin_loop f;
     sf_loop_operand_answer := sf_loop_operand_answer f;
     sf_loop_operand := sf_loop_operand f;
     sf_loop_operand_size := sf_loop_operand_size f;
     sf_loop_variable_value := sf_loop_variable_value f;
     sf_index := sf_index f;
     sf_answers_by_question_map := <[a_question a := a]> (sf_answers_by_question_map f) |}.

(** replaces the innermost frame; the callers have checked there is one *)
Definition set_back (ts : the_stack) (f : the_stack_frame) : the_stack :=
  {| ts_vector := removelast (ts_vector ts) ++ [f];
     ts_answers_by_question_map := ts_answers_by_question_map ts |}.

Definition push_frame (ts : the_stack) (f : the_stack_frame) : the_stack :=
  {| ts_vector := ts_vector ts ++ [f];
     ts_answers_by_question_map := ts_answers_by_question_map ts |}.

Definition pop_frame (ts : the_stack) : the_stack :=
  {| ts_vector := removelast (ts_vector ts);
     ts_answers_by_question_map := ts_answers_by_question_map ts |}.

(** [the_stack::replace_answer] *)
Definition replace_answer (ts : the_stack) (a : answer) : the_stack :=
  match last (ts_vector ts) with
  | None =>
      {| ts_vector := ts_vector ts;
         ts_answers_by_question_map := <[a_question a := a]> (ts_answers_by_question_map ts) |}
  | Some f => set_back ts (frame_replace_answer f a)
  end.

(** [the_stack_frame::increment_index] *)
Definition increment_index (f : the_stack_frame) : the_stack_frame :=
  {| sf_question_begin_loop := sf_question_begin_loop f;
     sf_loop_operand_answer := sf_loop_operand_answer f;
     sf_loop_operand := sf_loop_operand f;
     sf_loop_operand_size := sf_loop_operand_size f;
     sf_loop_variable_value := None;
     sf_index := S (sf_index f);
     sf_answers_by_question_map := sf_answers_by_question_map f |}.

(** [the_stack::process_end_loop]: [true] when no frame was popped.
    The assertion guards the empty stack, left unchanged here. *)
Definition stack_process_end_loop (ts : the_stack) : the_stack * bool :=
  match last (ts_vector ts) with
  | None => (ts, true)
  | Some f =>
      let f' := increment_index f in
      if (sf_index f' =? sf_loop_operand_size f')%nat then (pop_frame ts, false)
      else (set_back ts f', true)
  end.

(** the questions, by position; labels of questions that are not there
    are never asked for *)
Definition label_of (qs : list question) (q : qref) : string :=
  match qs !! q with Some x => q_label x | None => "" end.

(** The expression host. The program serialises answers to JSON, wraps
    the snippet and hands the text to V8; the host below receives what
    that text is computed from. A failed run is [None]. *)
Class Expr := {
  (** [operator<<] of a JSON value on a stream *)
  json_write : json -> string;
  (** [transition::run]: the code of the condition, each parameter with
      the answer found for it, the start of the interview *)
  run_condition : string -> list (string * option answer) -> time_t -> option json;
  (** [function::call (lang)] for a text function, whose arguments are
      localized answer data computed against the stack *)
  call_text_function :
    string -> list (string * option answer) -> the_stack -> language_t -> option json;
  (** [compute_loop_operand] of a begin loop on its operand answer *)
  compute_loop_operand : the_stack -> language_t -> question -> answer -> option json;
  (** [the_stack_frame::calculate_loop_variable_value] *)
  calculate_loop_variable_value :
    the_stack -> language_t -> question -> answer -> nat -> option json
}.

Definition host {A} (r : option A) : result A := or_throw r expression_error.

(** ** Interviews *)

(** the hierarchy below [entry]; the operand answer of a begin-loop
    entry is a weak link, kept as the identity of the answer *)
Inductive entry :=
| entry_answer (a : answer)
| entry_begin_loop (qbl : qref) (loop_operand_answer : nat) (index : nat)
| entry_end_loop (qel : qref).

Definition entry_loop_type (e : entry) : loop_type_t :=
  match e with
  | entry_answer _ => regular
  | entry_begin_loop _ _ _ => begin_loop
  | entry_end_loop _ => end_loop
  end.

(** [entry::get_question] and its overrides *)
Definition entry_question (e : entry) : qref :=
  match e with
  | entry_answer a => a_question a
  | entry_begin_loop qbl _ _ => qbl
  | entry_end_loop qel => qel
  end.

Inductive state_t := initiated | ongoing | completed.

#[global] Instance state_eq_dec : EqDecision state_t.
Proof. solve_decision. Defined.

Record interview := {
  i_questionnaire : questionnaire;
  i_start_timestamp : time_t;
  i_language : language_t;
  i_questionnaire_localization : option questionnaire_localization;
  i_history : list entry;
  i_state : state_t;
  i_next_question : option qref
}.

Definition set_history (it : interview) (h : list entry) : interview :=
  {| i_questionnaire := i_questionnaire it;
     i_start_timestamp := i_start_timestamp it;
     i_language := i_language it;
     i_questionnaire_localization := i_questionnaire_localization it;
     i_history := h;
     i_state := i_state it;
     i_next_question := i_next_question it |}.

Definition i_questions (it : interview) : list question :=
  qq_questions (i_questionnaire it).

(** [interview::set_next_question]; a link to a question that is not
    in the questionnaire cannot be built *)
Definition set_next_question (it : interview) (q : qref) : interview :=
  {| i_questionnaire := i_questionnaire it;
     i_start_timestamp := i_start_timestamp it;
     i_language := i_language it;
     i_questionnaire_localization := i_questionnaire_localization it;
     i_history := i_history it;
     i_state := match i_questions it !! q with
                | Some x => if is_final x then completed else i_state it
                | None => i_state it
                end;
     i_next_question := Some q |}.

Definition add_answer (it : interview) (a : answer) : interview :=
  set_history it (i_history it ++ [entry_answer a]).

Definition add_begin_loop (it : interview) (qbl : qref) (loop_answer : answer) (index : nat)
  : interview :=
  set_history it (i_history it ++ [entry_begin_loop qbl (a_id loop_answer) index]).

Definition add_end_loop (it : interview) (qel : qref) : interview :=
  set_history it (i_history it ++ [entry_end_loop qel]).

(** the answer a weak link designates, if it is still in the history *)
Fixpoint answer_of_id (h : list entry) (id : nat) : option answer :=
  match h with
  | [] => None
  | entry_answer a :: h' => if (a_id a =? id)%nat then Some a else answer_of_id h' id
  | _ :: h' => answer_of_id h' id
  end.

(** an address no answer of the history has *)
Definition fresh_answer_id (h : list entry) : nat :=
  S (foldr (fun e m => match e with entry_answer a => Nat.max (a_id a) m | _ => m end) 0 h).

(** what the respondent is sent: [localized_question], reduced to the
    label and the computed text *)
Record localized_question := {
  lq_label : string;
  lq_text : string
}.

(** ** The interpreter ([src/server/ontology.cpp]) *)

Section Interpreter.

Context `{E : Expr}.

(** [template_question_localization::find], a lookup in the store *)
Variable find_template_localization :
  template_question -> language_t -> option template_question_localization.

(** the questions of the (locked) questionnaire *)
Variable qs : list question.
Variable lang : language_t.
Variable start_timestamp : time_t.

(** *** Transitions *)

(** the arguments a function is given: each parameter question's
    label with the answer the stack has for it *)
Definition arguments (ts : the_stack) (f : function) : list (string * option answer) :=
  map (fun q => (label_of qs q, find_answer ts q)) (f_parameters f).

(** [transition::run]: the destination when the transition is taken *)
Definition transition_run (ts : the_stack) (t : transition) : result (option qref) :=
  match t_condition t with
  | None => Ok (Some (t_destination t))
  | Some c =>
      if function_empty c then Ok (Some (t_destination t))
      else
        let* v := host (run_condition (f_code c) (arguments ts c) start_timestamp) in
        if json_is_true v then Ok (Some (t_destination t)) else Ok None
  end.

(** the [for] loop of [question::run_transitions] and what follows it *)
Fixpoint run_transitions_loop (ts : the_stack) (l : list transition) : result qref :=
  match l with
  | [] => Err internal_error
  | t :: l' =>
      let* r := transition_run ts t in
      match r with
      | Some q => Ok q
      | None => run_transitions_loop ts l'
      end
  end.

Definition question_run_transitions (ts : the_stack) (q : question) : result qref :=
  run_transitions_loop ts (q_transitions q).

(** [interview::run_transitions] on a question of the questionnaire *)
Definition run_transitions (ts : the_stack) (q : qref) : result qref :=
  let* x := or_throw (qs !! q) internal_error in
  question_run_transitions ts x.

(** *** Frames *)

(** the constructor of [the_stack_frame] *)
Definition make_frame (ts : the_stack) (qbl : qref) (loa : answer)
  : result the_stack_frame :=
  let* q := or_throw (qs !! qbl) internal_error in
  let* operand := host (compute_loop_operand ts lang q loa) in
  Ok {| sf_question_begin_loop := qbl;
        sf_loop_operand_answer := loa;
        sf_loop_operand := operand;
        sf_loop_operand_size := match json_if_array operand with
                                | Some arr => length arr
                                | None => 0
                                end;
        sf_loop_variable_value := None;
        sf_index := 0;
        sf_answers_by_question_map := ∅ |}.

(** [the_stack::process_begin_loop (lang, qbl, loa)] *)
Definition stack_push_begin_loop (ts : the_stack) (qbl : qref) (loa : answer)
  : result the_stack :=
  match last (ts_vector ts) with
  | None =>
      let* f := make_frame ts qbl loa in Ok (push_frame ts f)
  | Some tsf =>
      if negb (sf_question_begin_loop tsf =? qbl)%nat then
        let* f := make_frame ts qbl loa in Ok (push_frame ts f)
      else Ok ts
  end.

Definition operand_question_of (qbl : qref) : result qref :=
  match qs !! qbl with
  | Some {| q_variant := q_begin_loop oq _ _ |} => Ok oq
  | _ => Err internal_error
  end.

(** [the_stack::process_begin_loop (lang, qbl)]: the loop operand
    answer if the loop is entered *)
Definition stack_process_begin_loop (ts : the_stack) (qbl : qref)
  : result (the_stack * option answer) :=
  let* oq := operand_question_of qbl in
  match find_answer ts oq with
  | None => Ok (ts, None)
  | Some loa =>
      let* q := or_throw (qs !! qbl) internal_error in
      let* first := host (calculate_loop_variable_value ts lang q loa 0) in
      if json_is_null first then Ok (ts, None)
      else
        let* ts' := stack_push_begin_loop ts qbl loa in
        Ok (ts', Some loa)
  end.

(** [the_stack::get_index] and [get_question_begin_loop], behind
    their assertion that there is a frame *)
Definition stack_get_index (ts : the_stack) : nat :=
  match last (ts_vector ts) with Some f => sf_index f | None => 0 end.

Definition stack_get_question_begin_loop (ts : the_stack) : result qref :=
  match last (ts_vector ts) with
  | Some f => Ok (sf_question_begin_loop f)
  | None => Err internal_error
  end.

(** [the_stack::process_entry]; [h] is the history the weak link of a
    begin-loop entry is resolved in *)
Definition process_entry (h : list entry) (ts : the_stack) (e : entry) : result the_stack :=
  match e with
  | entry_answer a => Ok (replace_answer ts a)
  | entry_begin_loop qbl id _ =>
      let* loa := or_throw (answer_of_id h id) internal_error in
      stack_push_begin_loop ts qbl loa
  | entry_end_loop _ => Ok (fst (stack_process_end_loop ts))
  end.

(** [interview::calculate (ts, pos)]: the stack before the entry at
    position [pos] *)
Definition calculate (h : list entry) (pos : nat) : result the_stack :=
  rfold (process_entry h) empty_stack (take pos h).

(** *** Loop variables *)

Definition set_loop_variable_value (f : the_stack_frame) (v : json) : the_stack_frame :=
  {| sf_question_begin_loop := sf_question_begin_loop f;
     sf_loop_operand_answer := sf_loop_operand_answer f;
     sf_loop_operand := sf_loop_operand f;
     sf_loop_operand_size := sf_loop_operand_size f;
     sf_loop_variable_value := Some v;
     sf_index := sf_index f;
     sf_answers_by_question_map := sf_answers_by_question_map f |}.

Definition variable_of (qbl : qref) : string :=
  match qs !! qbl with
  | Some {| q_variant := q_begin_loop _ variable _ |} => variable
  | _ => ""
  end.

(** [the_stack::get_loop_variable]: the innermost frame whose
    variable has the name; its value is computed once per index and
    kept in the frame, which is why the stack is returned *)
Definition get_loop_variable (ts : the_stack) (name : string) : result (json * the_stack) :=
  match list_find (fun f => String.eqb (variable_of (sf_question_begin_loop f)) name)
                  (reverse (ts_vector ts)) with
  | None => Ok (j_null, ts)
  | Some (r, f) =>
      match sf_loop_variable_value f with
      | Some v => Ok (v, ts)
      | None =>
          let* q := or_throw (qs !! sf_question_begin_loop f) internal_error in
          let* v := host (calculate_loop_variable_value ts lang q
                            (sf_loop_operand_answer f) (sf_index f)) in
          let i := length (ts_vector ts) - 1 - r in
          Ok (v, {| ts_vector := <[i := set_loop_variable_value f v]> (ts_vector ts);
                    ts_answers_by_question_map := ts_answers_by_question_map ts |})
      end
  end.

(** *** Parametric text ([question_body::calculate_text]) *)

(** what the scanning loop holds: the stream [s], the vector
    [function_call_values], the stack (whose frames cache the loop
    variables), and, to observe them, the indices of the text
    functions called so far *)
Record render_state := {
  rs_out : string;
  rs_values : list (option json);
  rs_stack : the_stack;
  rs_calls : list nat
}.

Definition put (rs : render_state) (s : string) : render_state :=
  {| rs_out := (rs_out rs ++ s)%string;
     rs_values := rs_values rs;
     rs_stack := rs_stack rs;
     rs_calls := rs_calls rs |}.

Definition put_char (rs : render_state) (c : ascii) : render_state :=
  put rs (String c EmptyString).

(** where the program is in the body of the [while] *)
Inductive render_scan :=
| r_text
| r_prefix
| r_open
| r_number (funcn : Z) (ss : string)   (* in the first [do] loop *)
| r_variable (vars : string).          (* in the second [do] loop *)

(** a value on the stream: a string without its quotes *)
Definition put_value (rs : render_state) (v : json) : render_state :=
  match json_if_string v with
  | Some str => put rs str
  | None => put rs (json_write v)
  end.

(** [@{funcn}] was read *)
Definition render_call (b : question_body) (rs : render_state) (funcn : Z)
  : result render_state :=
  let* _ := throw_if (Z.of_nat (length (qb_text_functions b)) <=? funcn)%Z
              function_call_out_of_bounds in
  let n := Z.to_nat funcn in
  match rs_values rs !! n with
  | Some (Some v) =>
      (* the function was already called: [s << *function_call_values[funcn]] *)
      Ok (put rs (json_write v))
  | _ =>
      let* func := or_throw (qb_text_functions b !! n) internal_error in
      let* v := host (call_text_function (f_code func)
                        (arguments (rs_stack rs) func) (rs_stack rs) lang) in
      let rs1 := put_value rs v in
      Ok {| rs_out := rs_out rs1;
            rs_values := <[n := Some v]> (rs_values rs1);
            rs_stack := rs_stack rs1;
            rs_calls := rs_calls rs1 ++ [n] |}
  end.

(** [@{var}] was read *)
Definition render_variable (rs : render_state) (var : string) : result render_state :=
  let* (v, ts) := get_loop_variable (rs_stack rs) var in
  let* _ := throw_if (json_is_null v) question_loop_variable_unknown in
  Ok (put_value {| rs_out := rs_out rs; rs_values := rs_values rs;
                   rs_stack := ts; rs_calls := rs_calls rs |} v).

(** the stream when the text ends inside an escape sequence *)
Definition render_end (st : render_scan) (rs : render_state) : render_state :=
  match st with
  | r_text => rs
  | r_prefix => put_char rs eval_prefix
  | r_open => put_char rs eval_open
  | r_number _ ss => put rs ss
  | r_variable vars => put (put_char (put_char rs eval_prefix) eval_open) vars
  end.

Definition string_snoc (s : string) (c : ascii) : string :=
  (s ++ String c EmptyString)%string.

Fixpoint calculate_text_from
    (b : question_body) (st : render_scan) (rs : render_state) (text : string)
  : result render_state :=
  match text with
  | EmptyString => Ok (render_end st rs)
  | String c rest =>
      match st with
      | r_text =>
          if Ascii.eqb c eval_prefix then calculate_text_from b r_prefix rs rest
          else calculate_text_from b r_text (put_char rs c) rest
      | r_prefix =>
          if Ascii.eqb c eval_open then calculate_text_from b r_open rs rest
          else calculate_text_from b r_text (put_char rs c) rest
      | r_open =>
          if isdigit c then
            calculate_text_from b
              (r_number (digit_value c)
                 (String eval_prefix (String eval_open (String c EmptyString))))
              rs rest
          else calculate_text_from b (r_variable (String c EmptyString)) rs rest
      | r_number funcn ss =>
          if isdigit c then
            calculate_text_from b
              (r_number (accumulate_funcn funcn c) (string_snoc ss c)) rs rest
          else if negb (Ascii.eqb c eval_close) then
            (* [abort]: the side stream is written and the loop left *)
            Ok (put rs ss)
          else
            let* rs' := render_call b rs funcn in
            calculate_text_from b r_text rs' rest
      | r_variable vars =>
          if Ascii.eqb c eval_close then
            let* rs' := render_variable rs vars in
            calculate_text_from b r_text rs' rest
          else calculate_text_from b (r_variable (string_snoc vars c)) rs rest
      end
  end.

Definition calculate_text_state (b : question_body) (ts : the_stack) (text : string)
  : result render_state :=
  if (match qb_text_functions b with [] => true | _ => false end) && stack_empty ts then
    Ok {| rs_out := text; rs_values := []; rs_stack := ts; rs_calls := [] |}
  else
    calculate_text_from b r_text
      {| rs_out := ""; rs_values := replicate (length (qb_text_functions b)) None;
         rs_stack := ts; rs_calls := [] |}
      text.

(** [question_body::calculate_text]: the text, and the stack with the
    loop variables the rendering has cached *)
Definition calculate_text (b : question_body) (ts : the_stack) (text : string)
  : result (string * the_stack) :=
  let* rs := calculate_text_state b ts text in
  Ok (rs_out rs, rs_stack rs).

(** *** Localized questions *)

(** [questionnaire_localization::find_question_localization] behind
    [interview::find_question_localization] *)
Definition find_question_localization (it : interview) (q : qref)
  : result (option question_localization) :=
  let* qql := or_throw (i_questionnaire_localization it) interview_is_not_started in
  Ok (snd <$> list_find (fun ql => bool_decide (qloc_question ql = q))
                (qql_questions_localizations qql)).

Definition template_of (q : qref) : option template_question :=
  match qs !! q with
  | Some {| q_variant := q_from_template tq |} => Some tq
  | _ => None
  end.

(** [interview::next_question_localization] *)
Definition next_question_localization (it : interview) : result localizations :=
  let* nq := or_throw (i_next_question it) internal_error in
  let* oql := find_question_localization it nq in
  match oql with
  | Some ql => Ok (loc_question ql)
  | None =>
      match template_of nq with
      | Some tq =>
          (* [*template_question_localization::find (...)] *)
          let* tql := or_throw (find_template_localization tq (i_language it))
                        internal_error in
          Ok (loc_template tql nq)
      | None => Err internal_error
      end
  end.

(** [interview::next_localized_question (ts)], with
    [make_localized_question] reduced to the computation of the text *)
Definition next_localized_question (it : interview) (ts : the_stack)
  : result localized_question :=
  let* nq := or_throw (i_next_question it) internal_error in
  let* oql := find_question_localization it nq in
  match oql with
  | Some ql =>
      let* q := or_throw (qs !! qloc_question ql) internal_error in
      let* b := or_throw (get_body q) internal_error in
      let* (text, _) := calculate_text b ts (qlb_text (qloc_body ql)) in
      Ok {| lq_label := q_label q; lq_text := text |}
  | None =>
      match template_of nq with
      | Some tq =>
          let* tql := or_throw (find_template_localization tq (i_language it))
                        internal_error in
          let* (text, _) := calculate_text (tq_body tq) ts (qlb_text (tql_body tql)) in
          Ok {| lq_label := label_of qs nq; lq_text := text |}
      | None => Err internal_error
      end
  end.

(** *** Advancing through loops *)

(** the [do] loop of [interview::find_matching_end_loop], from the
    question after the begin loop, with the counter [lc] *)
Fixpoint scan_matching_end_loop (l : list question) (pos : nat) (lc : nat)
  : result (option qref) :=
  match l with
  | [] => Ok None
  | q :: l' =>
      let* lc' := update_loop_counter q lc in
      if (lc' =? 0)%nat then Ok (Some pos)
      else scan_matching_end_loop l' (S pos) lc'
  end.

Definition find_matching_end_loop (qbl : qref) : result (option qref) :=
  scan_matching_end_loop (drop (S qbl) qs) (S qbl) 1.

Definition loop_type_of (q : qref) : result loop_type_t :=
  let* x := or_throw (qs !! q) internal_error in
  Ok (get_loop_type x).

(** [interview::calculate_new_next_question (ts, q)],
    [interview::process_begin_loop] and [interview::process_end_loop]
    call each other; [fuel] bounds the number of calls. *)
Fixpoint calculate_new_next_question_from
    (fuel : nat) (it : interview) (ts : the_stack) (q : qref) {struct fuel}
  : result (qref * interview * the_stack) :=
  match fuel with
  | O => Err out_of_fuel
  | S n =>
      let* x := or_throw (qs !! q) internal_error in
      if supports_localization x then Ok (q, it, ts)
      else
        match get_loop_type x with
        | begin_loop => process_begin_loop n it ts q
        | end_loop => process_end_loop n it ts q
        | regular => Err internal_error
        end
  end

with process_begin_loop
    (fuel : nat) (it : interview) (ts : the_stack) (qbl : qref) {struct fuel}
  : result (qref * interview * the_stack) :=
  match fuel with
  | O => Err out_of_fuel
  | S n =>
      let* (ts1, loa) := stack_process_begin_loop ts qbl in
      match loa with
      | Some a =>
          (* recording the begin loop in the interview *)
          let it1 := add_begin_loop it qbl a (stack_get_index ts1) in
          let* q := run_transitions ts1 qbl in
          let* lt := loop_type_of q in
          match lt with
          | end_loop => process_end_loop n it1 ts1 q
          | _ => calculate_new_next_question_from n it1 ts1 q
          end
      | None =>
          (* nothing to loop upon *)
          let* oqel := find_matching_end_loop qbl in
          match oqel with
          | Some qel =>
              let* q := run_transitions ts1 qel in
              let* lt := loop_type_of q in
              match lt with
              | regular => calculate_new_next_question_from n it ts1 q
              | begin_loop => process_begin_loop n it ts1 q
              | end_loop => process_end_loop n it ts1 q
              end
          | None => Err internal_error
          end
      end
  end

with process_end_loop
    (fuel : nat) (it : interview) (ts : the_stack) (qel : qref) {struct fuel}
  : result (qref * interview * the_stack) :=
  match fuel with
  | O => Err out_of_fuel
  | S n =>
      let* _ := throw_if (stack_empty ts) question_loop_logic_error in
      (* added unconditionally *)
      let it1 := add_end_loop it qel in
      let (ts1, iterating) := stack_process_end_loop ts in
      if iterating then
        let* qbl := stack_get_question_begin_loop ts1 in
        let* q := run_transitions ts1 qbl in
        let* lt := loop_type_of q in
        match lt with
        | end_loop => process_end_loop n it1 ts1 q
        | _ => calculate_new_next_question_from n it1 ts1 q
        end
      else
        let* q := run_transitions ts1 qel in
        let* lt := loop_type_of q in
        match lt with
        | regular => calculate_new_next_question_from n it1 ts1 q
        | begin_loop => process_begin_loop n it1 ts1 q
        | end_loop => process_end_loop n it1 ts1 q
        end
  end.

(** [interview::calculate_new_next_question (ts)] *)
Definition calculate_new_next_question (fuel : nat) (it : interview) (ts : the_stack)
  : result (qref * interview * the_stack) :=
  let* nq := or_throw (i_next_question it) internal_error in
  let* q := run_transitions ts nq in
  let* (q', it', ts') := calculate_new_next_question_from fuel it ts q in
  Ok (q', set_next_question it' q', ts').

(** [interview::move_ahead] *)
Definition move_ahead (fuel : nat) (it : interview)
  : result (interview * localized_question) :=
  let* ts := calculate (i_history it) (length (i_history it)) in
  let* (_, it', ts') := calculate_new_next_question fuel it ts in
  let* lq := next_localized_question it' ts' in
  Ok (it', lq).

(** the [answer] service (services.cpp), without the campaign window
    and the clock, which are the store's and the caller's: [elapsed]
    and [total_elapsed] are the times [calculate_elapsed_times] gives *)
Definition submit
    (fuel : nat) (it : interview) (payload : option answer_payload)
    (ip_address : string) (elapsed total_elapsed : time_t)
  : result (interview * localized_question) :=
  let* p := or_throw payload answer_is_missing in
  let* _ := throw_if (bool_decide (i_state it = initiated)) interview_is_not_started in
  let* _ := throw_if (bool_decide (i_state it = completed))
              interview_is_already_completed in
  let* locs := next_question_localization it in
  let* a := make_answer qs (fresh_answer_id (i_history it)) locs
              ip_address elapsed total_elapsed p in
  move_ahead fuel (add_answer it a).

(** *** Revising an answer *)

(** [find_next_regular_question] (ontology.cpp); [fuel] bounds the
    turns of its [while (true)] *)
Fixpoint find_next_regular_question (fuel : nat) (ts : the_stack) (q : qref)
  : result (qref * the_stack) :=
  match fuel with
  | O => Err out_of_fuel
  | S n =>
      let* lt := loop_type_of q in
      match lt with
      | regular => Ok (q, ts)
      | begin_loop =>
          let* (ts1, _) := stack_process_begin_loop ts q in
          let* f := run_transitions ts1 q in
          find_next_regular_question n ts1 f
      | end_loop =>
          let ts1 := fst (stack_process_end_loop ts) in
          let* f := run_transitions ts1 q in
          find_next_regular_question n ts1 f
      end
  end.

(** [entry::is_impacted_by (const answer_r&)] and its overrides. The
    override of the begin-loop entry compares addresses. *)
Definition entry_is_impacted_by (e : entry) (a : answer) : result bool :=
  match e with
  | entry_answer ea =>
      let* q := or_throw (qs !! a_question ea) internal_error in
      Ok (question_is_impacted_by q (a_question a))
  | entry_begin_loop _ id _ => Ok (id =? a_id a)%nat
  | entry_end_loop _ => Ok false
  end.

(** [process_impacted_entry] (ontology.cpp): whether the entry is
    truly impacted, and the two stacks *)
Definition process_impacted_entry
    (pts nts : the_stack) (ploa nloa : answer) (e : entry)
  : result (bool * the_stack * the_stack) :=
  match e with
  | entry_answer a =>
      let* q := or_throw (qs !! a_question a) internal_error in
      (* [dynamic_cast<question_with_body*>] behind an assertion *)
      let* qb := match q_variant q with
                 | q_with_body b => Ok b
                 | _ => Err internal_error
                 end in
      let text := qlb_text (a_localization_body a) in
      let* (ptxt, pts1) := calculate_text qb pts text in
      let* (ntxt, nts1) := calculate_text qb nts text in
      if negb (String.eqb ptxt ntxt) then Ok (true, pts1, nts1)
      else Ok (false, replace_answer pts1 a, replace_answer nts1 a)
  | entry_begin_loop qbl _ _ =>
      let* q := or_throw (qs !! qbl) internal_error in
      let* plov := host (compute_loop_operand pts lang q ploa) in
      let* nlov := host (compute_loop_operand nts lang q nloa) in
      if negb (json_eqb plov nlov) then Ok (true, pts, nts)
      else
        let* (pts1, _) := stack_process_begin_loop pts qbl in
        let* (nts1, _) := stack_process_begin_loop nts qbl in
        Ok (false, pts1, nts1)
  | entry_end_loop _ => Err internal_error
  end.

(** [interview::resect]: the entries from the first one whose
    question is [q] *)
Fixpoint resect (rest : list entry) (q : qref) : list entry :=
  match rest with
  | [] => []
  | e :: rest' => if (entry_question e =? q)%nat then rest else resect rest' q
  end.

(** hx2a's [graft] is not part of the repository. The new answer
    takes the place of the old one in the history and the weak links
    to the old answer designate what is now in its place; whether the
    object in place still compares equal to the old answer [pa] is
    the parameter [graft_keeps_identity]. *)
Variable graft_keeps_identity : bool.

Definition grafted (pa na : answer) : answer :=
  if graft_keeps_identity then
    {| a_id := a_id pa; a_localization := a_localization na;
       a_ip_address := a_ip_address na; a_elapsed := a_elapsed na;
       a_total_elapsed := a_total_elapsed na; a_body := a_body na |}
  else na.

Definition relink (pa na : answer) (e : entry) : entry :=
  match e with
  | entry_begin_loop qbl id index =>
      if (id =? a_id pa)%nat then entry_begin_loop qbl (a_id (grafted pa na)) index
      else e
  | _ => e
  end.

(** the end of [revise_answer]: everything from the cursor on is
    gone, [kept] is the history *)
Definition revise_finish
    (fuel : nat) (it : interview) (nts : the_stack) (kept : list entry) (nnetq : qref)
  : result (interview * localized_question) :=
  let* (nq, nts1) := find_next_regular_question fuel nts nnetq in
  let it1 := set_next_question (set_history it kept) nq in
  let* lq := next_localized_question it1 nts1 in
  Ok (it1, lq).

(** what [revise_answer] does with the entry the cursor stops on:
    whether the entry is truly impacted, and the two stacks *)
Definition revise_landing
    (h : list entry) (pts nts : the_stack) (pa na : answer) (nee : entry)
  : result (bool * the_stack * the_stack) :=
  let* impacted := entry_is_impacted_by nee pa in
  if impacted then
    let* (truly, pts1, nts1) := process_impacted_entry pts nts pa na nee in
    if truly then Ok (true, pts1, nts1)
    else
      let* pts2 := process_entry h pts1 nee in
      let* nts2 := process_entry h nts1 nee in
      Ok (false, pts2, nts2)
  else
    let* pts2 := process_entry h pts nee in
    let* nts2 := process_entry h nts nee in
    Ok (false, pts2, nts2).

(** the [while (true)] of [revise_answer]: [kept] are the entries
    before the cursor [i], [rest] the entries from [i] to the end;
    the loop advances the cursor or returns, so it is recursive on the
    number [n] of entries it may still cross *)
Fixpoint revise_loop
    (fuel : nat) (n : nat) (it : interview) (pts nts : the_stack) (pa na : answer)
    (q : qref) (kept rest : list entry)
  : result (interview * localized_question) :=
  let* nnetq := run_transitions nts q in
  match rest with
  | [] => revise_finish fuel it nts kept nnetq
  | nee :: _ =>
      let rest1 := if negb (nnetq =? entry_question nee)%nat
                   then resect rest nnetq else rest in
      match rest1 with
      | [] => revise_finish fuel it nts kept nnetq
      | nee1 :: rest2 =>
          let* (truly, pts1, nts1) :=
            revise_landing (kept ++ rest1) pts nts pa na nee1 in
          if truly then revise_finish fuel it nts1 kept nnetq
          else
            match n with
            | O => Err out_of_fuel
            | S n' =>
                revise_loop fuel n' it pts1 nts1 pa na nnetq (kept ++ [nee1]) rest2
            end
      end
  end.

(** [interview::revise_answer (pos, na)] *)
Definition revise_answer (fuel : nat) (it : interview) (pos : nat) (na : answer)
  : result (interview * localized_question) :=
  match i_history it !! pos with
  | Some (entry_answer pa) =>
      let q := a_question pa in
      let* _ := throw_if (negb (q =? a_question na)%nat) answer_is_incorrect in
      let* pts0 := calculate (i_history it) pos in
      let nts := replace_answer pts0 na in
      let pts := replace_answer pts0 pa in
      (* [pa->graft (na)] *)
      let kept := take pos (i_history it) ++ [entry_answer (grafted pa na)] in
      let rest := map (relink pa na) (drop (S pos) (i_history it)) in
      revise_loop fuel (length rest) it pts nts pa na q kept rest
  | _ => Err internal_error
  end.

(** [interview::find_answer (size_t)] *)
Definition interview_find_answer (it : interview) (index : nat) : result answer :=
  match i_history it !! index with
  | Some (entry_answer a) => Ok a
  | _ => Err answer_index_does_not_exist
  end.

(** the [answer_revise] service (services.cpp), as [submit] *)
Definition revise
    (fuel : nat) (it : interview) (index : nat) (payload : option answer_payload)
    (ip_address : string) (elapsed total_elapsed : time_t)
  : result (interview * localized_question) :=
  let* p := or_throw payload answer_is_missing in
  let* _ := throw_if (bool_decide (i_state it = initiated)) interview_is_not_started in
  let* old := interview_find_answer it index in
  let* na := make_answer qs (fresh_answer_id (i_history it)) (a_localization old)
               ip_address elapsed total_elapsed p in
  revise_answer fuel it index na.

End Interpreter.

(** ** Checking a questionnaire localization ([src/server/ontology.cpp]) *)

Section LocalizationCheck.

(** [template_question_localization::find], a lookup in the store *)
Variable find_template_localization :
  template_question -> language_t -> option template_question_localization.

(** [questionnaire_localization::dump]: the localizations by
    question, or the exception for a question that has two *)
Fixpoint dump_localizations
    (m : gmap qref question_localization) (l : list question_localization)
  : result (gmap qref question_localization) :=
  match l with
  | [] => Ok m
  | ql :: l' =>
      let* _ := throw_if (bool_decide (is_Some (m !! qloc_question ql)))
                  question_localization_is_duplicate in
      dump_localizations (<[qloc_question ql := ql]> m) l'
  end.

(** the body of the [while] of [force_check], on the question at
    position [i] *)
Definition check_question_is_localized
    (qlmpq : gmap qref question_localization) (language : language_t)
    (i : qref) (q : question) : result unit :=
  match qlmpq !! i with
  | Some _ => Ok tt
  | None =>
      let* _ := throw_if (supports_localization q) question_localization_does_not_exist in
      match q_variant q with
      | q_from_template tq =>
          throw_if (bool_decide (find_template_localization tq language = None))
            question_localization_for_template_does_not_exist
      | _ => Ok tt
      end
  end.

Fixpoint check_questions_are_localized
    (qlmpq : gmap qref question_localization) (language : language_t)
    (i : qref) (l : list question) : result unit :=
  match l with
  | [] => Ok tt
  | q :: l' =>
      let* _ := check_question_is_localized qlmpq language i q in
      check_questions_are_localized qlmpq language (S i) l'
  end.

(** [questionnaire_localization::force_check] *)
Definition force_check (quest : questionnaire) (qql : questionnaire_localization)
  : result unit :=
  let* qlmpq := dump_localizations ∅ (qql_questions_localizations qql) in
  check_questions_are_localized qlmpq (qql_language qql) 0 (qq_questions quest).

Definition set_questionnaire_change_count
    (qql : questionnaire_localization) (n : Z) : questionnaire_localization :=
  {| qql_questionnaire_change_count := n;
     qql_title := qql_title qql;
     qql_language := qql_language qql;
     qql_questions_localizations := qql_questions_localizations qql |}.

(** [questionnaire_localization::check]: the localization after the
    call, or the exception of [force_check]; with it the number of
    times [force_check] ran *)
Definition check_counting (quest : questionnaire) (qql : questionnaire_localization)
  : result questionnaire_localization * nat :=
  if (qql_questionnaire_change_count qql =? qq_change_count quest)%Z then
    (* already done *)
    (Ok qql, 0)
  else
    (let* _ := force_check quest qql in
     Ok (set_questionnaire_change_count qql (qq_change_count quest)),
     1).

Definition check (quest : questionnaire) (qql : questionnaire_localization)
  : result questionnaire_localization :=
  fst (check_counting quest qql).

End LocalizationCheck.

(** ** The vocabulary of the properties *)

(** a transition whose condition is null or has no code *)
Definition is_catch_all (t : transition) : bool :=
  match t_condition t with
  | None => true
  | Some c => function_empty c
  end.

(** the transition leaves the question at position [i] for a later
    question of a questionnaire of [n] questions *)
Definition forward (n i : nat) (t : transition) : Prop :=
  i < t_destination t < n.

(** the parameter names a question the map knows, recorded before the
    question [qi] and in its loop nest *)
Definition earlier_in_same_nest
    (m : gmap string question_info) (qi : question_info) (par : string) : Prop :=
  exists pqi,
    m !! par = Some pqi /\
    qi_index pqi < qi_index qi /\
    qi_loop_nest pqi = qi_loop_nest qi.

(** the parameter names a question the map knows, at position [p] *)
Definition names_question
    (m : gmap string question_info) (par : string) (p : qref) : Prop :=
  exists pqi, m !! par = Some pqi /\ p = qi_index pqi.

(** the condition of the transition has code and the host finds it
    truthy on the answers of the stack *)
Definition condition_holds `{E : Expr}
    (qs : list question) (start_timestamp : time_t)
    (ts : the_stack) (t : transition) : Prop :=
  exists c v,
    t_condition t = Some c /\ function_empty c = false /\
    run_condition (f_code c) (arguments qs ts c) start_timestamp = Some v /\
    json_is_true v = true.

(** the condition of the transition has code and the host finds it not
    truthy on the answers of the stack: the transition is passed over *)
Definition condition_fails `{E : Expr}
    (qs : list question) (start_timestamp : time_t)
    (ts : the_stack) (t : transition) : Prop :=
  exists c v,
    t_condition t = Some c /\ function_empty c = false /\
    run_condition (f_code c) (arguments qs ts c) start_timestamp = Some v /\
    json_is_true v = false.

(** the condition of the transition has code and the host fails to run
    it *)
Definition condition_breaks `{E : Expr}
    (qs : list question) (start_timestamp : time_t)
    (ts : the_stack) (t : transition) : Prop :=
  exists c,
    t_condition t = Some c /\ function_empty c = false /\
    run_condition (f_code c) (arguments qs ts c) start_timestamp = None.




(** what the second pass keeps true of the questions: each is recorded
    in the map under its position, those before the cursor [qi] only
    transition forward, the others have no transition yet *)
Definition second_pass_invariant
    (m : gmap string question_info) (n qi : nat) (qs : list question) : Prop :=
  length qs = n /\
  forall i q, qs !! i = Some q ->
    (exists info, m !! q_label q = Some info /\ qi_index info = i) /\
    (i < qi -> Forall (forward n i) (q_transitions q)) /\
    (qi <= i -> q_transitions q = []).

(** what the first pass keeps true: the counter is the number of
    questions pushed, and each of them is in the map under its position
    and has no transition yet *)
Definition first_pass_invariant (s : first_pass_state) : Prop :=
  fp_qn s = length (qq_questions (fp_qq s)) /\
  forall i q, qq_questions (fp_qq s) !! i = Some q ->
    (exists info, fp_m s !! q_label q = Some info /\ qi_index info = i) /\
    q_transitions q = [].

(** the loop at [qbl] is not entered: the stack has no answer to its
    operand question, or the first value of the loop variable is null *)
Definition loop_is_skipped `{E : Expr}
    (qs : list question) (lang : language_t) (ts : the_stack) (qbl : qref) : Prop :=
  exists oq,
    operand_question_of qs qbl = Ok oq /\
    (find_answer ts oq = None \/
     exists loa q v,
       find_answer ts oq = Some loa /\ qs !! qbl = Some q /\
       calculate_loop_variable_value ts lang q loa 0 = Some v /\
       json_is_null v = true).

(** the loop at [qbl] is entered on the answer [loa] to its operand
    question *)
Definition loop_is_entered `{E : Expr}
    (qs : list question) (lang : language_t) (ts : the_stack) (qbl : qref)
    (loa : answer) : Prop :=
  exists oq q v,
    operand_question_of qs qbl = Ok oq /\
    find_answer ts oq = Some loa /\ qs !! qbl = Some q /\
    calculate_loop_variable_value ts lang q loa 0 = Some v /\
    json_is_null v = false.

(** the innermost frame, if any, is not a frame of the loop at [qbl] *)
Definition no_frame_on_top (ts : the_stack) (qbl : qref) : Prop :=
  match last (ts_vector ts) with
  | None => True
  | Some f => sf_question_begin_loop f <> qbl
  end.

(** ** Sample data: a small host, three questionnaires, an interview *)

Definition double_quote : string := String (ascii_of_nat 34) EmptyString.

(** a JSON printer for the examples *)
Fixpoint sample_json_write (v : json) : string :=
  match v with
  | j_null => "null"
  | j_bool true => "true"
  | j_bool false => "false"
  | j_number n => pretty n
  | j_string s => (double_quote ++ s ++ double_quote)%string
  | j_array l =>
      ("[" ++ String.concat "," (map sample_json_write l) ++ "]")%string
  end.

Definition input_of (a : answer) : string :=
  match a_body a with ab_input i _ => i | _ => "" end.

Definition choice_index_of (a : answer) : option nat :=
  match a_body a with ab_select c _ => Some (ch_index c) | _ => None end.

(** the one-character strings of a text *)
Fixpoint characters (s : string) : list json :=
  match s with
  | EmptyString => []
  | String c r => j_string (String c EmptyString) :: characters r
  end.

(** A host for the examples. A condition is true when it is the snippet
    [true], or when it names no constant and the first parameter was
    answered with the first option; a text function yields the input of
    its first parameter, or its own code when it has no parameter; the
    operand of a loop is the list of the characters of the input. *)
#[global] Instance sample_host : Expr := {|
  json_write := sample_json_write;
  run_condition := fun code args _ =>
    if String.eqb code "true" then Some (j_bool true)
    else if String.eqb code "false" then Some (j_bool false)
    else match args with
         | (_, Some a) :: _ => Some (j_bool (bool_decide (choice_index_of a = Some 0)))
         | _ => Some j_null
         end;
  call_text_function := fun code args _ _ =>
    match args with
    | [] => Some (j_string code)
    | (_, Some a) :: _ => Some (j_string (input_of a))
    | (_, None) :: _ => Some j_null
    end;
  compute_loop_operand := fun _ _ _ a => Some (j_array (characters (input_of a)));
  calculate_loop_variable_value := fun _ _ _ a i =>
    Some (nth i (characters (input_of a)) j_null)
|}.

Definition no_template_localization
  : template_question -> language_t -> option template_question_localization :=
  fun _ _ => None.

Definition accept_all : string -> bool := fun _ => true.

Definition plain_text (s : string) : option source_text :=
  Some {| stx_functions := []; stx_value := s |}.

Definition sample_transition (condition code destination : string) (ps : list string)
  : option source_transition :=
  Some {| st_parameters := ps; st_condition := condition; st_code := code;
          st_destination := destination |}.

Definition sample_input (label text : string) : option source_question :=
  Some {| sq_label := label; sq_transitions := [];
          sq_variant := sq_input "" (plain_text text) "" false |}.

Definition sample_message (label text : string) : option source_question :=
  Some {| sq_label := label; sq_transitions := [];
          sq_variant := sq_message "" (plain_text text) |}.

(** a choice between two options that decides the next question, on a
    condition that reads the answer to the question itself *)
Definition branch_source : source_questionnaire :=
  {| sqq_name := "branch"; sqq_title := "Branch"; sqq_language := 0;
     sqq_questions :=
       [ Some {| sq_label := "q1";
                 sq_transitions :=
                   [ sample_transition "q1.choice.index==0" "" "q3" ["q1"];
                     sample_transition "" "" "q2" [] ];
                 sq_variant :=
                   sq_select "" (plain_text "Pick one") "" false
                     [ Some {| so_label := "A"; so_comment_label := "" |};
                       Some {| so_label := "B"; so_comment_label := "" |} ] |};
         sample_message "q2" "Chose B";
         sample_message "q3" "Chose A" ] |}.

(** as above, but the last transition of [q1] gives its condition as
    [code] *)
Definition code_last_source : source_questionnaire :=
  {| sqq_name := "code_last"; sqq_title := "Code last"; sqq_language := 0;
     sqq_questions :=
       [ Some {| sq_label := "q1";
                 sq_transitions :=
                   [ sample_transition "false" "" "q2" [];
                     sample_transition "" "false" "q3" [] ];
                 sq_variant := sq_message "" (plain_text "Hello") |};
         sample_message "q2" "One";
         sample_message "q3" "Two" ] |}.

(** a loop over the characters of the first answer *)
Definition loop_source : source_questionnaire :=
  {| sqq_name := "loop"; sqq_title := "Loop"; sqq_language := 0;
     sqq_questions :=
       [ sample_input "q0" "Letters?";
         Some {| sq_label := "q1"; sq_transitions := [];
                 sq_variant := sq_begin_loop "q0" "x" "R=q0.input" |};
         sample_input "q2" "About @{x}?";
         Some {| sq_label := "q3"; sq_transitions := []; sq_variant := sq_end_loop |};
         sample_input "q4" "More?";
         sample_message "q5" "Bye" ] |}.

Definition empty_questionnaire : questionnaire := make_questionnaire "".

(** the questionnaire a source compiles to *)
Definition compiled (src : source_questionnaire) : questionnaire :=
  match compile accept_all ∅ src with
  | Ok (qq, _) => qq
  | Err _ => empty_questionnaire
  end.

(** the interview of a respondent who is about to see the first
    question of a compiled questionnaire *)
Definition started_interview (r : result (questionnaire * questionnaire_localization))
  : interview :=
  match r with
  | Ok (qq, ql) =>
      {| i_questionnaire := qq; i_start_timestamp := 0%Z; i_language := 0;
         i_questionnaire_localization := Some ql; i_history := [];
         i_state := ongoing; i_next_question := Some 0 |}
  | Err _ =>
      {| i_questionnaire := empty_questionnaire; i_start_timestamp := 0%Z; i_language := 0;
         i_questionnaire_localization := None; i_history := [];
         i_state := initiated; i_next_question := None |}
  end.

Definition sample_fuel : nat := 20.

(** [submit] and [revise] on an interview's own questionnaire *)
Definition interview_submit (it : interview) (p : answer_payload)
  : result (interview * localized_question) :=
  submit no_template_localization (i_questions it) (i_language it)
    (i_start_timestamp it) sample_fuel it (Some p) "192.0.2.1" 1%Z 1%Z.

Definition interview_revise (keeps_identity : bool) (it : interview) (index : nat)
    (p : answer_payload) : result (interview * localized_question) :=
  revise no_template_localization (i_questions it) (i_language it)
    (i_start_timestamp it) keeps_identity sample_fuel it index (Some p) "192.0.2.1" 2%Z 9%Z.

Definition after {A} (r : result (interview * A)) : interview :=
  match r with
  | Ok (it, _) => it
  | Err _ => started_interview (Err internal_error)
  end.

(** the first localization a source compiles to *)
Definition compiled_localization (src : source_questionnaire) : questionnaire_localization :=
  match compile accept_all ∅ src with
  | Ok (_, ql) => ql
  | Err _ => make_questionnaire_localization "" 0
  end.

(** the map of the first pass on the three questions of [branch_source] *)
Definition branch_infos : gmap string question_info :=
  list_to_map [("q1", make_info 0 [] None);
               ("q2", make_info 1 [] None);
               ("q3", make_info 2 [] None)].

(** a map with a question [q2] inside the loop that [q1] opens and
    [q3] closes *)
Definition nested_infos : gmap string question_info :=
  list_to_map [("q0", make_info 0 [] None);
               ("q1", make_info 1 [] None);
               ("q2", make_info 2 [1] None);
               ("q3", make_info 3 [] (Some 1));
               ("q4", make_info 4 [] None)].

Definition option_a : option_localization := {| ol_label := "A"; ol_comment_label := "" |}.
Definition option_b : option_localization := {| ol_label := "B"; ol_comment_label := "" |}.
Definition option_c : option_localization := {| ol_label := "C"; ol_comment_label := "" |}.

(** a question on which exactly two of three options are to be chosen *)
Definition exactly_two_body : question_body :=
  {| qb_text_functions := []; qb_style := "";
     qb_variant := b_multiple_choices select_limit false false
                     [ {| o_has_comment := false |}; {| o_has_comment := false |};
                       {| o_has_comment := false |} ] 2 |}.

Definition exactly_two_localization : question_localization_body :=
  {| qlb_text := "Pick two";
     qlb_variant := l_multiple_choices select_limit "" [option_a; option_b; option_c] |}.

(** at most two of three *)
Definition at_most_two_body : question_body :=
  {| qb_text_functions := []; qb_style := "";
     qb_variant := b_multiple_choices select_at_most false false
                     [ {| o_has_comment := false |}; {| o_has_comment := false |};
                       {| o_has_comment := false |} ] 2 |}.


(** a required input *)
Definition required_input_body : question_body :=
  {| qb_text_functions := []; qb_style := ""; qb_variant := b_input false false |}.

Definition required_input_localization : question_localization_body :=
  {| qlb_text := "Name?"; qlb_variant := l_input "" |}.

(** the stack of a respondent who chose the first option of [q1] *)
Definition chose_first : the_stack :=
  replace_answer empty_stack
    {| a_id := 1;
       a_localization :=
         loc_question {| qloc_question := 0;
                         qloc_body := {| qlb_text := "Pick one";
                                         qlb_variant := l_select "" [option_a; option_b] |} |};
       a_ip_address := ""; a_elapsed := 0%Z; a_total_elapsed := 0%Z;
       a_body := ab_select {| ch_option_localization := option_a; ch_index := 0;
                              ch_comment := "" |} "" |}.

(** the stack of a respondent who answered [q0] of [loop_source] with
    the text [s] *)
Definition letters_answer (s : string) : answer :=
  {| a_id := 1;
     a_localization :=
       loc_question {| qloc_question := 0;
                       qloc_body := {| qlb_text := "Letters?"; qlb_variant := l_input "" |} |};
     a_ip_address := ""; a_elapsed := 0%Z; a_total_elapsed := 0%Z;
     a_body := ab_input s "" |}.

Definition answered_letters (s : string) : the_stack :=
  replace_answer empty_stack (letters_answer s).

Definition loop_interview_0 : interview :=
  started_interview (compile accept_all ∅ loop_source).

(** the interview once [q0] is answered with the text [s], before the
    interpreter advances *)
Definition letters_interview (s : string) : interview :=
  add_answer loop_interview_0 (letters_answer s).

(** the respondent answered [ab], then [x] and [y] in the two turns of
    the loop *)
Definition loop_interview_3 : interview :=
  after (interview_submit
           (after (interview_submit
                     (after (interview_submit loop_interview_0
                               (answer_input_payload "" "ab")))
                     (answer_input_payload "" "x")))
           (answer_input_payload "" "y")).

(** twelve text functions [f0] ... [f11] without parameters *)
Definition twelve_functions : list function :=
  map (fun code => {| f_parameters := []; f_code := code |})
    ["f0"; "f1"; "f2"; "f3"; "f4"; "f5"; "f6"; "f7"; "f8"; "f9"; "f10"; "f11"].

Definition twelve_body : question_body :=
  {| qb_text_functions := twelve_functions; qb_style := ""; qb_variant := b_message |}.

(** the stack of a respondent who chose the second option of [q1] *)
Definition chose_second : the_stack :=
  replace_answer empty_stack
    {| a_id := 1;
       a_localization :=
         loc_question {| qloc_question := 0;
                         qloc_body := {| qlb_text := "Pick one";
                                         qlb_variant := l_select "" [option_a; option_b] |} |};
       a_ip_address := ""; a_elapsed := 0%Z; a_total_elapsed := 0%Z;
       a_body := ab_select {| ch_option_localization := option_b; ch_index := 1;
                              ch_comment := "" |} "" |}.

(** the loop of [loop_source], followed by a question [q4] whose first
    transition has for parameters [q2], a question inside the loop,
    [q4] itself and [q5], a later question *)
Definition wandering_source : source_questionnaire :=
  {| sqq_name := "wandering"; sqq_title := "Wandering"; sqq_language := 0;
     sqq_questions :=
       [ sample_input "q0" "Letters?";
         Some {| sq_label := "q1"; sq_transitions := [];
                 sq_variant := sq_begin_loop "q0" "x" "R=q0.input" |};
         sample_input "q2" "About @{x}?";
         Some {| sq_label := "q3"; sq_transitions := []; sq_variant := sq_end_loop |};
         Some {| sq_label := "q4";
                 sq_transitions :=
                   [ sample_transition "q5==null" "" "q5" ["q2"; "q4"; "q5"];
                     sample_transition "" "" "q5" [] ];
                 sq_variant := sq_input "" (plain_text "More?") "" false |};
         sample_message "q5" "Bye" ] |}.






(** ** More of the ontology ([include/interviews/ontology.hpp],
    [src/server/ontology.cpp]) *)

(** *** Questionnaires: lookup by label, rank, orphans *)

(** [questionnaire::find_question] *)
Definition find_question (qq : questionnaire) (label : string) : option qref :=
  fst <$> list_find (fun q => String.eqb (q_label q) label) (qq_questions qq).

(** the [for] loop of [questionnaire::get_question_rank] *)
Fixpoint question_rank_from (l : list question) (label : string) (rank : nat) : nat :=
  match l with
  | [] => rank
  | qq :: l' =>
      if String.eqb (q_label qq) label then rank
      else question_rank_from l' label (S rank)
  end.

(** [questionnaire::get_question_rank] *)
Definition get_question_rank (qq : questionnaire) (q : question) : nat :=
  question_rank_from (qq_questions qq) (q_label q) 1.

(** what [questionnaire::check_orphans] does: it returns, or throws
    [question_is_orphan] with the label of a question *)
Inductive orphans :=
| no_orphan
| question_is_orphan (label : string).

(** the destinations the two [while (ti != te)] loops insert in the set *)
Definition insert_destinations (questions_set : gset qref) (q : question) : gset qref :=
  foldl (fun s t => {[ t_destination t ]} ∪ s) questions_set (q_transitions q).

(** the [do] loop of [check_orphans], on the questions from position [i] *)
Fixpoint check_orphans_from (questions_set : gset qref) (i : qref) (l : list question)
  : orphans :=
  match l with
  | [] => no_orphan
  | q :: l' =>
      if bool_decide (i ∈ questions_set) then
        check_orphans_from (insert_destinations questions_set q) (S i) l'
      else question_is_orphan (q_label q)
  end.

(** [questionnaire::check_orphans] *)
Definition check_orphans (qq : questionnaire) : orphans :=
  match qq_questions qq with
  | [] | [_] => no_orphan
  | first :: rest => check_orphans_from (insert_destinations ∅ first) 1 rest
  end.

(** [questionnaire::lock] *)
Definition lock (qq : questionnaire) : questionnaire :=
  {| qq_name := qq_name qq;
     qq_questions := qq_questions qq;
     qq_locked := true;
     qq_change_count := qq_change_count qq |}.

(** [questionnaire::check] *)
Definition questionnaire_check (qq : questionnaire) : orphans :=
  if qq_locked qq then no_orphan else check_orphans qq.

(** *** Interviews: finding answers in the history *)

Definition entry_is_regular (e : entry) : bool :=
  bool_decide (entry_loop_type e = regular).

(** the [do] loop of [interview::find_answer_at_most]: the index goes
    down until it is 0 or designates a regular entry *)
Fixpoint find_answer_at_most_from (h : list entry) (index : nat) : result nat :=
  match index with
  | O => Ok 0
  | S n =>
      (* the iterator is inside the history *)
      let* e := or_throw (h !! index) internal_error in
      if entry_is_regular e then Ok index else find_answer_at_most_from h n
  end.

(** [interview::find_answer_at_most]: the position found, which is also
    the value the index is left with *)
Definition find_answer_at_most (h : list entry) (index : nat) : result nat :=
  let* _ := throw_if (length h <=? index)%nat answer_index_does_not_exist in
  find_answer_at_most_from h index.

(** the [do] loop of [interview::find_answer_at_least], on the entries
    from position [index] *)
Fixpoint find_answer_at_least_from (rest : list entry) (index : nat) : result nat :=
  match rest with
  | [] => Err answer_index_does_not_exist          (* [index == hsz] *)
  | e :: rest' =>
      if entry_is_regular e then Ok index
      else find_answer_at_least_from rest' (S index)
  end.

(** [interview::find_answer_at_least] *)
Definition find_answer_at_least (h : list entry) (index : nat) : result nat :=
  let* _ := throw_if (length h <=? index)%nat answer_index_does_not_exist in
  find_answer_at_least_from (drop index h) index.

(** the [while] of [interview::last_answer], from [crbegin()] *)
Fixpoint last_answer_from (backwards : list entry) : option answer :=
  match backwards with
  | [] => None
  | entry_answer a :: _ => Some a
  | _ :: rest => last_answer_from rest
  end.

(** [interview::last_answer] *)
Definition last_answer (it : interview) : option answer :=
  last_answer_from (reverse (i_history it)).

(** [answer::get_timestamp] *)
Definition get_timestamp (a : answer) (interview_start_timestamp : time_t) : time_t :=
  (interview_start_timestamp + a_total_elapsed a)%Z.

(** [interview::calculate_elapsed_times], at the time [now] the clock
    gives; the history of an interview starts with an answer, which the
    assertion on [last_answer] relies on *)
Definition calculate_elapsed_times (it : interview) (now : time_t)
  : result (time_t * time_t) :=
  let total_elapsed := (now - i_start_timestamp it)%Z in
  match i_history it with
  | [] => Ok (total_elapsed, total_elapsed)
  | _ =>
      let* a := or_throw (last_answer it) internal_error in
      Ok ((now - get_timestamp a (i_start_timestamp it))%Z, total_elapsed)
  end.

(** *** Starting an interview, answering on the clock *)

Section Services.

Context `{E : Expr}.

(** [template_question_localization::find] and
    [questionnaire_localization::find], lookups in the store *)
Variable find_template_localization :
  template_question -> language_t -> option template_question_localization.
Variable find_questionnaire_localization :
  questionnaire -> language_t -> option questionnaire_localization.

(** [interview::start], at the time [now]; the identities of the
    interviewee and of the interviewer, the address and the
    geolocation are stored and not read again *)
Definition start (it : interview) (language : language_t) (now : time_t)
  : result interview :=
  let* qql := or_throw (find_questionnaire_localization (i_questionnaire it) language)
                questionnaire_localization_does_not_exist in
  let* qql' := check find_template_localization (i_questionnaire it) qql in
  let* _ := throw_if (negb (bool_decide (i_state it = initiated)))
              interview_is_already_started in
  (* [get_first_question]: [*questions_cbegin()] *)
  let* _ := or_throw (i_questions it !! 0) end_iterator_dereferenced in
  Ok (set_next_question
        {| i_questionnaire := i_questionnaire it;
           i_start_timestamp := now;
           i_language := language;
           i_questionnaire_localization := Some qql';
           i_history := i_history it;
           i_state := ongoing;
           i_next_question := i_next_question it |}
        0).

(** the [answer] service (services.cpp) with its clock: the times of
    the answer are those [calculate_elapsed_times] gives at [now] *)
Definition answer_service
    (fuel : nat) (it : interview) (payload : option answer_payload)
    (ip_address : string) (now : time_t)
  : result (interview * localized_question) :=
  let* p := or_throw payload answer_is_missing in
  let* _ := throw_if (bool_decide (i_state it = initiated)) interview_is_not_started in
  let* _ := throw_if (bool_decide (i_state it = completed))
              interview_is_already_completed in
  let* locs := next_question_localization find_template_localization
                 (i_questions it) it in
  let* (elapsed, total_elapsed) := calculate_elapsed_times it now in
  let* a := make_answer (i_questions it) (fresh_answer_id (i_history it)) locs
              ip_address elapsed total_elapsed p in
  move_ahead find_template_localization (i_questions it) (i_language it)
    (i_start_timestamp it) fuel (add_answer it a).

End Services.

(** ** More vocabulary for the properties *)

(** the character occurs in the text *)
Fixpoint mentions (c : ascii) (text : string) : bool :=
  match text with
  | EmptyString => false
  | String c' rest => Ascii.eqb c' c || mentions c rest
  end.

(** the answers of a history, oldest first *)
Fixpoint answers_of (h : list entry) : list answer :=
  match h with
  | [] => []
  | entry_answer a :: h' => a :: answers_of h'
  | _ :: h' => answers_of h'
  end.

(** the last answer a list of answers holds for a question *)
Definition last_answer_to (q : qref) (l : list answer) : option answer :=
  last (filter (fun a => a_question a = q) l).

(** the validation and the rendering read the text in step, except
    while the rendering reads the name of a loop variable *)
Definition scanners_in_step (v : scan_state) (r : render_scan) : Prop :=
  match r with
  | r_text => v = in_text
  | r_prefix => v = after_prefix
  | r_open => v = after_open
  | r_number funcn _ => v = in_number funcn
  | r_variable _ => True
  end.

(** the question at position [i] is the destination of a transition of
    a question placed before it *)
Definition is_targeted (qs : list question) (i : qref) : Prop :=
  exists j q t,
    j < i /\ qs !! j = Some q /\ t ∈ q_transitions q /\ t_destination t = i.

(** the positions the transitions lead to from the first question *)
Inductive reachable (qs : list question) : qref -> Prop :=
| reachable_first : reachable qs 0
| reachable_next j q t :
    reachable qs j -> qs !! j = Some q -> t ∈ q_transitions q ->
    reachable qs (t_destination t).

(** the question at position [k] of [l] is in the set, or is the
    destination of a transition of a question of [l] before it *)
Definition covered (s : gset qref) (i : qref) (l : list question) (k : nat) : Prop :=
  i + k ∈ s \/
  exists j q t, j < k /\ l !! j = Some q /\ t ∈ q_transitions q /\ t_destination t = i + k.

(** every question without a localization of its own is one that takes
    none, and if it comes from a template the library has a
    localization of the template in the language *)
Definition localization_is_complete
    (store : template_question -> language_t -> option template_question_localization)
    (quest : questionnaire) (qql : questionnaire_localization) : Prop :=
  forall i q,
    qq_questions quest !! i = Some q ->
    i ∉ map qloc_question (qql_questions_localizations qql) ->
    supports_localization q = false /\
    forall tq, q_variant q = q_from_template tq -> store tq (qql_language qql) <> None.

(** the two questions have the same label and are of the same kind:
    they differ at most by their transitions and their text functions *)
Definition same_kind (q q' : question) : Prop :=
  q_label q' = q_label q /\
  match q_variant q, q_variant q' with
  | q_with_body b, q_with_body b' =>
      qb_style b' = qb_style b /\ qb_variant b' = qb_variant b
  | v, v' => v' = v
  end.

(** the number of loops open after the questions [l], from [d] open
    loops; none if an end loop finds no loop to close *)
Fixpoint loops_open (l : list question) (d : nat) : option nat :=
  match l with
  | [] => Some d
  | q :: l' =>
      match get_loop_type q with
      | begin_loop => loops_open l' (S d)
      | end_loop => match d with O => None | S d' => loops_open l' d' end
      | regular => loops_open l' d
      end
  end.

(** the positions, from [i], of the questions that take a localization
    of their own *)
Fixpoint localized_positions (l : list question) (i : nat) : list qref :=
  match l with
  | [] => []
  | q :: l' =>
      if supports_localization q then i :: localized_positions l' (S i)
      else localized_positions l' (S i)
  end.

(** the operand of the begin loop at position [i] is an earlier
    question that takes an answer, its variable is a valid label and
    its operand is not empty *)
Definition begin_loop_is_sound (qs : list question) (i : qref) (q : question) : Prop :=
  forall oq variable operand,
    q_variant q = q_begin_loop oq variable operand ->
    oq < i /\
    (exists x, qs !! oq = Some x /\ supports_answer x = true) /\
    validate_label variable = true /\
    string_empty operand = false.

(** what the first pass of the compiler keeps true, beyond
    [first_pass_invariant], once it has read the source questions
    [read] *)
Definition first_pass_shape
    (read : list (option source_question)) (s : first_pass_state) : Prop :=
  Forall2 (fun osq q => exists sq, osq = Some sq /\ q_label q = sq_label sq)
    read (qq_questions (fp_qq s)) /\
  Forall (fun q => validate_label (q_label q) = true) (qq_questions (fp_qq s)) /\
  loops_open (qq_questions (fp_qq s)) 0 = Some (length (fp_ln s)) /\
  (forall label info,
      fp_m s !! label = Some info -> qi_index info < length (qq_questions (fp_qq s))) /\
  (forall i q, qq_questions (fp_qq s) !! i = Some q ->
               begin_loop_is_sound (qq_questions (fp_qq s)) i q) /\
  map qloc_question (qql_questions_localizations (fp_ql s))
    = localized_positions (qq_questions (fp_qq s)) 0.

(** what the second pass of the compiler makes of a question [q] of the
    first pass: a question [q'] of the same kind, with transitions
    unless it can be final *)
Definition second_pass_result (q q' : question) : Prop :=
  same_kind q q' /\ (q_transitions q' = [] -> can_be_final q = true).

(** the interview [it'] is the interview [it] with loop entries added
    at the end of its history, and nothing else changed *)
Definition advanced (it it' : interview) : Prop :=
  i_questionnaire it' = i_questionnaire it /\
  i_start_timestamp it' = i_start_timestamp it /\
  i_language it' = i_language it /\
  i_questionnaire_localization it' = i_questionnaire_localization it /\
  i_state it' = i_state it /\
  i_next_question it' = i_next_question it /\
  exists suffix,
    i_history it' = i_history it ++ suffix /\
    Forall (fun e => entry_is_regular e = false) suffix.

(** the question at position [q] takes a localization of its own: it
    is a question with a body, not a loop nor a question from a
    template *)
Definition can_be_asked (qs : list question) (q : qref) : Prop :=
  exists x, qs !! q = Some x /\ supports_localization x = true.

(** a step of the interpreter that returns only adds loop entries to
    the interview, and returns a question that can be asked *)
Definition advances (qs : list question)
    (f : interview -> the_stack -> qref -> result (qref * interview * the_stack)) : Prop :=
  forall it ts q q' it' ts',
    f it ts q = Ok (q', it', ts') -> advanced it it' /\ can_be_asked qs q'.

(** the time the answers of a history took, one after the other *)
Definition elapsed_sum (h : list entry) : Z :=
  foldr (fun a s => (a_elapsed a + s)%Z) 0%Z (answers_of h).

(** the time from the start of the interview to its last answer *)
Definition total_elapsed_at_end (h : list entry) : Z :=
  match last (answers_of h) with
  | Some a => a_total_elapsed a
  | None => 0%Z
  end.

(** what the first pass keeps true of the texts, once it has read the
    source questions [read]: a question with a body comes from an
    inline source question and has no text function yet, and each
    localization holds the text of the source question of its question *)
Definition first_pass_texts
    (read : list (option source_question)) (s : first_pass_state) : Prop :=
  (forall i q b,
      qq_questions (fp_qq s) !! i = Some q -> q_variant q = q_with_body b ->
      qb_text_functions b = [] /\
      exists sq, read !! i = Some (Some sq) /\ sq_is_inline sq = true) /\
  (forall ql,
      ql ∈ qql_questions_localizations (fp_ql s) ->
      exists sq, read !! qloc_question ql = Some (Some sq) /\
                 qlb_text (qloc_body ql) = text_value (sq_text sq)).

(** every transition of the question but the last has a condition *)
Definition catch_all_only_last (q : question) : Prop :=
  forall pre t, q_transitions q = pre ++ [t] -> Forall (fun t' => is_catch_all t' = false) pre.

(** the conditions of the transitions of the question read answers to
    questions among the first [n] *)
Definition transitions_read_within (n : nat) (q : question) : Prop :=
  forall t c p,
    t ∈ q_transitions q -> t_condition t = Some c -> p ∈ f_parameters c -> p < n.

(** the text functions of the question read answers to questions
    placed before position [i] *)
Definition text_functions_read_before (i : nat) (q : question) : Prop :=
  forall b f p,
    q_variant q = q_with_body b -> f ∈ qb_text_functions b -> p ∈ f_parameters f -> p < i.

(** ** Samples *)

(** an interview that was created and is not started yet *)
Definition new_interview (qq : questionnaire) : interview :=
  {| i_questionnaire := qq; i_start_timestamp := 0%Z; i_language := 0;
     i_questionnaire_localization := None; i_history := [];
     i_state := initiated; i_next_question := None |}.

(** a store that holds, for every questionnaire and language, the
    localization a source compiles to *)
Definition compiled_store (src : source_questionnaire)
  : questionnaire -> language_t -> option questionnaire_localization :=
  fun _ _ => Some (compiled_localization src).

(** the map [dump] builds from the localization of [loop_source] *)
Definition loop_localizations : gmap qref question_localization :=
  match dump_localizations ∅
          (qql_questions_localizations (compiled_localization loop_source)) with
  | Ok m => m
  | Err _ => ∅
  end.

(** * Properties *)

(** ** Reasoning about throwing code *)

Lemma rbind_ok {A B} (r : result A) (k : A -> result B) (b : B) :
  rbind r k = Ok b -> exists a, r = Ok a /\ k a = Ok b.
Proof. destruct r as [a|e]; simpl; [eauto | discriminate]. Qed.

Lemma throw_if_ok (c : bool) (e : exn) (u : unit) :
  throw_if c e = Ok u -> c = false.
Proof. destruct c; simpl; [discriminate | reflexivity]. Qed.

Lemma or_throw_ok {A} (p : option A) (e : exn) (a : A) :
  or_throw p e = Ok a -> p = Some a.
Proof. destruct p; simpl; congruence. Qed.

(** splits a hypothesis [let* x := c in k = Ok b] *)
Ltac bind_inv H :=
  let x := fresh "x" in
  let Hx := fresh "Hx" in
  apply rbind_ok in H; destruct H as (x & Hx & H).

Ltac throw_inv H :=
  let u := fresh "u" in
  let Hu := fresh "Hu" in
  apply rbind_ok in H; destruct H as (u & Hu & H); apply throw_if_ok in Hu.

Lemma rfold_invariant {A S} (f : S -> A -> result S) (I : S -> Prop) :
  (forall s x s', I s -> f s x = Ok s' -> I s') ->
  forall l s s', I s -> rfold f s l = Ok s' -> I s'.
Proof.
  intros Hstep l. induction l as [|x l IH]; simpl; intros s s' Hs H.
  - injection H as <-. exact Hs.
  - bind_inv H. eauto.
Qed.

Section CompilerFacts.
Variable js_compile : string -> bool.
Variable template_library : gmap string template_question.

Lemma compile_transition_forward m qs q qqi pushed is_last ot t :
  compile_transition js_compile m qs q qqi pushed is_last ot = Ok t ->
  forward (length qs) (qi_index qqi) t.
Proof.
  unfold compile_transition. intros H.
  bind_inv H. throw_inv H.
  destruct (m !! st_destination x) as [dqi|] eqn:Hd; [|discriminate].
  throw_inv H. throw_inv H. bind_inv H. bind_inv H. bind_inv H. bind_inv H.
  throw_inv H. injection H as <-. simpl.
  apply or_throw_ok in Hx0. apply lookup_lt_Some in Hx0.
  apply Nat.eqb_neq in Hu0. apply Nat.ltb_ge in Hu1.
  unfold forward. simpl. lia.
Qed.

Lemma compile_transitions_loop_forward m qs q qqi ts :
  forall pushed out,
  Forall (forward (length qs) (qi_index qqi)) pushed ->
  compile_transitions_loop js_compile m qs q qqi pushed ts = Ok out ->
  Forall (forward (length qs) (qi_index qqi)) out.
Proof.
  induction ts as [|ot ts IH]; simpl; intros pushed out Hp H.
  - injection H as <-. exact Hp.
  - bind_inv H. apply (IH _ _ (proj2 (Forall_app _ _ _) (conj Hp (Forall_cons_2 _ _ _ (compile_transition_forward _ _ _ _ _ _ _ _ Hx) (Forall_nil_2 _)))) H).
Qed.

Lemma compile_transitions_forward m qqi qi qs q sq out :
  qi_index qqi = qi ->
  compile_transitions js_compile m qqi qi qs q sq = Ok out ->
  Forall (forward (length qs) qi) out.
Proof.
  intros <-. unfold compile_transitions.
  destruct (sq_transitions sq) as [|ot ts] eqn:Hts.
  - destruct (can_be_final q).
    + intros H. injection H as <-. constructor.
    + intros H. throw_inv H.
      destruct (qs !! S (qi_index qqi)) eqn:Hn; [|discriminate].
      injection H as <-. apply lookup_lt_Some in Hn.
      repeat constructor; simpl; lia.
  - intros H. bind_inv H. throw_inv H.
    eapply compile_transitions_loop_forward; [|exact H]. constructor.
Qed.

(** the second pass leaves labels and variants alone *)
Lemma second_step_label m qqi qi qs q sq q' :
  source_question_compile_second js_compile m qqi qi qs q sq = Ok q' ->
  q_label q' = q_label q.
Proof.
  unfold source_question_compile_second. intros H. bind_inv H.
  destruct (sq_is_inline sq).
  - bind_inv H. bind_inv H. injection H as <-.
    unfold set_text_functions, set_transitions; simpl.
    destruct (q_variant q); reflexivity.
  - injection H as <-. reflexivity.
Qed.

Lemma second_step_transitions m qqi qi qs q sq q' :
  qi_index qqi = qi ->
  q_transitions q = [] ->
  source_question_compile_second js_compile m qqi qi qs q sq = Ok q' ->
  Forall (forward (length qs) qi) (q_transitions q').
Proof.
  unfold source_question_compile_second. intros Hi Hq H. bind_inv H.
  apply (compile_transitions_forward _ _ _ _ _ _ _ Hi) in Hx.
  destruct (sq_is_inline sq).
  - bind_inv H. bind_inv H. injection H as <-.
    unfold set_text_functions, set_transitions; simpl.
    rewrite Hq. destruct (q_variant q); simpl; exact Hx.
  - injection H as <-. simpl. rewrite Hq. exact Hx.
Qed.

Lemma second_pass_forward m n sqs :
  forall qi qs out,
  second_pass_invariant m n qi qs ->
  second_pass js_compile m qs qi sqs = Ok out ->
  length out = n /\
  forall i q, out !! i = Some q -> Forall (forward n i) (q_transitions q).
Proof.
  induction sqs as [|osq sqs IH]; simpl; intros qi qs out [Hlen Hinv] H.
  - injection H as <-. split; [exact Hlen|].
    intros i q Hq. destruct (Hinv i q Hq) as (_ & Hlt & Hge).
    destruct (decide (i < qi)) as [Hi|Hi]; [auto|].
    rewrite Hge by lia. constructor.
  - bind_inv H. bind_inv H. bind_inv H. bind_inv H.
    apply or_throw_ok in Hx0, Hx1.
    destruct (Hinv qi x0 Hx0) as ((info & Hm & Hidx) & _ & Hnil).
    assert (x1 = info) by congruence. subst x1.
    apply (IH _ _ _) in H; [exact H|].
    split; [rewrite length_insert; exact Hlen|].
    intros i q Hq.
    destruct (decide (i = qi)) as [->|Hne].
    + rewrite list_lookup_insert_eq in Hq by (apply lookup_lt_Some in Hx0; exact Hx0).
      injection Hq as <-.
      split; [|split].
      * rewrite (second_step_label _ _ _ _ _ _ _ Hx2). eauto.
      * intros _. rewrite <- Hlen.
        apply (second_step_transitions _ _ _ _ _ _ _ Hidx (Hnil (Nat.le_refl _)) Hx2).
      * lia.
    + rewrite list_lookup_insert_ne in Hq by congruence.
      destruct (Hinv i q Hq) as (Hm' & Hlt & Hge).
      split; [exact Hm'|split].
      * intros Hi. apply Hlt. lia.
      * intros Hi. apply Hge. lia.
Qed.

Lemma make_question_transitions label v q :
  make_question label v = Ok q -> q_transitions q = [] /\ q_label q = label.
Proof.
  unfold make_question. intros H. throw_inv H. injection H as <-. auto.
Qed.

Lemma compile_first_no_transitions qs m sq q o :
  source_question_compile_first template_library qs m sq = Ok (q, o) ->
  q_transitions q = [].
Proof.
  unfold source_question_compile_first.
  destruct (sq_variant sq); intros H;
    repeat (match type of H with
            | rbind (throw_if _ _) _ = Ok _ => throw_inv H
            | rbind _ _ = Ok _ => bind_inv H
            | (let (_, _) := ?p in _) = Ok _ => destruct p
            end);
    try (injection H as <- <-);
    try reflexivity;
    match goal with
    | Hq : make_question _ _ = Ok _ |- _ =>
        apply make_question_transitions in Hq; tauto
    end.
Qed.

Lemma first_pass_step_invariant s osq s' :
  first_pass_invariant s ->
  first_pass_step template_library s osq = Ok s' ->
  first_pass_invariant s'.
Proof.
  intros [Hqn Hinv] H. unfold first_pass_step in H.
  bind_inv H. bind_inv H. destruct x0 as [q oqlb].
  throw_inv H. bind_inv H. destruct x0 as [m ln].
  injection H as <-. simpl.
  apply bool_decide_eq_false in Hu.
  assert (Hfresh : fp_m s !! q_label q = None).
  { destruct (fp_m s !! q_label q) eqn:E; [|reflexivity].
    exfalso. apply Hu. eauto. }
  assert (Hm : exists ln' mbl, m = <[q_label q := make_info (fp_qn s) ln' mbl]> (fp_m s)).
  { destruct (fp_ln s) as [|b l].
    - bind_inv Hx1. injection Hx1 as <- <-. eauto.
    - destruct (bool_decide (get_loop_type q = end_loop)).
      + injection Hx1 as <- <-. eauto.
      + bind_inv Hx1. injection Hx1 as <- <-. eauto. }
  destruct Hm as (ln' & mbl & ->).
  split.
  - simpl. rewrite length_app. simpl. lia.
  - simpl. intros i q0 Hq0.
    apply lookup_app_Some in Hq0 as [Hq0|[Hge Hq0]].
    + destruct (Hinv i q0 Hq0) as ((info & Hi & Hidx) & Ht).
      split; [|exact Ht].
      exists info. split; [|exact Hidx].
      rewrite lookup_insert_ne; [exact Hi|]. congruence.
    + apply list_lookup_singleton_Some in Hq0 as [Hi ->].
      split.
      * eexists. rewrite lookup_insert_eq. split; [reflexivity|]. simpl. lia.
      * eapply compile_first_no_transitions; eauto.
Qed.

Lemma first_pass_establishes src s :
  first_pass template_library src = Ok s -> first_pass_invariant s.
Proof.
  unfold first_pass.
  apply (rfold_invariant _ first_pass_invariant first_pass_step_invariant).
  split; [reflexivity|]. intros i q Hq. simpl in Hq.
  rewrite lookup_nil in Hq. discriminate.
Qed.

Lemma compile_forward src qq ql :
  compile js_compile template_library src = Ok (qq, ql) ->
  forall i q t,
    qq_questions qq !! i = Some q ->
    t ∈ q_transitions q ->
    i < t_destination t < length (qq_questions qq).
Proof.
  unfold compile. intros H i q t Hq Ht.
  throw_inv H. throw_inv H. bind_inv H. throw_inv H. bind_inv H. bind_inv H.
  bind_inv H. injection H as <- <-. simpl in *.
  destruct (first_pass_establishes _ _ Hx) as [Hqn Hinv].
  destruct (second_pass_forward (fp_m x) (length (qq_questions (fp_qq x)))
              (sqq_questions src) 0 (qq_questions (fp_qq x)) x2) as [Hlen Hall].
  - split; [reflexivity|]. intros j qj Hj.
    destruct (Hinv j qj Hj) as (Hm & Hnil).
    split; [exact Hm|split]; [lia|auto].
  - eassumption.
  - specialize (Hall i q Hq). rewrite Forall_forall in Hall.
    rewrite Hlen. apply (Hall t Ht).
Qed.
End CompilerFacts.

Section TransitionFacts.
Context `{E : Expr}.
Variable qs : list question.
Variable start_timestamp : time_t.

Lemma transition_run_taken ts t d :
  transition_run qs start_timestamp ts t = Ok (Some d) <->
  d = t_destination t /\ (is_catch_all t = true \/ condition_holds qs start_timestamp ts t).
Proof.
  unfold transition_run, is_catch_all, condition_holds.
  destruct (t_condition t) as [c|] eqn:Hc.
  - destruct (function_empty c) eqn:He.
    + split.
      * intros H. injection H as <-. auto.
      * intros [-> _]. reflexivity.
    + destruct (run_condition (f_code c) (arguments qs ts c) start_timestamp) as [v|] eqn:Hr;
        simpl.
      * destruct (json_is_true v) eqn:Hv; split.
        -- intros H. injection H as <-. split; [reflexivity|].
           right. exists c, v. auto.
        -- intros [-> _]. reflexivity.
        -- discriminate.
        -- intros [_ [H|(c' & v' & Hc' & _ & Hr' & Hv')]]; [discriminate|].
           injection Hc' as <-. congruence.
      * split; [discriminate|].
        intros [_ [H|(c' & v' & Hc' & _ & Hr' & _)]]; [discriminate|].
        injection Hc' as <-. congruence.
  - split.
    + intros H. injection H as <-. auto.
    + intros [-> _]. reflexivity.
Qed.

Lemma run_transitions_loop_first ts l d :
  run_transitions_loop qs start_timestamp ts l = Ok d <->
  exists pre t post,
    l = pre ++ t :: post /\
    Forall (fun t' => transition_run qs start_timestamp ts t' = Ok None) pre /\
    transition_run qs start_timestamp ts t = Ok (Some d).
Proof.
  induction l as [|t l IH]; simpl.
  - split; [discriminate|].
    intros (pre & t & post & H & _). destruct pre; discriminate.
  - split.
    + intros H. bind_inv H. destruct x as [q|].
      * injection H as <-. exists [], t, l.
        split; [reflexivity|]. split; [constructor|exact Hx].
      * apply IH in H as (pre & t' & post & -> & Hpre & Ht').
        exists (t :: pre), t', post.
        split; [reflexivity|]. split; [constructor; assumption|exact Ht'].
    + intros (pre & t' & post & Hl & Hpre & Ht').
      destruct pre as [|p pre]; simpl in Hl; injection Hl as Hh Hl; subst.
      * rewrite Ht'. reflexivity.
      * apply Forall_cons_1 in Hpre as [Hp Hpre]. rewrite Hp. simpl.
        apply IH. exists pre, t', post.
        split; [reflexivity|]. split; assumption.
Qed.

Lemma transition_run_error ts t e :
  transition_run qs start_timestamp ts t = Err e -> e = expression_error.
Proof.
  unfold transition_run. destruct (t_condition t) as [c|]; [|discriminate].
  destruct (function_empty c); [discriminate|].
  destruct (run_condition _ _ _); simpl.
  - destruct (json_is_true _); discriminate.
  - congruence.
Qed.

Lemma run_transitions_loop_no_fall_through ts pre t :
  is_catch_all t = true ->
  run_transitions_loop qs start_timestamp ts (pre ++ [t]) <> Err internal_error.
Proof.
  intros Hc. induction pre as [|p pre IH]; simpl.
  - assert (Ht : transition_run qs start_timestamp ts t = Ok (Some (t_destination t))).
    { apply transition_run_taken. auto. }
    rewrite Ht. simpl. discriminate.
  - destruct (transition_run qs start_timestamp ts p) as [[q|]|e] eqn:Hp; simpl.
    + discriminate.
    + exact IH.
    + apply transition_run_error in Hp. subst e. discriminate.
Qed.
Lemma transition_run_skipped ts t :
  transition_run qs start_timestamp ts t = Ok None <->
  condition_fails qs start_timestamp ts t.
Proof.
  unfold transition_run, condition_fails.
  destruct (t_condition t) as [c|] eqn:Hc.
  - destruct (function_empty c) eqn:He.
    + split; [discriminate|].
      intros (c' & v & Hc' & He' & _). injection Hc' as <-. congruence.
    + destruct (run_condition (f_code c) (arguments qs ts c) start_timestamp) as [v|] eqn:Hr;
        simpl.
      * destruct (json_is_true v) eqn:Hv; split.
        -- discriminate.
        -- intros (c' & v' & Hc' & _ & Hr' & Hv'). injection Hc' as <-. congruence.
        -- intros _. exists c, v. auto.
        -- reflexivity.
      * split; [discriminate|].
        intros (c' & v' & Hc' & _ & Hr' & _). injection Hc' as <-. congruence.
  - split; [discriminate|].
    intros (c' & v & Hc' & _). discriminate.
Qed.

Lemma transition_run_broken ts t e :
  transition_run qs start_timestamp ts t = Err e <->
  e = expression_error /\ condition_breaks qs start_timestamp ts t.
Proof.
  unfold transition_run, condition_breaks.
  destruct (t_condition t) as [c|] eqn:Hc.
  - destruct (function_empty c) eqn:He.
    + split; [discriminate|].
      intros (_ & c' & Hc' & He' & _). injection Hc' as <-. congruence.
    + destruct (run_condition (f_code c) (arguments qs ts c) start_timestamp) as [v|] eqn:Hr;
        simpl.
      * split.
        -- destruct (json_is_true v); discriminate.
        -- intros (_ & c' & Hc' & _ & Hr'). injection Hc' as <-. congruence.
      * split.
        -- intros H. injection H as <-. split; [reflexivity|]. exists c. auto.
        -- intros [-> _]. reflexivity.
  - split; [discriminate|].
    intros (_ & c' & Hc' & _). discriminate.
Qed.

Lemma run_transitions_loop_falls_through ts l :
  run_transitions_loop qs start_timestamp ts l = Err internal_error <->
  Forall (condition_fails qs start_timestamp ts) l.
Proof.
  induction l as [|t l IH]; simpl.
  - split; [constructor | reflexivity].
  - destruct (transition_run qs start_timestamp ts t) as [[d|]|e] eqn:Ht; simpl.
    + split; [discriminate|].
      intros H. apply Forall_cons_1 in H as [H _].
      apply transition_run_skipped in H. congruence.
    + rewrite IH. apply transition_run_skipped in Ht. split.
      * intros H. constructor; assumption.
      * intros H. apply Forall_cons_1 in H as [_ H]. exact H.
    + split.
      * intros H. apply transition_run_error in Ht. congruence.
      * intros H. apply Forall_cons_1 in H as [H _].
        apply transition_run_skipped in H. congruence.
Qed.

Lemma run_transitions_loop_breaks ts l :
  run_transitions_loop qs start_timestamp ts l = Err expression_error <->
  exists pre t post,
    l = pre ++ t :: post /\
    Forall (condition_fails qs start_timestamp ts) pre /\
    condition_breaks qs start_timestamp ts t.
Proof.
  induction l as [|t l IH]; simpl.
  - split; [discriminate|].
    intros (pre & t & post & H & _). destruct pre; discriminate.
  - destruct (transition_run qs start_timestamp ts t) as [[d|]|e] eqn:Ht; simpl.
    + split; [discriminate|].
      intros (pre & t' & post & Hl & Hpre & Hb).
      destruct pre as [|p pre]; simpl in Hl; injection Hl as Hh Hl; subst.
      * assert (Hx : transition_run qs start_timestamp ts t' = Err expression_error)
          by (apply transition_run_broken; auto).
        congruence.
      * apply Forall_cons_1 in Hpre as [Hp _].
        apply transition_run_skipped in Hp. congruence.
    + rewrite IH. apply transition_run_skipped in Ht. split.
      * intros (pre & t' & post & -> & Hpre & Hb).
        exists (t :: pre), t', post.
        split; [reflexivity|]. split; [constructor; assumption | exact Hb].
      * intros (pre & t' & post & Hl & Hpre & Hb).
        destruct pre as [|p pre]; simpl in Hl; injection Hl as Hh Hl; subst.
        -- assert (Hx : transition_run qs start_timestamp ts t' = Err expression_error)
             by (apply transition_run_broken; auto).
           apply transition_run_skipped in Ht. congruence.
        -- apply Forall_cons_1 in Hpre as [_ Hpre].
           exists pre, t', post. auto.
    + apply transition_run_broken in Ht as [-> Hb]. split.
      * intros _. exists [], t, l. split; [reflexivity|]. split; [constructor | exact Hb].
      * reflexivity.
Qed.

Lemma run_transitions_loop_errors ts l e :
  run_transitions_loop qs start_timestamp ts l = Err e ->
  e = internal_error \/ e = expression_error.
Proof.
  induction l as [|t l IH]; simpl.
  - intros H. injection H as <-. auto.
  - destruct (transition_run qs start_timestamp ts t) as [[d|]|e'] eqn:Ht; simpl.
    + discriminate.
    + exact IH.
    + intros H. injection H as <-. apply transition_run_error in Ht. auto.
Qed.
End TransitionFacts.

Lemma check_counting_same store quest qql :
  qql_questionnaire_change_count qql = qq_change_count quest ->
  check_counting store quest qql = (Ok qql, 0).
Proof.
  intros H. unfold check_counting. rewrite H, Z.eqb_refl. reflexivity.
Qed.

Lemma check_records_count store quest qql qql' :
  check store quest qql = Ok qql' ->
  qql_questionnaire_change_count qql' = qq_change_count quest.
Proof.
  unfold check, check_counting.
  destruct (Z.eqb_spec (qql_questionnaire_change_count qql) (qq_change_count quest)) as [Heq|Hne];
    simpl.
  - intros H. injection H as <-. exact Heq.
  - intros H. bind_inv H. injection H as <-. reflexivity.
Qed.

(** ** Function parameters *)

Lemma rmap_Forall2 {A B} (f : A -> result B) (P : A -> B -> Prop) :
  (forall a b, f a = Ok b -> P a b) ->
  forall l l', rmap f l = Ok l' -> Forall2 P l l'.
Proof.
  intros Hf l. induction l as [|a l IH]; simpl; intros l' H.
  - injection H as <-. constructor.
  - bind_inv H. bind_inv H. injection H as <-. constructor; auto.
Qed.

Lemma rmap_Forall {A B} (f : A -> result B) (P : A -> Prop) :
  (forall a b, f a = Ok b -> P a) ->
  forall l l', rmap f l = Ok l' -> Forall P l.
Proof.
  intros Hf l. induction l as [|a l IH]; simpl; intros l' H.
  - constructor.
  - bind_inv H. bind_inv H. constructor; eauto.
Qed.

Lemma compile_function_parameter_accepts m qi par p :
  compile_function_parameter m qi par = Ok p -> earlier_in_same_nest m qi par.
Proof.
  unfold compile_function_parameter, earlier_in_same_nest.
  destruct (m !! par) as [pqi|]; [|discriminate]. intros H.
  throw_inv H. throw_inv H. throw_inv H.
  apply Nat.eqb_neq in Hu. apply Nat.ltb_ge in Hu0.
  apply negb_false_iff, bool_decide_eq_true in Hu1.
  exists pqi. repeat split; [lia | congruence].
Qed.

Lemma compile_transition_parameters m js qs q qqi pushed is_last st t :
  compile_transition js m qs q qqi pushed is_last (Some st) = Ok t ->
  exists c, t_condition t = Some c /\
            Forall2 (names_question m) (st_parameters st) (f_parameters c).
Proof.
  unfold compile_transition. simpl. intros H. throw_inv H.
  destruct (m !! st_destination st) as [dqi|]; [|discriminate].
  throw_inv H. throw_inv H. bind_inv H. bind_inv H. bind_inv H. bind_inv H.
  throw_inv H. injection H as <-. simpl.
  eexists. split; [reflexivity|]. simpl.
  eapply rmap_Forall2; [|eassumption].
  intros par p. unfold compile_transition_parameter, names_question.
  destruct (m !! par) as [pqi|]; [|discriminate].
  intros Hp. injection Hp as <-. eauto.
Qed.

Lemma compile_transition_parameter_known m par pqi :
  m !! par = Some pqi -> compile_transition_parameter m par = Ok (qi_index pqi).
Proof. unfold compile_transition_parameter. intros ->. reflexivity. Qed.

Lemma compile_transition_parameter_unknown m par :
  m !! par = None ->
  compile_transition_parameter m par = Err source_question_argument_does_not_exist.
Proof. unfold compile_transition_parameter. intros ->. reflexivity. Qed.

Lemma compile_transition_parameters_known m ps :
  Forall (fun par => is_Some (m !! par)) ps ->
  exists ps',
    rmap (compile_transition_parameter m) ps = Ok ps' /\
    Forall2 (names_question m) ps ps'.
Proof.
  induction 1 as [|par ps [pqi Hpar] _ (ps' & Hps' & Hn)]; simpl.
  - exists []. split; [reflexivity | constructor].
  - rewrite (compile_transition_parameter_known m par pqi Hpar). simpl.
    rewrite Hps'. simpl. eexists. split; [reflexivity|].
    constructor; [|exact Hn]. exists pqi. auto.
Qed.

Lemma compile_transition_parameters_unknown m ps :
  Exists (fun par => m !! par = None) ps ->
  rmap (compile_transition_parameter m) ps = Err source_question_argument_does_not_exist.
Proof.
  induction ps as [|par ps IH]; intros H.
  - inversion H.
  - simpl. destruct (m !! par) as [pqi|] eqn:Hpar.
    + rewrite (compile_transition_parameter_known m par pqi Hpar). simpl.
      rewrite IH; [reflexivity|].
      apply Exists_cons in H as [H|H]; [congruence | exact H].
    + rewrite (compile_transition_parameter_unknown m par Hpar). reflexivity.
Qed.

Lemma check_conditions_last js pushed c c' d :
  f_code c = f_code c' ->
  check_conditions js (pushed ++ [{| t_condition := Some c; t_destination := d |}])
  = check_conditions js (pushed ++ [{| t_condition := Some c'; t_destination := d |}]).
Proof.
  intros Hc. unfold check_conditions. rewrite !forallb_app. simpl. rewrite Hc. reflexivity.
Qed.

(** the source transition [st] with the parameters [ps] for its own *)
Lemma compile_transition_other_parameters js m qs q qqi pushed is_last st t ps :
  compile_transition js m qs q qqi pushed is_last (Some st) = Ok t ->
  (Forall (fun par => is_Some (m !! par)) ps ->
   exists c ps',
     t_condition t = Some c /\
     Forall2 (names_question m) ps ps' /\
     compile_transition js m qs q qqi pushed is_last
       (Some {| st_parameters := ps; st_condition := st_condition st;
                st_code := st_code st; st_destination := st_destination st |})
     = Ok {| t_condition := Some {| f_parameters := ps'; f_code := f_code c |};
             t_destination := t_destination t |}) /\
  (Exists (fun par => m !! par = None) ps ->
   compile_transition js m qs q qqi pushed is_last
     (Some {| st_parameters := ps; st_condition := st_condition st;
              st_code := st_code st; st_destination := st_destination st |})
   = Err source_question_argument_does_not_exist).
Proof.
  unfold compile_transition. simpl. intros H.
  apply rbind_ok in H as ([] & Hcatch & H). rewrite Hcatch. simpl.
  destruct (m !! st_destination st) as [dqi|]; [|discriminate].
  apply rbind_ok in H as ([] & Hself & H). rewrite Hself. simpl.
  apply rbind_ok in H as ([] & Hprev & H). rewrite Hprev. simpl.
  apply rbind_ok in H as (dq & Hdq & H). rewrite Hdq. simpl.
  apply rbind_ok in H as ([] & Hloop & H). rewrite Hloop. simpl.
  apply rbind_ok in H as (ocode & Hcode & H).
  assert (Hcode' : transition_code
                     {| st_parameters := ps; st_condition := st_condition st;
                        st_code := st_code st; st_destination := st_destination st |}
                   = Ok ocode) by exact Hcode.
  rewrite Hcode'. simpl.
  apply rbind_ok in H as (ps0 & Hps0 & H).
  apply rbind_ok in H as ([] & Hcheck & H). injection H as <-. simpl.
  split.
  - intros Hknown.
    destruct (compile_transition_parameters_known m ps Hknown) as (ps' & Hps' & Hn).
    exists {| f_parameters := ps0; f_code := ocode |}, ps'.
    split; [reflexivity|]. split; [exact Hn|].
    rewrite Hps'. simpl.
    rewrite (check_conditions_last js pushed
               {| f_parameters := ps'; f_code := ocode |}
               {| f_parameters := ps0; f_code := ocode |} (qi_index dqi) eq_refl).
    rewrite Hcheck. reflexivity.
  - intros Hmissing.
    rewrite (compile_transition_parameters_unknown m ps Hmissing). reflexivity.
Qed.

(** C3 (as amended). A parameter of a text function is accepted only
    when it names a question recorded strictly before the question that
    carries the function and in the same loop nest; a name that is
    unknown, the question itself, a later question, or an earlier
    question of another loop nest is refused with the exception of its
    case. A parameter of a transition condition is only required to name
    a question of the questionnaire: a name that is unknown is refused,
    and any name that is known is compiled to the position of the
    question it names, wherever that question is; a transition that
    compiles still compiles, with the same code and destination, when
    its parameters are replaced by any names of questions, and is
    refused as soon as one of them is unknown. *)
Theorem function_parameters_checked
    (js : string -> bool) (m : gmap string question_info) (qi : question_info) :
  (forall sf f,
      source_function_compile m qi sf = Ok f ->
      Forall (earlier_in_same_nest m qi) (sf_parameters sf)) /\
  (forall par,
      m !! par = None ->
      compile_function_parameter m qi par = Err function_parameter_does_not_exist) /\
  (forall par pqi,
      m !! par = Some pqi -> qi_index pqi = qi_index qi ->
      compile_function_parameter m qi par = Err function_parameter_refers_to_self) /\
  (forall par pqi,
      m !! par = Some pqi -> qi_index qi < qi_index pqi ->
      compile_function_parameter m qi par =
        Err function_parameter_refers_to_subsequent_question) /\
  (forall par pqi,
      m !! par = Some pqi -> qi_index pqi < qi_index qi ->
      qi_loop_nest pqi <> qi_loop_nest qi ->
      compile_function_parameter m qi par =
        Err function_parameter_refers_to_question_with_different_loop_nest) /\
  (forall par pqi,
      m !! par = Some pqi -> qi_index pqi < qi_index qi ->
      qi_loop_nest pqi = qi_loop_nest qi ->
      compile_function_parameter m qi par = Ok (qi_index pqi)) /\
  (forall qs q pushed is_last st t,
      compile_transition js m qs q qi pushed is_last (Some st) = Ok t ->
      exists c, t_condition t = Some c /\
                Forall2 (names_question m) (st_parameters st) (f_parameters c)) /\
  (forall par,
      m !! par = None ->
      compile_transition_parameter m par = Err source_question_argument_does_not_exist) /\
  (forall par pqi,
      m !! par = Some pqi ->
      compile_transition_parameter m par = Ok (qi_index pqi)) /\
  (forall qs q pushed is_last st t ps,
      compile_transition js m qs q qi pushed is_last (Some st) = Ok t ->
      Forall (fun par => is_Some (m !! par)) ps ->
      exists c ps',
        t_condition t = Some c /\
        Forall2 (names_question m) ps ps' /\
        compile_transition js m qs q qi pushed is_last
          (Some {| st_parameters := ps; st_condition := st_condition st;
                   st_code := st_code st; st_destination := st_destination st |})
        = Ok {| t_condition := Some {| f_parameters := ps'; f_code := f_code c |};
                t_destination := t_destination t |}) /\
  (forall qs q pushed is_last st t ps,
      compile_transition js m qs q qi pushed is_last (Some st) = Ok t ->
      Exists (fun par => m !! par = None) ps ->
      compile_transition js m qs q qi pushed is_last
        (Some {| st_parameters := ps; st_condition := st_condition st;
                 st_code := st_code st; st_destination := st_destination st |})
      = Err source_question_argument_does_not_exist).
Proof.
  split; [|split; [|split; [|split; [|split; [|split; [|split; [|split;
    [|split; [|split]]]]]]]]].
  - intros sf f H. unfold source_function_compile in H.
    throw_inv H. bind_inv H.
    eapply rmap_Forall; [|eassumption].
    intros par p. apply compile_function_parameter_accepts.
  - intros par H. unfold compile_function_parameter. rewrite H. reflexivity.
  - intros par pqi H Hi. unfold compile_function_parameter. rewrite H, Hi.
    rewrite Nat.eqb_refl. reflexivity.
  - intros par pqi H Hi. unfold compile_function_parameter. rewrite H.
    rewrite (proj2 (Nat.eqb_neq _ _)) by lia.
    rewrite (proj2 (Nat.ltb_lt _ _)) by lia. reflexivity.
  - intros par pqi H Hi Hn. unfold compile_function_parameter. rewrite H.
    rewrite (proj2 (Nat.eqb_neq _ _)) by lia.
    rewrite (proj2 (Nat.ltb_ge _ _)) by lia. simpl.
    rewrite bool_decide_eq_false_2 by congruence. reflexivity.
  - intros par pqi H Hi Hn. unfold compile_function_parameter. rewrite H.
    rewrite (proj2 (Nat.eqb_neq _ _)) by lia.
    rewrite (proj2 (Nat.ltb_ge _ _)) by lia. simpl.
    rewrite bool_decide_eq_true_2 by congruence. reflexivity.
  - intros qs q pushed is_last st t. apply compile_transition_parameters.
  - intros par. apply compile_transition_parameter_unknown.
  - intros par pqi. apply compile_transition_parameter_known.
  - intros qs q pushed is_last st t ps H.
    apply (proj1 (compile_transition_other_parameters js m qs q qi pushed is_last st t ps H)).
  - intros qs q pushed is_last st t ps H.
    apply (proj2 (compile_transition_other_parameters js m qs q qi pushed is_last st t ps H)).
Qed.

(** ** Destinations of transitions *)

Lemma compile_transition_destination js m qs q qqi pushed is_last st t :
  compile_transition js m qs q qqi pushed is_last (Some st) = Ok t ->
  exists dqi, m !! st_destination st = Some dqi /\
              t_destination t = qi_index dqi /\
              qi_index qqi < qi_index dqi.
Proof.
  unfold compile_transition. simpl. intros H. throw_inv H.
  destruct (m !! st_destination st) as [dqi|]; [|discriminate].
  throw_inv H. throw_inv H. bind_inv H. bind_inv H. bind_inv H. bind_inv H.
  throw_inv H. injection H as <-. simpl.
  apply Nat.eqb_neq in Hu0. apply Nat.ltb_ge in Hu1.
  exists dqi. repeat split; lia.
Qed.

(** C5. In a compiled questionnaire every transition leads to a
    question that exists and comes strictly later in question order. A
    source transition is compiled only when its destination label is
    known and recorded strictly after the source; once it has passed the
    test on the place of the catch-all, an unknown label, the label of
    the source itself and the label of an earlier question are refused
    with the exception of their case. *)
Theorem compiled_transitions_go_forward
    (js : string -> bool) (library : gmap string template_question) :
  (forall src qq ql,
      compile js library src = Ok (qq, ql) ->
      forall i q t,
        qq_questions qq !! i = Some q ->
        t ∈ q_transitions q ->
        i < t_destination t < length (qq_questions qq)) /\
  (forall m qs q qqi pushed is_last st t,
      compile_transition js m qs q qqi pushed is_last (Some st) = Ok t ->
      exists dqi, m !! st_destination st = Some dqi /\
                  t_destination t = qi_index dqi /\
                  qi_index qqi < qi_index dqi) /\
  (forall m qs q qqi pushed is_last st,
      negb is_last && string_empty (st_condition st) && string_empty (st_code st) = false ->
      (m !! st_destination st = None ->
       compile_transition js m qs q qqi pushed is_last (Some st) =
         Err source_question_transition_does_not_exist) /\
      (forall dqi,
          m !! st_destination st = Some dqi -> qi_index dqi = qi_index qqi ->
          compile_transition js m qs q qqi pushed is_last (Some st) =
            Err source_question_transitions_to_itself) /\
      (forall dqi,
          m !! st_destination st = Some dqi -> qi_index dqi < qi_index qqi ->
          compile_transition js m qs q qqi pushed is_last (Some st) =
            Err source_question_transitions_to_previous_question)).
Proof.
  split; [|split].
  - intros src qq ql H. apply (compile_forward js library src qq ql H).
  - intros m qs q qqi pushed is_last st t. apply compile_transition_destination.
  - intros m qs q qqi pushed is_last st Hc. unfold compile_transition. simpl.
    rewrite Hc. simpl. repeat split.
    + intros ->. reflexivity.
    + intros dqi -> Hi. rewrite Hi, Nat.eqb_refl. reflexivity.
    + intros dqi -> Hi.
      rewrite (proj2 (Nat.eqb_neq _ _)) by lia. simpl.
      rewrite (proj2 (Nat.ltb_lt _ _)) by lia. reflexivity.
Qed.

(** ** Running transitions *)

(** C6. Running the transitions of a question returns the destination
    of the first transition, in list order, whose condition is empty or
    evaluates truthy: every transition before it has a condition that
    the host evaluated and found not truthy, and was passed over. The
    run falls through to the internal error that follows the loop
    exactly when every transition of the question has a condition that
    evaluates and is not truthy, so never when the last transition is a
    catch-all; its only other failure is that of the host on the first
    condition that neither holds nor fails. *)
Theorem run_transitions_first_match `{E : Expr}
    (qs : list question) (start_timestamp : time_t) (ts : the_stack) (q : question) :
  (forall d,
      question_run_transitions qs start_timestamp ts q = Ok d <->
      exists pre t post,
        q_transitions q = pre ++ t :: post /\
        Forall (condition_fails qs start_timestamp ts) pre /\
        d = t_destination t /\
        (is_catch_all t = true \/ condition_holds qs start_timestamp ts t)) /\
  (question_run_transitions qs start_timestamp ts q = Err internal_error <->
   Forall (condition_fails qs start_timestamp ts) (q_transitions q)) /\
  (forall pre t,
      q_transitions q = pre ++ [t] ->
      is_catch_all t = true ->
      question_run_transitions qs start_timestamp ts q <> Err internal_error) /\
  (forall e,
      question_run_transitions qs start_timestamp ts q = Err e ->
      e <> internal_error ->
      e = expression_error /\
      exists pre t post,
        q_transitions q = pre ++ t :: post /\
        Forall (condition_fails qs start_timestamp ts) pre /\
        condition_breaks qs start_timestamp ts t).
Proof.
  split; [|split; [|split]].
  - intros d. unfold question_run_transitions.
    rewrite run_transitions_loop_first. split.
    + intros (pre & t & post & Hl & Hpre & Ht).
      apply transition_run_taken in Ht. exists pre, t, post.
      split; [exact Hl|]. split; [|tauto].
      eapply Forall_impl; [exact Hpre|].
      intros t' Ht'. apply transition_run_skipped. exact Ht'.
    + intros (pre & t & post & Hl & Hpre & Hd & Ht).
      exists pre, t, post. split; [exact Hl|]. split.
      * eapply Forall_impl; [exact Hpre|].
        intros t' Ht'. apply transition_run_skipped. exact Ht'.
      * apply transition_run_taken. tauto.
  - unfold question_run_transitions. apply run_transitions_loop_falls_through.
  - intros pre t Hl Hc. unfold question_run_transitions. rewrite Hl.
    apply run_transitions_loop_no_fall_through. exact Hc.
  - intros e H Hne. unfold question_run_transitions in *.
    destruct (run_transitions_loop_errors _ _ _ _ _ H) as [->| ->]; [contradiction|].
    split; [reflexivity|]. apply run_transitions_loop_breaks. exact H.
Qed.

(** ** The lazy check of a localization *)

(** C8. When the change count a localization has stored is the
    questionnaire's, [check] returns the localization as it is without
    running [force_check]; after a successful [check], a second [check]
    against the same questionnaire runs no validation and succeeds,
    whatever the template library holds by then. *)
Theorem check_is_lazy
    (store store' : template_question -> language_t -> option template_question_localization)
    (quest : questionnaire) (qql : questionnaire_localization) :
  (qql_questionnaire_change_count qql = qq_change_count quest ->
   check_counting store quest qql = (Ok qql, 0)) /\
  (forall qql',
      check store quest qql = Ok qql' ->
      check_counting store' quest qql' = (Ok qql', 0)).
Proof.
  split.
  - apply check_counting_same.
  - intros qql' H. apply check_counting_same.
    apply (check_records_count store quest qql qql' H).
Qed.

(** ** The theorems at work on the samples *)

Lemma function_parameters_checked_witness :
  Forall (earlier_in_same_nest nested_infos (make_info 4 [] None)) ["q0"; "q1"] /\
  compile_function_parameter nested_infos (make_info 4 [] None) "q9"
    = Err function_parameter_does_not_exist /\
  compile_function_parameter nested_infos (make_info 4 [] None) "q4"
    = Err function_parameter_refers_to_self /\
  compile_function_parameter nested_infos (make_info 1 [] None) "q4"
    = Err function_parameter_refers_to_subsequent_question /\
  compile_function_parameter nested_infos (make_info 4 [] None) "q2"
    = Err function_parameter_refers_to_question_with_different_loop_nest /\
  compile_function_parameter nested_infos (make_info 4 [] None) "q0" = Ok 0 /\
  (exists c,
    Some {| f_parameters := [0]; f_code := "q1.choice.index==0" |} = Some c /\
    Forall2 (names_question branch_infos) ["q1"] (f_parameters c)) /\
  compile_transition_parameter nested_infos "q9"
    = Err source_question_argument_does_not_exist /\
  compile_transition_parameter nested_infos "q2" = Ok 2 /\
  (exists c ps',
    Some {| f_parameters := [0]; f_code := "q1.choice.index==0" |} = Some c /\
    Forall2 (names_question branch_infos) ["q3"; "q1"; "q2"] ps' /\
    compile_transition accept_all branch_infos (qq_questions (compiled branch_source))
      {| q_label := "q1"; q_transitions := [];
         q_variant := q_with_body (make_body "" (b_select false false [])) |}
      (make_info 0 [] None) [] false
      (Some {| st_parameters := ["q3"; "q1"; "q2"]; st_condition := "q1.choice.index==0";
               st_code := ""; st_destination := "q3" |})
    = Ok {| t_condition := Some {| f_parameters := ps'; f_code := f_code c |};
            t_destination := 2 |}) /\
  compile_transition accept_all branch_infos (qq_questions (compiled branch_source))
    {| q_label := "q1"; q_transitions := [];
       q_variant := q_with_body (make_body "" (b_select false false [])) |}
    (make_info 0 [] None) [] false
    (Some {| st_parameters := ["q1"; "q9"]; st_condition := "q1.choice.index==0";
             st_code := ""; st_destination := "q3" |})
  = Err source_question_argument_does_not_exist.
Proof.
  destruct (function_parameters_checked accept_all nested_infos (make_info 4 [] None))
    as (H1 & H2 & H3 & _ & H5 & H6 & _ & H8 & H9 & _).
  destruct (function_parameters_checked accept_all nested_infos (make_info 1 [] None))
    as (_ & _ & _ & H4 & _).
  destruct (function_parameters_checked accept_all branch_infos (make_info 0 [] None))
    as (_ & _ & _ & _ & _ & _ & H7 & _ & _ & H10 & H11).
  pose (q1 := {| q_label := "q1"; q_transitions := [];
                 q_variant := q_with_body (make_body "" (b_select false false [])) |}).
  pose (st := {| st_parameters := ["q1"]; st_condition := "q1.choice.index==0";
                 st_code := ""; st_destination := "q3" |}).
  pose (t := {| t_condition := Some {| f_parameters := [0];
                                       f_code := "q1.choice.index==0" |};
                t_destination := 2 |}).
  assert (Hst : compile_transition accept_all branch_infos
                  (qq_questions (compiled branch_source)) q1 (make_info 0 [] None)
                  [] false (Some st) = Ok t) by (vm_compute; reflexivity).
  split; [|split; [|split; [|split; [|split; [|split; [|split; [|split; [|split;
    [|split]]]]]]]]].
  - apply (H1 {| sf_parameters := ["q0"; "q1"]; sf_code := "q0.input" |}
              {| f_parameters := [0; 1]; f_code := "q0.input" |}).
    vm_compute. reflexivity.
  - apply H2. vm_compute. reflexivity.
  - apply (H3 "q4" (make_info 4 [] None)); vm_compute; reflexivity.
  - apply (H4 "q4" (make_info 4 [] None)); [vm_compute; reflexivity | simpl; lia].
  - apply (H5 "q2" (make_info 2 [1] None));
      [vm_compute; reflexivity | simpl; lia | simpl; discriminate].
  - apply (H6 "q0" (make_info 0 [] None));
      [vm_compute; reflexivity | simpl; lia | reflexivity].
  - apply (H7 (qq_questions (compiled branch_source)) q1 [] false st t Hst).
  - apply H8. vm_compute. reflexivity.
  - apply (H9 "q2" (make_info 2 [1] None)). vm_compute. reflexivity.
  - apply (H10 (qq_questions (compiled branch_source)) q1 [] false st t
             ["q3"; "q1"; "q2"] Hst).
    repeat (apply List.Forall_cons; [eexists; vm_compute; reflexivity|]).
    apply List.Forall_nil.
  - apply (H11 (qq_questions (compiled branch_source)) q1 [] false st t
             ["q1"; "q9"] Hst).
    apply Exists_cons_tl, Exists_cons_hd. vm_compute. reflexivity.
Defined.

Lemma compiled_transitions_go_forward_witness :
  (0 < 2 < length (qq_questions (compiled branch_source))) /\
  (exists dqi, branch_infos !! "q3" = Some dqi /\ 2 = qi_index dqi /\ 0 < qi_index dqi) /\
  compile_transition accept_all branch_infos (qq_questions (compiled branch_source))
    {| q_label := "q1"; q_transitions := [];
       q_variant := q_with_body (make_body "" b_message) |}
    (make_info 1 [] None) [] true
    (Some {| st_parameters := []; st_condition := ""; st_code := "";
             st_destination := "q9" |})
    = Err source_question_transition_does_not_exist /\
  compile_transition accept_all branch_infos (qq_questions (compiled branch_source))
    {| q_label := "q1"; q_transitions := [];
       q_variant := q_with_body (make_body "" b_message) |}
    (make_info 1 [] None) [] true
    (Some {| st_parameters := []; st_condition := ""; st_code := "";
             st_destination := "q2" |})
    = Err source_question_transitions_to_itself /\
  compile_transition accept_all branch_infos (qq_questions (compiled branch_source))
    {| q_label := "q1"; q_transitions := [];
       q_variant := q_with_body (make_body "" b_message) |}
    (make_info 1 [] None) [] true
    (Some {| st_parameters := []; st_condition := ""; st_code := "";
             st_destination := "q1" |})
    = Err source_question_transitions_to_previous_question.
Proof.
  destruct (compiled_transitions_go_forward accept_all ∅) as (HA & HB & HC).
  split; [|split].
  - eapply (HA branch_source (compiled branch_source) (compiled_localization branch_source)
              ltac:(vm_compute; reflexivity) 0 _
              {| t_condition := Some {| f_parameters := [0];
                                        f_code := "q1.choice.index==0" |};
                 t_destination := 2 |}).
    + vm_compute. reflexivity.
    + apply list_elem_of_here.
  - apply (HB branch_infos (qq_questions (compiled branch_source))
              {| q_label := "q1"; q_transitions := [];
                 q_variant := q_with_body (make_body "" (b_select false false [])) |}
              (make_info 0 [] None) [] false
              {| st_parameters := ["q1"]; st_condition := "q1.choice.index==0";
                 st_code := ""; st_destination := "q3" |}
              {| t_condition := Some {| f_parameters := [0];
                                        f_code := "q1.choice.index==0" |};
                 t_destination := 2 |}).
    vm_compute. reflexivity.
  - pose (qs := qq_questions (compiled branch_source)).
    pose (q := {| q_label := "q1"; q_transitions := [];
                  q_variant := q_with_body (make_body "" b_message) |}).
    split; [|split].
    + apply (proj1 (HC branch_infos qs q (make_info 1 [] None) [] true
                      {| st_parameters := []; st_condition := ""; st_code := "";
                         st_destination := "q9" |} eq_refl)).
      vm_compute. reflexivity.
    + apply (proj1 (proj2 (HC branch_infos qs q (make_info 1 [] None) [] true
                             {| st_parameters := []; st_condition := ""; st_code := "";
                                st_destination := "q2" |} eq_refl))
               (make_info 1 [] None));
        [vm_compute; reflexivity | reflexivity].
    + apply (proj2 (proj2 (HC branch_infos qs q (make_info 1 [] None) [] true
                             {| st_parameters := []; st_condition := ""; st_code := "";
                                st_destination := "q1" |} eq_refl))
               (make_info 0 [] None));
        [vm_compute; reflexivity | simpl; lia].
Defined.

Lemma run_transitions_first_match_witness :
  (exists q,
     qq_questions (compiled branch_source) !! 0 = Some q /\
     question_run_transitions (qq_questions (compiled branch_source)) 0%Z chose_first q
       = Ok 2 /\
     question_run_transitions (qq_questions (compiled branch_source)) 0%Z chose_second q
       = Ok 1 /\
     question_run_transitions (qq_questions (compiled branch_source)) 0%Z empty_stack q
       <> Err internal_error).
Proof.
  eexists. split; [vm_compute; reflexivity|].
  match goal with
  | |- question_run_transitions ?qs ?s _ ?q = _ /\ _ =>
      pose proof (run_transitions_first_match qs s chose_first q) as [H1 _];
      pose proof (run_transitions_first_match qs s chose_second q) as [H2 _];
      pose proof (run_transitions_first_match qs s empty_stack q) as (_ & _ & H3 & _)
  end.
  split; [|split].
  - apply (proj2 (H1 2)).
    eexists [], _, _. split; [reflexivity|]. split; [constructor|].
    split; [reflexivity|]. right.
    eexists _, (j_bool true). split; [reflexivity|].
    split; [reflexivity|]. split; [vm_compute; reflexivity | reflexivity].
  - apply (proj2 (H2 1)).
    eexists [_], _, []. split; [reflexivity|]. split.
    + constructor; [|constructor].
      eexists _, (j_bool false). split; [reflexivity|].
      split; [reflexivity|]. split; [vm_compute; reflexivity | reflexivity].
    + split; [reflexivity|]. left. reflexivity.
  - eapply (H3 [_]); reflexivity.
Defined.

Lemma check_is_lazy_witness :
  check_counting no_template_localization (compiled branch_source)
    (set_questionnaire_change_count (compiled_localization branch_source) 4)
  = (Ok (set_questionnaire_change_count (compiled_localization branch_source) 4), 0).
Proof.
  destruct (check_is_lazy no_template_localization no_template_localization
              (compiled branch_source)
              (set_questionnaire_change_count (compiled_localization branch_source) 4))
    as [H1 _].
  destruct (check_is_lazy no_template_localization no_template_localization
              (compiled branch_source) (compiled_localization branch_source))
    as [_ H2].
  assert (Hfirst : check_counting no_template_localization (compiled branch_source)
                     (set_questionnaire_change_count
                        (compiled_localization branch_source) 4)
                   = (Ok (set_questionnaire_change_count
                            (compiled_localization branch_source) 4), 0)).
  { apply H1. vm_compute. reflexivity. }
  assert (Hsecond : check_counting no_template_localization (compiled branch_source)
                      (set_questionnaire_change_count
                         (compiled_localization branch_source) 4)
                    = (Ok (set_questionnaire_change_count
                             (compiled_localization branch_source) 4), 0)).
  { apply H2. vm_compute. reflexivity. }
  exact Hsecond.
Defined.

(** ** Where the program departs from the specification *)


(** C3, as stated, fails for transition conditions: the condition of
    the first transition of [q1] in [branch_source] has [q1] itself for
    parameter, and the questionnaire compiles. So does
    [wandering_source], where the parameters of the first transition of
    [q4] are [q2], an earlier question of another loop nest, [q4]
    itself and [q5], a later question. *)
Lemma transition_parameter_refers_to_self :
  (exists qq ql q t c,
    compile accept_all ∅ branch_source = Ok (qq, ql) /\
    qq_questions qq !! 0 = Some q /\
    q_transitions q !! 0 = Some t /\
    t_condition t = Some c /\
    f_parameters c = [0]) /\
  (exists qq ql lq q t c i2 i4,
    compile accept_all ∅ wandering_source = Ok (qq, ql) /\
    qq_questions qq !! 4 = Some q /\
    q_transitions q !! 0 = Some t /\
    t_condition t = Some c /\
    f_parameters c = [2; 4; 5] /\
    dump_leveled qq = Ok lq /\
    lq !! 2 = Some i2 /\ lq !! 4 = Some i4 /\
    qi_loop_nest i2 <> qi_loop_nest i4).
Proof.
  split.
  - eexists _, _, _, _, _.
    split; [vm_compute; reflexivity|].
    split; [vm_compute; reflexivity|].
    split; [vm_compute; reflexivity|].
    split; reflexivity.
  - eexists _, _, _, _, _, _, _, _.
    split; [vm_compute; reflexivity|].
    split; [vm_compute; reflexivity|].
    split; [vm_compute; reflexivity|].
    split; [reflexivity|].
    split; [reflexivity|].
    split; [vm_compute; reflexivity|].
    split; [vm_compute; reflexivity|].
    split; [vm_compute; reflexivity|].
    simpl. discriminate.
Qed.

(** C4: the test on the last transition only reads [_condition]. The
    last transition of [q1] in [code_last_source] has an empty condition
    and the code [false]; the questionnaire compiles, the last
    transition of the compiled question is no catch-all, and running the
    transitions of the question falls through to the internal error. *)
Theorem last_transition_with_code_compiles :
  exists qq ql q t,
    compile accept_all ∅ code_last_source = Ok (qq, ql) /\
    qq_questions qq !! 0 = Some q /\
    length (q_transitions q) = 2 /\
    last (q_transitions q) = Some t /\
    is_catch_all t = false /\
    can_be_final q && (length (q_transitions q) =? 0)%nat = false /\
    question_run_transitions (qq_questions qq) 0%Z empty_stack q = Err internal_error.
Proof.
  eexists _, _, _, _.
  split; [vm_compute; reflexivity|].
  split; [vm_compute; reflexivity|].
  repeat split; vm_compute; reflexivity.
Qed.

(** C9: the number between the braces is accumulated with [+=]. On a
    body of twelve text functions the text [@{10}] calls the function at
    index 11 and inserts its value; with eleven functions, where index
    10 is valid, the rendering fails with function-call-out-of-bounds,
    and so does the validation of the text when the questionnaire is
    compiled. *)
Theorem two_digit_call_reads_wrong_index :
  (exists rs,
     calculate_text_state (qq_questions (compiled loop_source)) 0 twelve_body
       empty_stack "@{10}" = Ok rs /\
     rs_calls rs = [11] /\ rs_out rs = "f11") /\
  calculate_text_state (qq_questions (compiled loop_source)) 0
    {| qb_text_functions := take 11 twelve_functions; qb_style := "";
       qb_variant := b_message |}
    empty_stack "@{10}" = Err function_call_out_of_bounds /\
  validate_parametric_text "@{10}" 11 = Err function_call_out_of_bounds /\
  (exists rs,
     calculate_text_state (qq_questions (compiled loop_source)) 0 twelve_body
       empty_stack "@{9}" = Ok rs /\
     rs_calls rs = [9] /\ rs_out rs = "f9").
Proof.
  split; [|split; [|split]].
  - eexists. split; [vm_compute; reflexivity|]. split; reflexivity.
  - vm_compute. reflexivity.
  - vm_compute. reflexivity.
  - eexists. split; [vm_compute; reflexivity|]. split; reflexivity.
Qed.

(** C7: a respondent answered [ab] to [q0] of [loop_source] and went
    twice through the loop. Revising the first answer with the same text
    leaves the next question where it was but drops the second turn of
    the loop from the history: after the end-loop entry of the first
    turn the revision runs the transitions of the end loop, not those of
    the begin loop, finds a question other than the one next in the
    history, and resects. This holds whichever way [graft] treats the
    identity of the grafted answer. *)
Theorem revise_with_same_answer_resects_loop (keeps_identity : bool) :
  map entry_question (i_history loop_interview_3) = [0; 1; 2; 3; 2; 3] /\
  i_state loop_interview_3 = ongoing /\
  i_next_question loop_interview_3 = Some 4 /\
  (exists a, i_history loop_interview_3 !! 0 = Some (entry_answer a) /\
             a_body a = ab_input "ab" "") /\
  exists it lq,
    interview_revise keeps_identity loop_interview_3 0 (answer_input_payload "" "ab")
      = Ok (it, lq) /\
    map entry_question (i_history it) = [0; 1; 2; 3] /\
    i_next_question it = Some 4.
Proof.
  split; [vm_compute; reflexivity|].
  split; [vm_compute; reflexivity|].
  split; [vm_compute; reflexivity|].
  split.
  - eexists. split; [vm_compute; reflexivity|]. reflexivity.
  - destruct keeps_identity.
    + eexists _, _. split; [vm_compute; reflexivity|]. split; vm_compute; reflexivity.
    + eexists _, _. split; [vm_compute; reflexivity|]. split; vm_compute; reflexivity.
Qed.

(** ** Reaching a begin loop *)

Section BeginLoopFacts.
Context `{E : Expr}.
Variable qs : list question.
Variable lang : language_t.
Variable start_timestamp : time_t.

Lemma stack_process_begin_loop_skipped ts qbl :
  loop_is_skipped qs lang ts qbl ->
  stack_process_begin_loop qs lang ts qbl = Ok (ts, None).
Proof.
  intros (oq & Hoq & [Hnone | (loa & q & v & Hloa & Hq & Hv & Hnull)]);
    unfold stack_process_begin_loop; rewrite Hoq; simpl.
  - rewrite Hnone. reflexivity.
  - rewrite Hloa, Hq. simpl. rewrite Hv. simpl. rewrite Hnull. reflexivity.
Qed.

Lemma stack_process_begin_loop_entered ts qbl loa :
  loop_is_entered qs lang ts qbl loa ->
  stack_process_begin_loop qs lang ts qbl =
    (let* ts' := stack_push_begin_loop qs lang ts qbl loa in Ok (ts', Some loa)).
Proof.
  intros (oq & q & v & Hoq & Hloa & Hq & Hv & Hnull).
  unfold stack_process_begin_loop. rewrite Hoq. simpl.
  rewrite Hloa, Hq. simpl. rewrite Hv. simpl. rewrite Hnull. reflexivity.
Qed.

Lemma stack_push_begin_loop_fresh ts qbl loa ts1 :
  no_frame_on_top ts qbl ->
  stack_push_begin_loop qs lang ts qbl loa = Ok ts1 ->
  exists f,
    ts_vector ts1 = ts_vector ts ++ [f] /\
    sf_question_begin_loop f = qbl /\ sf_loop_operand_answer f = loa /\
    sf_index f = 0 /\ stack_get_index ts1 = 0.
Proof.
  unfold no_frame_on_top, stack_push_begin_loop.
  assert (Hmake : forall f, make_frame qs lang ts qbl loa = Ok f ->
              sf_question_begin_loop f = qbl /\ sf_loop_operand_answer f = loa /\
              sf_index f = 0).
  { unfold make_frame. intros f H. bind_inv H. bind_inv H. injection H as <-. auto. }
  assert (Hpush : forall f, make_frame qs lang ts qbl loa = Ok f ->
              exists f', ts_vector (push_frame ts f) = ts_vector ts ++ [f'] /\
                sf_question_begin_loop f' = qbl /\ sf_loop_operand_answer f' = loa /\
                sf_index f' = 0 /\ stack_get_index (push_frame ts f) = 0).
  { intros f Hf. destruct (Hmake f Hf) as (H1 & H2 & H3).
    exists f. unfold stack_get_index, push_frame. simpl.
    rewrite last_snoc. auto. }
  destruct (last (ts_vector ts)) as [tsf|].
  - intros Hne. rewrite (proj2 (Nat.eqb_neq _ _) Hne). simpl.
    intros H. bind_inv H. injection H as <-. auto.
  - intros _ H. bind_inv H. injection H as <-. auto.
Qed.
End BeginLoopFacts.

(** C1 (as amended). When the interpreter reaches a begin loop whose
    operand answer is absent from the stack, or whose first loop-variable
    value is null, it pushes no entry on the history and no frame on the
    stack: it finds the matching end loop, runs that end loop's
    transitions and continues from the question they give. Otherwise it
    pushes a frame on the stack unless the innermost frame already is one
    of this loop, pushes a begin-loop entry that records the index of the
    innermost frame, and runs the transitions of the begin loop; a frame
    that is pushed has index 0, which is then the index recorded. *)
Theorem process_begin_loop_step `{E : Expr}
    (qs : list question) (lang : language_t) (start_timestamp : time_t)
    (n : nat) (it : interview) (ts : the_stack) (qbl : qref) :
  (loop_is_skipped qs lang ts qbl ->
   process_begin_loop qs lang start_timestamp (S n) it ts qbl =
     (let* oqel := find_matching_end_loop qs qbl in
      match oqel with
      | Some qel =>
          let* q := run_transitions qs start_timestamp ts qel in
          let* lt := loop_type_of qs q in
          match lt with
          | regular => calculate_new_next_question_from qs lang start_timestamp n it ts q
          | begin_loop => process_begin_loop qs lang start_timestamp n it ts q
          | end_loop => process_end_loop qs lang start_timestamp n it ts q
          end
      | None => Err internal_error
      end)) /\
  (forall loa,
      loop_is_entered qs lang ts qbl loa ->
      process_begin_loop qs lang start_timestamp (S n) it ts qbl =
        (let* ts1 := stack_push_begin_loop qs lang ts qbl loa in
         let it1 := add_begin_loop it qbl loa (stack_get_index ts1) in
         let* q := run_transitions qs start_timestamp ts1 qbl in
         let* lt := loop_type_of qs q in
         match lt with
         | end_loop => process_end_loop qs lang start_timestamp n it1 ts1 q
         | _ => calculate_new_next_question_from qs lang start_timestamp n it1 ts1 q
         end)) /\
  (forall loa ts1,
      no_frame_on_top ts qbl ->
      stack_push_begin_loop qs lang ts qbl loa = Ok ts1 ->
      exists f,
        ts_vector ts1 = ts_vector ts ++ [f] /\
        sf_question_begin_loop f = qbl /\ sf_loop_operand_answer f = loa /\
        sf_index f = 0 /\
        i_history (add_begin_loop it qbl loa (stack_get_index ts1))
          = i_history it ++ [entry_begin_loop qbl (a_id loa) 0]).
Proof.
  split; [|split].
  - intros Hskip. simpl.
    rewrite (stack_process_begin_loop_skipped qs lang ts qbl Hskip). reflexivity.
  - intros loa Henter. simpl.
    rewrite (stack_process_begin_loop_entered qs lang ts qbl loa Henter).
    destruct (stack_push_begin_loop qs lang ts qbl loa); reflexivity.
  - intros loa ts1 Htop Hpush.
    destruct (stack_push_begin_loop_fresh qs lang ts qbl loa ts1 Htop Hpush)
      as (f & Hv & Hq & Ha & Hi & Hidx).
    exists f. rewrite Hidx. auto.
Qed.

Lemma process_begin_loop_step_witness :
  process_begin_loop (qq_questions (compiled loop_source)) 0 0%Z 10
    (letters_interview "") (answered_letters "") 1
  = Ok (4, letters_interview "", answered_letters "") /\
  (exists it ts,
     process_begin_loop (qq_questions (compiled loop_source)) 0 0%Z 10
       (letters_interview "ab") (answered_letters "ab") 1 = Ok (2, it, ts) /\
     i_history it = i_history (letters_interview "ab") ++ [entry_begin_loop 1 1 0]) /\
  (exists ts1 f,
     stack_push_begin_loop (qq_questions (compiled loop_source)) 0
       (answered_letters "ab") 1 (letters_answer "ab") = Ok ts1 /\
     ts_vector ts1 = ts_vector (answered_letters "ab") ++ [f] /\ sf_index f = 0).
Proof.
  pose (qs := qq_questions (compiled loop_source)).
  split; [|split].
  - destruct (process_begin_loop_step qs 0 0%Z 9 (letters_interview "")
                (answered_letters "") 1) as (H & _).
    fold qs. rewrite H.
    + vm_compute. reflexivity.
    + exists 0. split; [vm_compute; reflexivity|].
      right. eexists (letters_answer ""), _, j_null.
      split; [vm_compute; reflexivity|].
      split; [vm_compute; reflexivity|].
      split; reflexivity.
  - destruct (process_begin_loop_step qs 0 0%Z 9 (letters_interview "ab")
                (answered_letters "ab") 1) as (_ & H & _).
    eexists _, _. fold qs. rewrite (H (letters_answer "ab")).
    + split; vm_compute; reflexivity.
    + eexists 0, _, (j_string "a").
      split; [vm_compute; reflexivity|].
      split; [vm_compute; reflexivity|].
      split; [vm_compute; reflexivity|].
      split; reflexivity.
  - destruct (process_begin_loop_step qs 0 0%Z 9 (letters_interview "ab")
                (answered_letters "ab") 1) as (_ & _ & H).
    assert (Hpush : exists ts1,
               stack_push_begin_loop qs 0 (answered_letters "ab") 1 (letters_answer "ab")
               = Ok ts1).
    { eexists. vm_compute. reflexivity. }
    destruct Hpush as (ts1 & Hpush).
    destruct (H (letters_answer "ab") ts1 I Hpush) as (f & Hv & _ & _ & Hi & _).
    exists ts1, f. auto.
Defined.

(** C1, as stated, fails: the respondent answered [q0] of [loop_source]
    with the empty text, so the loop of [q1] has nothing to iterate on
    and is skipped. The interpreter goes on to [q4], and neither the
    history nor the stack has changed: no end-loop entry was pushed. *)
Lemma skipped_loop_pushes_no_entry :
  loop_is_skipped (qq_questions (compiled loop_source)) 0 (answered_letters "") 1 /\
  find_matching_end_loop (qq_questions (compiled loop_source)) 1 = Ok (Some 3) /\
  process_begin_loop (qq_questions (compiled loop_source)) 0 0%Z 10
    (letters_interview "") (answered_letters "") 1
  = Ok (4, letters_interview "", answered_letters "") /\
  (entry_end_loop 3 ∉ i_history (letters_interview "")) /\
  exists it lq,
    interview_submit loop_interview_0 (answer_input_payload "" "") = Ok (it, lq) /\
    map entry_loop_type (i_history it) = [regular] /\
    i_next_question it = Some 4.
Proof.
  split; [|split; [|split; [|split]]].
  - exists 0. split; [vm_compute; reflexivity|].
    right. eexists (letters_answer ""), _, j_null.
    split; [vm_compute; reflexivity|].
    split; [vm_compute; reflexivity|].
    split; reflexivity.
  - vm_compute. reflexivity.
  - vm_compute. reflexivity.
  - intros H. vm_compute in H. apply list_elem_of_singleton in H. discriminate.
  - eexists _, _. split; [vm_compute; reflexivity|]. split; vm_compute; reflexivity.
Qed.

(** ** The stack of answers *)

Lemma find_answer_no_frame ts q :
  ts_vector ts = [] -> find_answer ts q = ts_answers_by_question_map ts !! q.
Proof. intros H. unfold find_answer. rewrite H. reflexivity. Qed.

Lemma find_answer_top_frame l f m q :
  find_answer {| ts_vector := l ++ [f]; ts_answers_by_question_map := m |} q =
    match sf_answers_by_question_map f !! q with
    | Some a => Some a
    | None => find_answer {| ts_vector := l; ts_answers_by_question_map := m |} q
    end.
Proof.
  unfold find_answer. simpl. rewrite reverse_snoc. simpl.
  unfold frame_find_answer. destruct (sf_answers_by_question_map f !! q); reflexivity.
Qed.

Lemma replace_answer_no_frame ts a :
  ts_vector ts = [] ->
  replace_answer ts a =
    {| ts_vector := [];
       ts_answers_by_question_map := <[a_question a := a]> (ts_answers_by_question_map ts) |}.
Proof. intros H. unfold replace_answer. rewrite H. reflexivity. Qed.

Lemma replace_answer_top_frame l f m a :
  replace_answer {| ts_vector := l ++ [f]; ts_answers_by_question_map := m |} a =
    {| ts_vector := l ++ [frame_replace_answer f a]; ts_answers_by_question_map := m |}.
Proof.
  unfold replace_answer. simpl. rewrite last_snoc. unfold set_back. simpl.
  rewrite removelast_last. reflexivity.
Qed.

Lemma stack_cases ts :
  ts_vector ts = [] \/
  exists l f, ts = {| ts_vector := l ++ [f];
                      ts_answers_by_question_map := ts_answers_by_question_map ts |}.
Proof.
  destruct ts as [v m]. simpl.
  destruct (last v) as [f|] eqn:Hl.
  - right. apply last_Some in Hl as [l ->]. eauto.
  - left. apply last_None in Hl. exact Hl.
Qed.

Lemma find_answer_replace_answer ts a q :
  find_answer (replace_answer ts a) q =
    if bool_decide (q = a_question a) then Some a else find_answer ts q.
Proof.
  destruct (stack_cases ts) as [Hv|(l & f & Hts)].
  - rewrite (replace_answer_no_frame _ _ Hv).
    rewrite !find_answer_no_frame by (simpl; auto).
    simpl. case_bool_decide as Hq.
    + subst q. apply lookup_insert_eq.
    + apply lookup_insert_ne. congruence.
  - rewrite Hts, replace_answer_top_frame, !find_answer_top_frame. simpl.
    case_bool_decide as Hq.
    + subst q. rewrite lookup_insert_eq. reflexivity.
    + rewrite lookup_insert_ne by congruence. reflexivity.
Qed.

(** X1. Looking a question up in the stack after an answer was recorded
    gives that answer for the answer's own question, and what the stack
    held before for every other question: the answer is seen through
    whatever frames are open, and recording it hides, not changes, what
    outer frames hold. *)
Theorem find_answer_after_replace_answer (ts : the_stack) (a : answer) (q : qref) :
  find_answer (replace_answer ts a) q =
    if bool_decide (q = a_question a) then Some a else find_answer ts q.
Proof. apply find_answer_replace_answer. Qed.

(** X2. Answers given inside a loop do not leak out of it: recording an
    answer while a frame is open changes that frame only, so that once
    the frame is popped the stack is what it was before the frame was
    pushed. *)
Theorem answers_in_a_frame_are_popped_with_it
    (ts : the_stack) (f : the_stack_frame) (a : answer) :
  pop_frame (replace_answer (push_frame ts f) a) = ts /\
  ts_answers_by_question_map (replace_answer (push_frame ts f) a)
    = ts_answers_by_question_map ts.
Proof.
  destruct ts as [v m]. unfold push_frame. simpl.
  rewrite replace_answer_top_frame. unfold pop_frame. simpl.
  rewrite removelast_last. auto.
Qed.

(** ** Replaying a history *)

Lemma last_answer_to_snoc q l a :
  last_answer_to q (l ++ [a]) =
    if bool_decide (a_question a = q) then Some a else last_answer_to q l.
Proof.
  unfold last_answer_to. rewrite filter_app.
  rewrite filter_cons, filter_nil. case_bool_decide as Hq.
  - rewrite decide_True by exact Hq. apply last_snoc.
  - rewrite decide_False by exact Hq. rewrite app_nil_r. reflexivity.
Qed.

Lemma answers_of_app h h' : answers_of (h ++ h') = answers_of h ++ answers_of h'.
Proof.
  induction h as [|e h IH]; simpl; [reflexivity|].
  destruct e; simpl; rewrite IH; reflexivity.
Qed.

Lemma rfold_app {A S} (f : S -> A -> result S) l l' s :
  rfold f s (l ++ l') = rbind (rfold f s l) (fun s' => rfold f s' l').
Proof.
  revert s. induction l as [|x l IH]; simpl; intros s; [reflexivity|].
  destruct (f s x); simpl; [apply IH | reflexivity].
Qed.

Lemma replay_answers `{E : Expr} qs lang h0 l :
  Forall (fun e => entry_loop_type e = regular) l ->
  exists ts,
    rfold (process_entry qs lang h0) empty_stack l = Ok ts /\
    ts_vector ts = [] /\
    forall q, find_answer ts q = last_answer_to q (answers_of l).
Proof.
  induction l as [|e l IH] using rev_ind; intros Hl.
  - exists empty_stack. repeat split.
  - apply Forall_app in Hl as [Hl He]. apply Forall_cons_1 in He as [He _].
    destruct (IH Hl) as (ts & Hts & Hv & Hfind).
    rewrite rfold_app, Hts. simpl.
    destruct e as [a| |]; try discriminate. simpl.
    exists (replace_answer ts a). split; [reflexivity|]. split.
    + rewrite (replace_answer_no_frame _ _ Hv). reflexivity.
    + intros q. rewrite find_answer_replace_answer, answers_of_app. simpl.
      rewrite last_answer_to_snoc, Hfind.
      repeat case_bool_decide; congruence.
Qed.

(** X3. Replaying a stretch of history that holds answers only, no
    loop entry, always succeeds, opens no frame, and leaves a stack in
    which each question is answered by the last answer the stretch holds
    for it, and unanswered if it holds none. *)
Theorem calculate_keeps_last_answers `{E : Expr}
    (qs : list question) (lang : language_t) (h : list entry) (pos : nat) :
  Forall (fun e => entry_loop_type e = regular) (take pos h) ->
  exists ts,
    calculate qs lang h pos = Ok ts /\
    ts_vector ts = [] /\
    forall q, find_answer ts q = last_answer_to q (answers_of (take pos h)).
Proof. unfold calculate. apply replay_answers. Qed.

(** ** Parametric text *)

Lemma append_snoc (s : string) (c : ascii) (rest : string) :
  ((s ++ String c EmptyString) ++ rest)%string = (s ++ String c rest)%string.
Proof.
  induction s as [|c' s IH]; [reflexivity|].
  change (String c' ((s ++ String c EmptyString) ++ rest)%string
          = String c' (s ++ String c rest)%string).
  f_equal. exact IH.
Qed.

Lemma append_empty_r (s : string) : (s ++ "")%string = s.
Proof.
  induction s as [|c s IH]; [reflexivity|].
  change (String c (s ++ "")%string = String c s). f_equal. exact IH.
Qed.

Lemma validate_from_plain text fn :
  mentions eval_prefix text = false -> validate_from in_text text fn = Ok tt.
Proof.
  induction text as [|c rest IH]; simpl; [reflexivity|].
  intros H. apply orb_false_iff in H as [Hc Hrest].
  rewrite Hc. auto.
Qed.

Lemma calculate_text_from_plain `{E : Expr} qs lang b text :
  mentions eval_prefix text = false ->
  forall rs,
    calculate_text_from qs lang b r_text rs text =
      Ok {| rs_out := (rs_out rs ++ text)%string; rs_values := rs_values rs;
            rs_stack := rs_stack rs; rs_calls := rs_calls rs |}.
Proof.
  induction text as [|c rest IH]; simpl; intros H rs.
  - rewrite append_empty_r. destruct rs; reflexivity.
  - apply orb_false_iff in H as [Hc Hrest]. rewrite Hc.
    rewrite (IH Hrest). unfold put_char, put.
    cbn [rs_out rs_values rs_stack rs_calls]. rewrite append_snoc. reflexivity.
Qed.

(** X4. A text that holds no [@] is accepted by the validation of the
    compiler whatever the number of text functions, and is rendered as
    it is, on any body and any stack: no text function is called, no
    loop variable is read and the stack is returned unchanged. *)
Theorem plain_text_is_rendered_verbatim `{E : Expr}
    (qs : list question) (lang : language_t) (b : question_body) (ts : the_stack)
    (text : string) (fn : nat) :
  mentions eval_prefix text = false ->
  validate_parametric_text text fn = Ok tt /\
  calculate_text qs lang b ts text = Ok (text, ts) /\
  exists rs, calculate_text_state qs lang b ts text = Ok rs /\ rs_calls rs = [].
Proof.
  intros H. split; [apply validate_from_plain; exact H|].
  unfold calculate_text, calculate_text_state.
  destruct (_ && _).
  - simpl. eauto.
  - rewrite (calculate_text_from_plain _ _ _ _ H). simpl. eauto.
Qed.

Lemma validate_from_step st c rest fn :
  validate_from st (String c rest) fn = Ok tt ->
  exists st', validate_from st' rest fn = Ok tt.
Proof.
  destruct st; simpl.
  - destruct (Ascii.eqb c eval_prefix); eauto.
  - destruct (Ascii.eqb c eval_open); eauto.
  - destruct (isdigit c); eauto.
  - destruct (isdigit c); [eauto|].
    destruct (_ && _); [discriminate | eauto].
Qed.

Lemma validate_from_close st rest fn :
  validate_from st (String eval_close rest) fn = Ok tt ->
  validate_from in_text rest fn = Ok tt.
Proof.
  destruct st; simpl; auto.
  destruct (_ <=? _)%Z; [discriminate | auto].
Qed.

Lemma get_loop_variable_in_bounds `{E : Expr} qs lang ts name :
  get_loop_variable qs lang ts name <> Err function_call_out_of_bounds.
Proof.
  unfold get_loop_variable.
  destruct (list_find _ _) as [[r f]|]; [|discriminate].
  destruct (sf_loop_variable_value f); [discriminate|].
  destruct (qs !! sf_question_begin_loop f); simpl; [|discriminate].
  destruct (calculate_loop_variable_value _ _ _ _ _); simpl; discriminate.
Qed.

Lemma render_variable_in_bounds `{E : Expr} qs lang rs var :
  render_variable qs lang rs var <> Err function_call_out_of_bounds.
Proof.
  unfold render_variable.
  pose proof (get_loop_variable_in_bounds qs lang (rs_stack rs) var) as H.
  destruct (get_loop_variable qs lang (rs_stack rs) var) as [[v ts]|e]; simpl.
  - destruct (json_is_null v); simpl; discriminate.
  - congruence.
Qed.

Lemma render_call_in_bounds `{E : Expr} qs lang b rs funcn :
  (funcn < Z.of_nat (length (qb_text_functions b)))%Z ->
  render_call qs lang b rs funcn <> Err function_call_out_of_bounds.
Proof.
  intros Hlt. unfold render_call.
  rewrite (proj2 (Z.leb_gt _ _)) by exact Hlt. simpl.
  destruct (rs_values rs !! Z.to_nat funcn) as [[v|]|];
    try discriminate;
    (destruct (qb_text_functions b !! Z.to_nat funcn); simpl; [|discriminate];
     destruct (call_text_function _ _ _ _); simpl; discriminate).
Qed.

Lemma rendering_stays_in_bounds `{E : Expr} qs lang b text :
  forall v r rs,
    scanners_in_step v r ->
    validate_from v text (length (qb_text_functions b)) = Ok tt ->
    calculate_text_from qs lang b r rs text <> Err function_call_out_of_bounds.
Proof.
  induction text as [|c rest IH]; intros v r rs Hstep Hv; [discriminate|].
  destruct r as [| | |funcn ss|vars]; simpl in Hstep; subst.
  - simpl in Hv |- *.
    destruct (Ascii.eqb c eval_prefix); eapply IH; eauto; reflexivity.
  - simpl in Hv |- *.
    destruct (Ascii.eqb c eval_open); eapply IH; eauto; reflexivity.
  - simpl in Hv |- *. destruct (isdigit c).
    + eapply IH; eauto. reflexivity.
    + eapply IH; eauto. exact I.
  - simpl in Hv |- *. destruct (isdigit c).
    + eapply IH; eauto. reflexivity.
    + destruct (Ascii.eqb c eval_close) eqn:Hc; simpl in *; [|discriminate].
      destruct (Z.leb_spec (Z.of_nat (length (qb_text_functions b))) funcn) as [Hle|Hlt];
        [discriminate|].
      pose proof (render_call_in_bounds qs lang b rs funcn Hlt) as Hcall.
      destruct (render_call qs lang b rs funcn) as [rs'|e]; simpl; [|congruence].
      eapply IH; eauto. reflexivity.
  - simpl. destruct (Ascii.eqb_spec c eval_close) as [->|Hne].
    + pose proof (render_variable_in_bounds qs lang rs vars) as Hvar.
      destruct (render_variable qs lang rs vars) as [rs'|e]; simpl; [|congruence].
      apply validate_from_close in Hv. eapply IH; eauto. reflexivity.
    + apply validate_from_step in Hv as [st' Hv].
      apply (IH st'); [exact I | exact Hv].
Qed.

Lemma validated_text_in_bounds `{E : Expr}
    (qs : list question) (lang : language_t) (b : question_body) (ts : the_stack)
    (text : string) :
  validate_parametric_text text (length (qb_text_functions b)) = Ok tt ->
  calculate_text qs lang b ts text <> Err function_call_out_of_bounds.
Proof.
  intros Hv. unfold calculate_text, calculate_text_state.
  destruct (_ && _); [discriminate|].
  pose proof (rendering_stays_in_bounds qs lang b text in_text r_text
                {| rs_out := ""; rs_values := replicate (length (qb_text_functions b)) None;
                   rs_stack := ts; rs_calls := [] |} eq_refl Hv) as H.
  destruct (calculate_text_from _ _ _ _ _ _); simpl; congruence.
Qed.

(** X5. A text the compiler has validated against the number of text
    functions of a body never makes the rendering of that body fail with
    function-call-out-of-bounds, on any stack: the two scanners number
    the calls in the same way. *)
Theorem validated_text_stays_in_bounds `{E : Expr}
    (qs : list question) (lang : language_t) (b : question_body) (ts : the_stack)
    (text : string) :
  validate_parametric_text text (length (qb_text_functions b)) = Ok tt ->
  calculate_text qs lang b ts text <> Err function_call_out_of_bounds.
Proof. apply validated_text_in_bounds. Qed.

(** ** Finding answers in a history *)

Lemma find_answer_at_most_from_spec h index :
  index < length h ->
  exists i,
    find_answer_at_most_from h index = Ok i /\
    i <= index /\
    (i = 0 \/ exists e, h !! i = Some e /\ entry_is_regular e = true) /\
    forall j e, i < j <= index -> h !! j = Some e -> entry_is_regular e = false.
Proof.
  induction index as [|n IH]; intros Hlt.
  - exists 0. simpl. repeat split; auto. intros j e Hj. lia.
  - simpl. destruct (lookup_lt_is_Some_2 h (S n) Hlt) as [e He].
    rewrite He. simpl. destruct (entry_is_regular e) eqn:Hr.
    + exists (S n). repeat split; eauto. intros j e' Hj. lia.
    + destruct IH as (i & Hi & Hle & Hat & Hbetween); [lia|].
      exists i. repeat split; auto.
      intros j e' Hj Hj'. destruct (decide (j = S n)) as [->|Hne].
      * congruence.
      * apply (Hbetween j e'); [lia | exact Hj'].
Qed.

(** X6. [find_answer_at_most] fails with answer-index-does-not-exist
    exactly when the index is not a position of the history; otherwise
    it returns the nearest position at or before the index that holds a
    regular answer, and position 0 when there is none: every entry
    strictly between the position returned and the index is a loop
    entry. *)
Theorem find_answer_at_most_finds_nearest (h : list entry) (index : nat) :
  (length h <= index ->
   find_answer_at_most h index = Err answer_index_does_not_exist) /\
  (index < length h ->
   exists i,
     find_answer_at_most h index = Ok i /\
     i <= index /\
     (i = 0 \/ exists e, h !! i = Some e /\ entry_is_regular e = true) /\
     forall j e, i < j <= index -> h !! j = Some e -> entry_is_regular e = false).
Proof.
  unfold find_answer_at_most. split; intros H.
  - rewrite (proj2 (Nat.leb_le _ _) H). reflexivity.
  - rewrite (proj2 (Nat.leb_gt _ _) H). simpl.
    apply find_answer_at_most_from_spec. exact H.
Qed.

Lemma find_answer_at_least_from_spec rest :
  forall index i,
    find_answer_at_least_from rest index = Ok i <->
    exists k e,
      i = index + k /\ rest !! k = Some e /\ entry_is_regular e = true /\
      forall j e', j < k -> rest !! j = Some e' -> entry_is_regular e' = false.
Proof.
  induction rest as [|e rest IH]; intros index i; simpl.
  - split; [discriminate|]. intros (k & e & _ & H & _). discriminate.
  - destruct (entry_is_regular e) eqn:Hr.
    + split.
      * intros H. injection H as <-. exists 0, e.
        repeat split; auto. intros j e' Hj. lia.
      * intros (k & e0 & -> & Hk & Hr0 & Hbefore).
        destruct k as [|k]; [f_equal; lia|].
        specialize (Hbefore 0 e ltac:(lia) eq_refl). congruence.
    + rewrite IH. split.
      * intros (k & e0 & -> & Hk & Hr0 & Hbefore).
        exists (S k), e0. split; [lia|]. split; [exact Hk|]. split; [exact Hr0|].
        intros [|j] e' Hj Hj'; simpl in Hj'; [congruence|].
        apply (Hbefore j e'); [lia | exact Hj'].
      * intros (k & e0 & -> & Hk & Hr0 & Hbefore).
        destruct k as [|k]; simpl in Hk; [congruence|].
        exists k, e0. split; [lia|]. split; [exact Hk|]. split; [exact Hr0|].
        intros j e' Hj Hj'. apply (Hbefore (S j) e'); [lia | exact Hj'].
Qed.

Lemma find_answer_at_least_from_error rest index e :
  find_answer_at_least_from rest index = Err e -> e = answer_index_does_not_exist.
Proof.
  revert index. induction rest as [|x rest IH]; simpl; intros index.
  - congruence.
  - destruct (entry_is_regular x); [discriminate | apply IH].
Qed.

Lemma find_answer_at_least_spec h index i :
  find_answer_at_least h index = Ok i <->
  index <= i /\
  (exists e, h !! i = Some e /\ entry_is_regular e = true) /\
  forall j e, index <= j < i -> h !! j = Some e -> entry_is_regular e = false.
Proof.
  unfold find_answer_at_least. split.
  - intros H. throw_inv H. apply Nat.leb_gt in Hu.
    apply find_answer_at_least_from_spec in H as (k & e & -> & Hk & Hr & Hbefore).
    rewrite lookup_drop in Hk. split; [lia|]. split; [eauto|].
    intros j e' Hj Hj'. apply (Hbefore (j - index) e'); [lia|].
    rewrite lookup_drop. replace (index + (j - index)) with j by lia. exact Hj'.
  - intros (Hle & (e & He & Hr) & Hbefore).
    assert (Hlt : index < length h) by (apply lookup_lt_Some in He; lia).
    rewrite (proj2 (Nat.leb_gt _ _) Hlt). simpl.
    apply find_answer_at_least_from_spec. exists (i - index), e.
    split; [lia|]. split.
    + rewrite lookup_drop. replace (index + (i - index)) with i by lia. exact He.
    + split; [exact Hr|]. intros j e' Hj Hj'. rewrite lookup_drop in Hj'.
      apply (Hbefore (index + j) e'); [lia | exact Hj'].
Qed.

(** X7. [find_answer_at_least] returns a position exactly when it is
    the first position at or after the index that holds a regular
    answer; when there is none, be it that the index is past the end or
    that only loop entries follow, it fails, and always with
    answer-index-does-not-exist. *)
Theorem find_answer_at_least_finds_nearest (h : list entry) (index : nat) :
  (forall i,
      find_answer_at_least h index = Ok i <->
      index <= i /\
      (exists e, h !! i = Some e /\ entry_is_regular e = true) /\
      forall j e, index <= j < i -> h !! j = Some e -> entry_is_regular e = false) /\
  (forall e, find_answer_at_least h index = Err e -> e = answer_index_does_not_exist).
Proof.
  split; [intros i; apply find_answer_at_least_spec|].
  unfold find_answer_at_least. intros e.
  destruct (length h <=? index)%nat; simpl; [congruence|].
  apply find_answer_at_least_from_error.
Qed.

Lemma last_answer_from_reverse h :
  last_answer_from (reverse h) = last (answers_of h).
Proof.
  induction h as [|e h IH] using rev_ind; [reflexivity|].
  rewrite reverse_snoc, answers_of_app. destruct e as [a| |]; simpl.
  - rewrite last_snoc. reflexivity.
  - rewrite app_nil_r. exact IH.
  - rewrite app_nil_r. exact IH.
Qed.

(** ** Ranks *)

Lemma question_rank_from_found l label :
  forall rank i q,
    list_find (fun q => String.eqb (q_label q) label) l = Some (i, q) ->
    question_rank_from l label rank = rank + i.
Proof.
  induction l as [|x l IH]; simpl; intros rank i q H; [discriminate|].
  destruct (String.eqb (q_label x) label) eqn:Hx.
  - rewrite decide_True in H by exact I.
    injection H as <- <-. lia.
  - rewrite decide_False in H by exact id.
    destruct (list_find _ l) as [[i' q']|] eqn:Hl; simpl in H; [|discriminate].
    injection H as <- <-. rewrite (IH (S rank) i' q' eq_refl). lia.
Qed.

Lemma question_rank_from_missing l label :
  forall rank,
    list_find (fun q => String.eqb (q_label q) label) l = None ->
    question_rank_from l label rank = rank + length l.
Proof.
  induction l as [|x l IH]; simpl; intros rank H; [lia|].
  destruct (String.eqb (q_label x) label) eqn:Hx.
  - rewrite decide_True in H by exact I. discriminate.
  - rewrite decide_False in H by exact id.
    destruct (list_find _ l) as [[i' q']|] eqn:Hl; simpl in H; [discriminate|].
    rewrite (IH (S rank) eq_refl). lia.
Qed.

(** X8. The rank of a question is one more than the position at which
    [find_question] finds its label, so between 1 and the number of
    questions; for a label the questionnaire does not hold, the rank is
    the number of questions plus one. *)
Theorem rank_follows_find_question (qq : questionnaire) (q : question) :
  (forall i,
      find_question qq (q_label q) = Some i ->
      get_question_rank qq q = S i /\ get_question_rank qq q <= length (qq_questions qq)) /\
  (find_question qq (q_label q) = None ->
   get_question_rank qq q = S (length (qq_questions qq))).
Proof.
  unfold find_question, get_question_rank. split.
  - intros i H.
    destruct (list_find _ _) as [[i' q']|] eqn:Hl; simpl in H; [|discriminate].
    injection H as <-.
    rewrite (question_rank_from_found _ _ 1 i' q' Hl).
    apply list_find_Some in Hl as (Hl & _). apply lookup_lt_Some in Hl. lia.
  - intros H.
    destruct (list_find _ _) as [[i' q']|] eqn:Hl; simpl in H; [discriminate|].
    rewrite (question_rank_from_missing _ _ 1 Hl). lia.
Qed.

(** ** Orphans *)

Lemma elem_of_insert_destinations s q i :
  i ∈ insert_destinations s q <->
  i ∈ s \/ exists t, t ∈ q_transitions q /\ t_destination t = i.
Proof.
  unfold insert_destinations. revert s.
  induction (q_transitions q) as [|t l IH]; simpl; intros s.
  - split; [auto|]. intros [H|(t & Ht & _)]; [exact H|]. inversion Ht.
  - rewrite IH. rewrite elem_of_union, elem_of_singleton. split.
    + intros [[->|H]|(t' & Ht' & Hd)].
      * right. exists t. split; [apply list_elem_of_here | reflexivity].
      * left. exact H.
      * right. exists t'. split; [apply list_elem_of_further; exact Ht' | exact Hd].
    + intros [H|(t' & Ht' & Hd)].
      * left. right. exact H.
      * apply elem_of_cons in Ht' as [->|Ht'].
        -- left. left. congruence.
        -- right. eauto.
Qed.

Lemma covered_cons s i x l k :
  covered s i (x :: l) (S k) <-> covered (insert_destinations s x) (S i) l k.
Proof.
  unfold covered. rewrite elem_of_insert_destinations.
  replace (S i + k) with (i + S k) by lia. split.
  - intros [H|(j & q & t & Hj & Hq & Ht & Hd)].
    + left. left. exact H.
    + destruct j as [|j]; simpl in Hq.
      * injection Hq as <-. left. right. eauto.
      * right. exists j, q, t. repeat split; auto. lia.
  - intros [[H|(t & Ht & Hd)]|(j & q & t & Hj & Hq & Ht & Hd)].
    + left. exact H.
    + right. exists 0, x, t. repeat split; auto. lia.
    + right. exists (S j), q, t. repeat split; auto. lia.
Qed.

Lemma check_orphans_from_spec l :
  forall s i,
    match check_orphans_from s i l with
    | no_orphan => forall k, k < length l -> covered s i l k
    | question_is_orphan label =>
        exists k q,
          l !! k = Some q /\ q_label q = label /\ ~ covered s i l k /\
          forall k', k' < k -> covered s i l k'
    end.
Proof.
  induction l as [|x l IH]; intros s i; simpl.
  - intros k Hk. lia.
  - case_bool_decide as Hin.
    + specialize (IH (insert_destinations s x) (S i)).
      destruct (check_orphans_from _ _ l) as [|label].
      * intros [|k] Hk.
        -- left. rewrite Nat.add_0_r. exact Hin.
        -- apply covered_cons. apply IH. lia.
      * destruct IH as (k & q & Hk & Hl & Hn & Hbefore).
        exists (S k), q. repeat split; auto.
        -- rewrite covered_cons. exact Hn.
        -- intros [|k'] Hk'.
           ++ left. rewrite Nat.add_0_r. exact Hin.
           ++ apply covered_cons. apply Hbefore. lia.
    + exists 0, x. repeat split; auto.
      * intros [H|(j & _ & _ & Hj & _)]; [|lia].
        rewrite Nat.add_0_r in H. contradiction.
      * intros k' Hk'. lia.
Qed.

Lemma covered_first first rest k :
  covered (insert_destinations ∅ first) 1 rest k <-> is_targeted (first :: rest) (S k).
Proof.
  rewrite <- covered_cons. unfold covered, is_targeted. simpl. split.
  - intros [H|H]; [set_solver | exact H].
  - intros H. right. exact H.
Qed.

Lemma check_orphans_spec qq :
  match check_orphans qq with
  | no_orphan =>
      forall i, 0 < i < length (qq_questions qq) -> is_targeted (qq_questions qq) i
  | question_is_orphan label =>
      exists i q,
        0 < i /\ qq_questions qq !! i = Some q /\ q_label q = label /\
        ~ is_targeted (qq_questions qq) i /\
        forall k, 0 < k < i -> is_targeted (qq_questions qq) k
  end.
Proof.
  unfold check_orphans. destruct (qq_questions qq) as [|first [|second rest]].
  - simpl. intros i Hi. lia.
  - simpl. intros i Hi. lia.
  - pose proof (check_orphans_from_spec (second :: rest) (insert_destinations ∅ first) 1) as H.
    destruct (check_orphans_from _ _ _) as [|label].
    + intros [|i] Hi; [lia|]. apply covered_first. apply H. simpl in *. lia.
    + destruct H as (k & q & Hk & Hl & Hn & Hbefore).
      exists (S k), q. repeat split; auto.
      * lia.
      * rewrite <- covered_first. exact Hn.
      * intros [|k'] Hk'; [lia|]. apply covered_first. apply Hbefore. lia.
Qed.

(** X9. [check_orphans] accepts a questionnaire exactly when every
    question but the first is the destination of a transition of a
    question placed before it; when it refuses, the label it reports is
    that of the first question, in questionnaire order, that is not. *)
Theorem check_orphans_finds_first_orphan (qq : questionnaire) :
  (check_orphans qq = no_orphan <->
   forall i, 0 < i < length (qq_questions qq) -> is_targeted (qq_questions qq) i) /\
  (forall label,
      check_orphans qq = question_is_orphan label ->
      exists i q,
        0 < i /\ qq_questions qq !! i = Some q /\ q_label q = label /\
        ~ is_targeted (qq_questions qq) i /\
        forall k, 0 < k < i -> is_targeted (qq_questions qq) k).
Proof.
  pose proof (check_orphans_spec qq) as H.
  destruct (check_orphans qq) as [|label].
  - split; [tauto | discriminate].
  - split.
    + split; [discriminate|]. intros Hall.
      destruct H as (i & q & Hi & Hq & _ & Hn & _).
      exfalso. apply Hn. apply Hall. apply lookup_lt_Some in Hq. lia.
    + intros label' Heq. injection Heq as <-. exact H.
Qed.

Lemma targeted_reachable qs :
  (forall i, 0 < i < length qs -> is_targeted qs i) ->
  forall i, i < length qs -> reachable qs i.
Proof.
  intros Hall i. induction i as [i IH] using lt_wf_ind. intros Hi.
  destruct i as [|i]; [constructor|].
  destruct (Hall (S i) ltac:(lia)) as (j & q & t & Hj & Hq & Ht & <-).
  eapply reachable_next; eauto. apply IH; [exact Hj | lia].
Qed.

(** X10. In a questionnaire that [check_orphans] accepts, every
    question can be reached from the first one by following
    transitions. *)
Theorem no_orphan_means_reachable (qq : questionnaire) (i : qref) :
  check_orphans qq = no_orphan ->
  i < length (qq_questions qq) ->
  reachable (qq_questions qq) i.
Proof.
  intros H Hi. apply targeted_reachable; [|exact Hi].
  pose proof (check_orphans_spec qq) as Hs. rewrite H in Hs. exact Hs.
Qed.

(** ** Checking a localization *)

Lemma list_find_key_None l k :
  list_find (fun ql => bool_decide (qloc_question ql = k)) l = None <->
  k ∉ map qloc_question l.
Proof.
  rewrite list_find_None, Forall_forall, list_elem_of_fmap. split.
  - intros H (ql & -> & Hin). apply (H ql Hin). apply bool_decide_pack. reflexivity.
  - intros H ql Hin Hk. apply bool_decide_unpack in Hk. apply H. eauto.
Qed.

Lemma dump_localizations_ok l :
  forall m m',
    dump_localizations m l = Ok m' ->
    NoDup (map qloc_question l) /\
    (forall ql, ql ∈ l -> m !! qloc_question ql = None) /\
    forall k,
      m' !! k =
        match list_find (fun ql => bool_decide (qloc_question ql = k)) l with
        | Some (_, ql) => Some ql
        | None => m !! k
        end.
Proof.
  induction l as [|ql l IH]; simpl; intros m m' H.
  - injection H as <-. split; [constructor|]. split; [|reflexivity].
    intros ql Hin. inversion Hin.
  - throw_inv H. apply bool_decide_eq_false in Hu.
    assert (Hnone : m !! qloc_question ql = None).
    { destruct (m !! qloc_question ql) eqn:E; [|reflexivity]. exfalso. apply Hu. eauto. }
    destruct (IH _ _ H) as (Hnd & Hfresh & Hlook).
    assert (Hnotin : qloc_question ql ∉ map qloc_question l).
    { rewrite list_elem_of_fmap. intros (ql' & Heq & Hin).
      specialize (Hfresh ql' Hin). rewrite <- Heq, lookup_insert_eq in Hfresh.
      discriminate. }
    split; [constructor; assumption|]. split.
    + intros ql' Hin. apply elem_of_cons in Hin as [->|Hin]; [exact Hnone|].
      specialize (Hfresh ql' Hin).
      destruct (decide (qloc_question ql' = qloc_question ql)) as [Heq|Hne].
      * rewrite Heq, lookup_insert_eq in Hfresh. discriminate.
      * rewrite lookup_insert_ne in Hfresh by congruence. exact Hfresh.
    + intros k. rewrite Hlook. case_decide as Hk.
      * apply bool_decide_unpack in Hk. subst k.
        apply list_find_key_None in Hnotin. rewrite Hnotin.
        apply lookup_insert_eq.
      * destruct (list_find _ l) as [[i ql']|]; simpl; [reflexivity|].
        apply lookup_insert_ne. intros Heq. apply Hk. apply bool_decide_pack. exact Heq.
Qed.

Lemma dump_localizations_total l :
  forall m,
    NoDup (map qloc_question l) ->
    (forall ql, ql ∈ l -> m !! qloc_question ql = None) ->
    exists m', dump_localizations m l = Ok m'.
Proof.
  induction l as [|ql l IH]; simpl; intros m Hnd Hfresh; [eauto|].
  apply NoDup_cons in Hnd as [Hnotin Hnd].
  rewrite bool_decide_eq_false_2.
  2:{ rewrite (Hfresh ql (list_elem_of_here _ _)). intros [? ?]. discriminate. }
  simpl. apply IH; [exact Hnd|].
  intros ql' Hin. rewrite lookup_insert_ne.
  - apply Hfresh. apply list_elem_of_further. exact Hin.
  - intros Heq. apply Hnotin. rewrite list_elem_of_fmap. eauto.
Qed.

Lemma dump_localizations_error l :
  forall m e, dump_localizations m l = Err e -> e = question_localization_is_duplicate.
Proof.
  induction l as [|ql l IH]; simpl; intros m e H; [discriminate|].
  destruct (bool_decide _); simpl in H; [congruence | eauto].
Qed.

Section LocalizationFacts.
Variable store : template_question -> language_t -> option template_question_localization.

Lemma check_question_is_localized_ok qlmpq language i q :
  check_question_is_localized store qlmpq language i q = Ok tt <->
  (qlmpq !! i = None ->
   supports_localization q = false /\
   forall tq, q_variant q = q_from_template tq -> store tq language <> None).
Proof.
  unfold check_question_is_localized.
  destruct (qlmpq !! i) as [ql|]; [split; [discriminate | reflexivity]|].
  destruct (supports_localization q) eqn:Hs; simpl.
  - split; [discriminate|]. intros H. destruct (H eq_refl) as [? _]. discriminate.
  - destruct (q_variant q) as [b|tq| |] eqn:Hv;
      try (split; [intros _ _; split; [reflexivity | discriminate] | reflexivity]).
    case_bool_decide as Hf; simpl.
    + split; [discriminate|]. intros H. destruct (H eq_refl) as [_ H'].
      exfalso. apply (H' tq eq_refl). exact Hf.
    + split; [|reflexivity]. intros _ _. split; [reflexivity|].
      intros tq' Heq. injection Heq as <-. exact Hf.
Qed.

Lemma check_question_is_localized_error qlmpq language i q e :
  check_question_is_localized store qlmpq language i q = Err e ->
  e = question_localization_does_not_exist \/
  e = question_localization_for_template_does_not_exist.
Proof.
  unfold check_question_is_localized.
  destruct (qlmpq !! i); [discriminate|].
  destruct (supports_localization q); simpl; [left; congruence|].
  destruct (q_variant q); try discriminate.
  case_bool_decide; simpl; [right; congruence | discriminate].
Qed.

Lemma check_questions_are_localized_ok qlmpq language l :
  forall i,
    check_questions_are_localized store qlmpq language i l = Ok tt <->
    forall k q,
      l !! k = Some q -> qlmpq !! (i + k) = None ->
      supports_localization q = false /\
      forall tq, q_variant q = q_from_template tq -> store tq language <> None.
Proof.
  induction l as [|x l IH]; simpl; intros i.
  - split; [|reflexivity]. intros _ k q H. discriminate.
  - split.
    + intros H. bind_inv H. destruct x0.
      pose proof (proj1 (check_question_is_localized_ok _ _ _ _) Hx) as Hx'.
      intros [|k] q Hk; simpl in Hk.
      * injection Hk as <-. rewrite Nat.add_0_r. exact Hx'.
      * replace (i + S k) with (S i + k) by lia.
        apply (proj1 (IH (S i)) H k q Hk).
    + intros H.
      assert (Hx : check_question_is_localized store qlmpq language i x = Ok tt).
      { apply check_question_is_localized_ok. intros Hn.
        apply (H 0 x eq_refl). rewrite Nat.add_0_r. exact Hn. }
      rewrite Hx. simpl. apply IH. intros k q Hk Hn.
      apply (H (S k) q Hk). replace (i + S k) with (S i + k) by lia. exact Hn.
Qed.

Lemma check_questions_are_localized_error qlmpq language l :
  forall i e,
    check_questions_are_localized store qlmpq language i l = Err e ->
    e = question_localization_does_not_exist \/
    e = question_localization_for_template_does_not_exist.
Proof.
  induction l as [|x l IH]; simpl; intros i e H; [discriminate|].
  destruct (check_question_is_localized store qlmpq language i x) as [[]|e'] eqn:Hx;
    simpl in H.
  - eauto.
  - injection H as <-. eapply check_question_is_localized_error; eauto.
Qed.

Lemma force_check_ok quest qql :
  force_check store quest qql = Ok tt <->
  NoDup (map qloc_question (qql_questions_localizations qql)) /\
  localization_is_complete store quest qql.
Proof.
  unfold force_check, localization_is_complete. split.
  - intros H. bind_inv H.
    destruct (dump_localizations_ok _ _ _ Hx) as (Hnd & _ & Hlook).
    split; [exact Hnd|]. intros i q Hq Hnotin.
    apply (proj1 (check_questions_are_localized_ok _ _ _ 0) H i q Hq).
    simpl. rewrite Hlook. apply list_find_key_None in Hnotin. rewrite Hnotin.
    apply lookup_empty.
  - intros [Hnd Hall].
    destruct (dump_localizations_total (qql_questions_localizations qql) ∅ Hnd)
      as [m Hm]; [intros; apply lookup_empty|].
    rewrite Hm. simpl.
    destruct (dump_localizations_ok _ _ _ Hm) as (_ & _ & Hlook).
    apply check_questions_are_localized_ok. intros k q Hq Hn. simpl in Hn.
    apply (Hall k q Hq). apply list_find_key_None.
    rewrite Hlook in Hn.
    destruct (list_find _ _) as [[? ?]|]; [discriminate | reflexivity].
Qed.

Lemma force_check_error quest qql e :
  force_check store quest qql = Err e ->
  e = question_localization_is_duplicate \/
  e = question_localization_does_not_exist \/
  e = question_localization_for_template_does_not_exist.
Proof.
  unfold force_check.
  destruct (dump_localizations ∅ _) as [m|e'] eqn:Hd; simpl; intros H.
  - right. eapply check_questions_are_localized_error; eauto.
  - injection H as <-. left. eapply dump_localizations_error; eauto.
Qed.
End LocalizationFacts.

(** X11. [force_check] accepts a localization exactly when no question
    has two localizations in it and every question it does not localize
    is one that takes no localization of its own (a loop, or a question
    from a template of which the library has a localization in the
    language); it fails with no other exception than those of a
    duplicate, of a missing localization and of a missing template
    localization. *)
Theorem force_check_accepts_complete_localizations
    (store : template_question -> language_t -> option template_question_localization)
    (quest : questionnaire) (qql : questionnaire_localization) :
  (force_check store quest qql = Ok tt <->
   NoDup (map qloc_question (qql_questions_localizations qql)) /\
   localization_is_complete store quest qql) /\
  (forall e,
      force_check store quest qql = Err e ->
      e = question_localization_is_duplicate \/
      e = question_localization_does_not_exist \/
      e = question_localization_for_template_does_not_exist).
Proof.
  split; [apply force_check_ok | intros e; apply force_check_error].
Qed.

(** X12. When [dump] succeeds on the localizations of an interview, the
    map it builds and the linear search of
    [find_question_localization] agree on every question: both give the
    localization of the question, or none. *)
Theorem dump_agrees_with_find_question_localization
    (it : interview) (qql : questionnaire_localization)
    (m : gmap qref question_localization) (q : qref) :
  i_questionnaire_localization it = Some qql ->
  dump_localizations ∅ (qql_questions_localizations qql) = Ok m ->
  find_question_localization it q = Ok (m !! q).
Proof.
  intros Hit Hm. unfold find_question_localization. rewrite Hit. simpl.
  destruct (dump_localizations_ok _ _ _ Hm) as (_ & _ & Hlook).
  rewrite Hlook. destruct (list_find _ _) as [[i ql]|]; simpl; [reflexivity|].
  rewrite lookup_empty. reflexivity.
Qed.

(** ** The shape of a compiled questionnaire *)

Lemma make_question_ok label v q :
  make_question label v = Ok q ->
  q = {| q_label := label; q_transitions := []; q_variant := v |} /\
  validate_label label = true.
Proof.
  unfold make_question. intros H. throw_inv H. injection H as <-.
  apply negb_false_iff in Hu. auto.
Qed.

(** takes a hypothesis on the result of a throwing computation apart *)
Ltac unfold_ok H :=
  repeat (match type of H with
          | rbind (throw_if _ _) _ = Ok _ => throw_inv H
          | rbind _ _ = Ok _ => bind_inv H
          | (let (_, _) := ?p in _) = Ok _ => destruct p
          end).

Section CompilerShape.
Variable js_compile : string -> bool.
Variable template_library : gmap string template_question.

Lemma compile_first_facts qs m sq q o :
  source_question_compile_first template_library qs m sq = Ok (q, o) ->
  q_label q = sq_label sq /\
  validate_label (q_label q) = true /\
  supports_localization q = bool_decide (is_Some o) /\
  forall oq variable operand,
    q_variant q = q_begin_loop oq variable operand ->
    (exists label oqi, m !! label = Some oqi /\ oq = qi_index oqi) /\
    (exists x, qs !! oq = Some x /\ supports_answer x = true) /\
    validate_label variable = true /\
    string_empty operand = false.
Proof.
  unfold source_question_compile_first.
  destruct (sq_variant sq) eqn:Hv; intros H; unfold_ok H;
    try (injection H as <- <-);
    repeat match goal with
           | Hq : make_question _ _ = Ok _ |- _ =>
               apply make_question_ok in Hq; destruct Hq as [? ?]
           end;
    subst; simpl;
    (split; [reflexivity|]); (split; [assumption|]);
    (split; [reflexivity|]);
    intros oq variable' operand' Heq; try discriminate.
  injection Heq as <- <- <-.
  apply or_throw_ok in Hx, Hx0.
  apply negb_false_iff in Hu, Hu0.
  repeat split; eauto.
Qed.

Lemma loops_open_app l l' d :
  loops_open (l ++ l') d = loops_open l d ≫= loops_open l'.
Proof.
  revert d. induction l as [|q l IH]; simpl; intros d; [reflexivity|].
  destruct (get_loop_type q); [apply IH | apply IH |].
  destruct d; [reflexivity | apply IH].
Qed.

Lemma localized_positions_app l l' i :
  localized_positions (l ++ l') i =
    localized_positions l i ++ localized_positions l' (i + length l).
Proof.
  revert i. induction l as [|q l IH]; simpl; intros i.
  - rewrite Nat.add_0_r. reflexivity.
  - rewrite IH. replace (S i + length l) with (i + S (length l)) by lia.
    destruct (supports_localization q); reflexivity.
Qed.

Lemma first_pass_step_shape read s osq s' :
  first_pass_invariant s ->
  first_pass_shape read s ->
  first_pass_step template_library s osq = Ok s' ->
  first_pass_shape (read ++ [osq]) s'.
Proof.
  intros [Hqn Hinv] (Hlabels & Hvalid & Hopen & Hm & Hloops & Hlocs) H.
  unfold first_pass_step in H.
  apply rbind_ok in H as (sq & Hsq & H). apply or_throw_ok in Hsq. subst osq.
  apply rbind_ok in H as ([q oqlb] & Hfirst & H).
  throw_inv H.
  apply rbind_ok in H as ([m ln] & Hx1 & H).
  injection H as <-. simpl.
  destruct (compile_first_facts _ _ _ _ _ Hfirst) as (Hlabel & Hv & Hsup & Hbl).
  assert (Hbook :
            (exists nest mbl, m = <[q_label q := make_info (fp_qn s) nest mbl]> (fp_m s)) /\
            loops_open [q] (length (fp_ln s)) = Some (length ln)).
  { simpl. unfold update_loop_nest, get_loop_type in *.
    destruct (fp_ln s) as [|b l] eqn:Hln.
    - destruct (q_variant q); simpl in Hx1; try discriminate;
        injection Hx1 as <- <-; split; eauto.
    - destruct (q_variant q) eqn:Hq; simpl in Hx1;
        try rewrite bool_decide_eq_false_2 in Hx1 by discriminate;
        try rewrite bool_decide_eq_true_2 in Hx1 by reflexivity;
        simpl in Hx1; injection Hx1 as <- <-; (split; [eauto|]).
      + reflexivity.
      + reflexivity.
      + simpl. rewrite length_app. simpl. f_equal. lia.
      + change (Some (length l) = Some (length (removelast (b :: l)))).
        f_equal. clear. revert b.
        induction l as [|b' l IH]; intros b; [reflexivity|].
        change (S (length l) = S (length (removelast (b' :: l)))).
        f_equal. apply IH. }
  destruct Hbook as ((nest & mbl & ->) & Hq).
  unfold first_pass_shape. simpl.
  split; [|split; [|split; [|split; [|split]]]].
  - apply Forall2_app; [exact Hlabels|]. constructor; [eauto | constructor].
  - apply Forall_app. split; [exact Hvalid|]. constructor; [exact Hv | constructor].
  - rewrite loops_open_app, Hopen. simpl. exact Hq.
  - intros label info Hl. rewrite length_app. simpl.
    destruct (decide (label = q_label q)) as [->|Hne].
    + rewrite lookup_insert_eq in Hl. injection Hl as <-. simpl. lia.
    + rewrite lookup_insert_ne in Hl by congruence.
      specialize (Hm label info Hl). lia.
  - intros i q0 Hq0 oq variable operand Hvar.
    apply lookup_app_Some in Hq0 as [Hq0|[Hge Hq0]].
    + destruct (Hloops i q0 Hq0 oq variable operand Hvar) as (Hlt & (x & Hx & Hs) & Hrest).
      split; [exact Hlt|]. split; [|exact Hrest].
      exists x. split; [|exact Hs]. apply lookup_app_l_Some. exact Hx.
    + apply list_lookup_singleton_Some in Hq0 as [Hi ->].
      destruct (Hbl oq variable operand Hvar)
        as ((label & oqi & Hl & ->) & (x & Hx & Hs) & Hrest).
      split; [specialize (Hm label oqi Hl); lia|].
      split; [|exact Hrest].
      exists x. split; [|exact Hs]. apply lookup_app_l_Some. exact Hx.
  - rewrite localized_positions_app. cbn [localized_positions]. rewrite Hsup.
    destruct oqlb as [qlb|].
    + rewrite bool_decide_eq_true_2 by eauto.
      cbn [qql_questions_localizations push_question_localization_back].
      rewrite map_app, Hlocs. simpl. rewrite Hqn. reflexivity.
    + rewrite bool_decide_eq_false_2 by (intros [? ?]; discriminate).
      rewrite app_nil_r. exact Hlocs.
Qed.

Lemma rfold_prefix_invariant {A S} (f : S -> A -> result S) (I : list A -> S -> Prop) :
  (forall pre s x s', I pre s -> f s x = Ok s' -> I (pre ++ [x]) s') ->
  forall l pre s s', I pre s -> rfold f s l = Ok s' -> I (pre ++ l) s'.
Proof.
  intros Hstep l. induction l as [|x l IH]; simpl; intros pre s s' Hs H.
  - injection H as <-. rewrite app_nil_r. exact Hs.
  - bind_inv H. rewrite cons_middle, app_assoc. eauto.
Qed.

Lemma first_pass_shape_holds src s :
  first_pass template_library src = Ok s ->
  first_pass_invariant s /\ first_pass_shape (sqq_questions src) s.
Proof.
  unfold first_pass. intros H.
  apply (rfold_prefix_invariant _
           (fun pre s => first_pass_invariant s /\ first_pass_shape pre s)
           (fun pre s x s' Hs Hx =>
              conj (first_pass_step_invariant js_compile template_library s x s' (proj1 Hs) Hx)
                   (first_pass_step_shape pre s x s' (proj1 Hs) (proj2 Hs) Hx))
           _ [] _ _) in H; [exact H|].
  split.
  - split; [reflexivity|]. intros i q Hq. simpl in Hq.
    rewrite lookup_nil in Hq. discriminate.
  - unfold first_pass_shape. simpl.
    split; [constructor|]. split; [constructor|]. split; [reflexivity|].
    split; [|split; [|reflexivity]].
    + intros label info Hl. rewrite lookup_empty in Hl. discriminate.
    + intros i q Hq. rewrite lookup_nil in Hq. discriminate.
Qed.

Lemma first_pass_language src s :
  first_pass template_library src = Ok s ->
  qql_language (fp_ql s) = sqq_language src.
Proof.
  unfold first_pass.
  apply (rfold_invariant _ (fun s => qql_language (fp_ql s) = sqq_language src));
    [|reflexivity].
  intros s0 osq s1 Hs0 H. unfold first_pass_step in H.
  apply rbind_ok in H as (sq & _ & H).
  apply rbind_ok in H as ([q oqlb] & _ & H).
  throw_inv H.
  apply rbind_ok in H as ([m ln] & _ & H).
  injection H as <-. simpl. destruct oqlb; exact Hs0.
Qed.

(** *** The second pass, question by question *)

Lemma compile_transitions_loop_length m qs q qqi ts :
  forall pushed out,
    compile_transitions_loop js_compile m qs q qqi pushed ts = Ok out ->
    length out = length pushed + length ts.
Proof.
  induction ts as [|ot ts IH]; simpl; intros pushed out H.
  - injection H as <-. lia.
  - bind_inv H. rewrite (IH _ _ H), length_app. simpl. lia.
Qed.

Lemma compile_transitions_none m qqi qi qs q sq :
  compile_transitions js_compile m qqi qi qs q sq = Ok [] ->
  can_be_final q = true.
Proof.
  unfold compile_transitions.
  destruct (sq_transitions sq) as [|ot ts] eqn:Hts.
  - destruct (can_be_final q); [reflexivity|].
    intros H. throw_inv H. destruct (qs !! S qi); discriminate.
  - intros H. bind_inv H. throw_inv H.
    apply compile_transitions_loop_length in H. simpl in H. lia.
Qed.

Lemma second_step_result m qqi qi qs q sq q' :
  q_transitions q = [] ->
  source_question_compile_second js_compile m qqi qi qs q sq = Ok q' ->
  second_pass_result q q'.
Proof.
  unfold source_question_compile_second, second_pass_result, same_kind.
  intros Hq H. apply rbind_ok in H as (ts & Hts & H).
  rewrite Hq in H. simpl in H.
  assert (Hfinal : ts = [] -> can_be_final q = true).
  { intros ->. eapply compile_transitions_none. exact Hts. }
  destruct (sq_is_inline sq).
  - bind_inv H. bind_inv H. injection H as <-.
    unfold set_text_functions, set_transitions. simpl.
    destruct (q_variant q); simpl; auto.
  - injection H as <-. simpl. destruct (q_variant q); auto.
Qed.

Lemma second_pass_pointwise m sqs :
  forall qi qs out,
    (forall i q, qi <= i -> qs !! i = Some q -> q_transitions q = []) ->
    qi + length sqs <= length qs ->
    second_pass js_compile m qs qi sqs = Ok out ->
    length out = length qs /\
    forall i,
      (i < qi \/ qi + length sqs <= i -> out !! i = qs !! i) /\
      (qi <= i < qi + length sqs ->
       exists q q', qs !! i = Some q /\ out !! i = Some q' /\ second_pass_result q q').
Proof.
  induction sqs as [|osq sqs IH]; simpl; intros qi qs out Hnil Hlen H.
  - injection H as <-. split; [reflexivity|]. intros i. split; [reflexivity | lia].
  - apply rbind_ok in H as (sq & _ & H).
    apply rbind_ok in H as (q & Hq & H). apply or_throw_ok in Hq.
    apply rbind_ok in H as (qqi & _ & H).
    apply rbind_ok in H as (q' & Hq' & H).
    pose proof (second_step_result _ _ _ _ _ _ _ (Hnil qi q (Nat.le_refl _) Hq) Hq') as Hres.
    apply IH in H as [Hout Hall].
    + rewrite length_insert in Hout. split; [exact Hout|]. intros i.
      destruct (Hall i) as [Hsame Hdone]. split.
      * intros Hi. rewrite Hsame by lia.
        apply list_lookup_insert_ne. lia.
      * intros Hi. destruct (decide (i = qi)) as [->|Hne].
        -- exists q, q'. split; [exact Hq|]. split; [|exact Hres].
           rewrite Hsame by lia. apply list_lookup_insert_eq.
           apply lookup_lt_Some in Hq. exact Hq.
        -- destruct Hdone as (q0 & q0' & Hq0 & Hq0' & Hres0); [lia|].
           exists q0, q0'. split; [|auto].
           rewrite list_lookup_insert_ne in Hq0 by lia. exact Hq0.
    + intros i q0 Hi Hq0. rewrite list_lookup_insert_ne in Hq0 by lia.
      apply (Hnil i q0); [lia | exact Hq0].
    + rewrite length_insert. lia.
Qed.

(** what [compile] has established when it returns *)
Lemma compile_shape src qq ql :
  compile js_compile template_library src = Ok (qq, ql) ->
  exists s lq,
    first_pass template_library src = Ok s /\
    fp_ln s = [] /\
    ql = fp_ql s /\
    dump_leveled (fp_qq s) = Ok lq /\
    check_begin_loop_operands_from lq 0 (qq_questions (fp_qq s)) = Ok tt /\
    Forall2 second_pass_result (qq_questions (fp_qq s)) (qq_questions qq).
Proof.
  unfold compile. intros H. throw_inv H. throw_inv H.
  apply rbind_ok in H as (s & Hs & H). throw_inv H.
  apply rbind_ok in H as (lq & Hlq & H).
  apply rbind_ok in H as ([] & Hcheck & H).
  apply rbind_ok in H as (out & Hout & H).
  injection H as <- <-. simpl.
  exists s, lq. repeat split; auto.
  - destruct (fp_ln s); [reflexivity | discriminate].
  - destruct (first_pass_shape_holds _ _ Hs) as [[Hqn Hinv] (Hlabels & _)].
    apply Forall2_length in Hlabels.
    apply second_pass_pointwise in Hout as [Hlen Hall].
    + apply Forall2_same_length_lookup_2; [symmetry; exact Hlen|].
      intros i q q' Hq Hq'.
      destruct (Hall i) as [_ Hdone].
      destruct Hdone as (q0 & q0' & Hq0 & Hq0' & Hres).
      { apply lookup_lt_Some in Hq. lia. }
      congruence.
    + intros i q _ Hq. apply (Hinv i q Hq).
    + lia.
Qed.
End CompilerShape.

(** ** What the second pass leaves alone *)

Lemma same_kind_loop_type q q' : same_kind q q' -> get_loop_type q' = get_loop_type q.
Proof.
  unfold same_kind, get_loop_type. intros [_ H].
  destruct (q_variant q), (q_variant q'); try discriminate; try reflexivity;
    try (destruct H; discriminate).
Qed.

Lemma same_kind_supports_localization q q' :
  same_kind q q' -> supports_localization q' = supports_localization q.
Proof.
  unfold same_kind, supports_localization. intros [_ H].
  destruct (q_variant q), (q_variant q'); try discriminate; try reflexivity;
    try (destruct H; discriminate).
Qed.

Lemma same_kind_supports_answer q q' :
  same_kind q q' -> supports_answer q' = supports_answer q.
Proof.
  unfold same_kind, supports_answer. intros [_ H].
  destruct (q_variant q), (q_variant q'); try discriminate; try reflexivity;
    try (destruct H; discriminate).
Qed.

Lemma same_kind_can_be_final q q' :
  same_kind q q' -> can_be_final q' = can_be_final q.
Proof.
  unfold same_kind, can_be_final, body_can_be_final. intros [_ H].
  destruct (q_variant q), (q_variant q'); try discriminate; try reflexivity;
    try (destruct H; discriminate).
  - destruct H as [_ ->]. reflexivity.
  - injection H as ->. reflexivity.
Qed.

Lemma same_kind_begin_loop q q' oq variable operand :
  same_kind q q' ->
  q_variant q' = q_begin_loop oq variable operand ->
  q_variant q = q_begin_loop oq variable operand.
Proof.
  unfold same_kind. intros [_ H] Hq'. rewrite Hq' in H.
  destruct (q_variant q); try discriminate; try (destruct H; discriminate).
  congruence.
Qed.

Lemma same_kind_template q q' tq :
  same_kind q q' ->
  q_variant q' = q_from_template tq ->
  q_variant q = q_from_template tq.
Proof.
  unfold same_kind. intros [_ H] Hq'. rewrite Hq' in H.
  destruct (q_variant q); try discriminate; try (destruct H; discriminate).
  congruence.
Qed.

Lemma second_pass_labels qs out :
  Forall2 second_pass_result qs out -> map q_label out = map q_label qs.
Proof.
  induction 1 as [|q q' qs out [[Hl _] _] _ IH]; simpl; [reflexivity|].
  rewrite Hl, IH. reflexivity.
Qed.

Lemma second_pass_loops_open qs out :
  Forall2 second_pass_result qs out -> forall d, loops_open out d = loops_open qs d.
Proof.
  induction 1 as [|q q' qs out [Hk _] _ IH]; simpl; intros d; [reflexivity|].
  rewrite (same_kind_loop_type _ _ Hk).
  destruct (get_loop_type q); [apply IH | apply IH |].
  destruct d; [reflexivity | apply IH].
Qed.

Lemma second_pass_localized_positions qs out :
  Forall2 second_pass_result qs out ->
  forall i, localized_positions out i = localized_positions qs i.
Proof.
  induction 1 as [|q q' qs out [Hk _] _ IH]; simpl; intros i; [reflexivity|].
  rewrite (same_kind_supports_localization _ _ Hk), IH. reflexivity.
Qed.

Lemma second_pass_lookup qs out i q' :
  Forall2 second_pass_result qs out ->
  out !! i = Some q' ->
  exists q, qs !! i = Some q /\ second_pass_result q q'.
Proof.
  intros H Hq'. destruct (Forall2_lookup_r _ _ _ _ _ H Hq') as (q & Hq & Hr). eauto.
Qed.

(** ** Labels *)

Lemma first_pass_labels_distinct s :
  first_pass_invariant s -> NoDup (map q_label (qq_questions (fp_qq s))).
Proof.
  intros [_ Hinv]. apply NoDup_alt. intros i j label Hi Hj.
  apply list_lookup_fmap_Some in Hi as (qi & -> & Hi).
  apply list_lookup_fmap_Some in Hj as (qj & Hl & Hj).
  destruct (Hinv i qi Hi) as ((info & Hm & <-) & _).
  destruct (Hinv j qj Hj) as ((info' & Hm' & <-) & _).
  congruence.
Qed.

Lemma list_find_label qs i q :
  NoDup (map q_label qs) ->
  qs !! i = Some q ->
  list_find (fun x => String.eqb (q_label x) (q_label q)) qs = Some (i, q).
Proof.
  intros Hnd Hq. apply list_find_Some. split; [exact Hq|]. split.
  - rewrite String.eqb_refl. exact I.
  - intros j x Hx Hj Heq.
    destruct (String.eqb_spec (q_label x) (q_label q)) as [Hl|]; [|exact Heq].
    assert (j = i); [|lia].
    eapply (proj1 (NoDup_alt _) Hnd j i (q_label q)).
    + rewrite list_lookup_fmap, Hx. simpl. congruence.
    + rewrite list_lookup_fmap, Hq. reflexivity.
Qed.

Section CompiledFacts.
Variable js_compile : string -> bool.
Variable template_library : gmap string template_question.

Lemma compiled_labels_facts src qq ql :
  compile js_compile template_library src = Ok (qq, ql) ->
  Forall2 (fun osq q => exists sq, osq = Some sq /\ q_label q = sq_label sq)
    (sqq_questions src) (qq_questions qq) /\
  Forall (fun q => validate_label (q_label q) = true) (qq_questions qq) /\
  NoDup (map q_label (qq_questions qq)).
Proof.
  intros H.
  destruct (compile_shape _ _ _ _ _ H) as (s & lq & Hs & _ & _ & _ & _ & Hout).
  destruct (first_pass_shape_holds js_compile _ _ _ Hs) as [Hinv (Hlabels & Hvalid & _)].
  pose proof (second_pass_labels _ _ Hout) as Hsame.
  split; [|split].
  - apply Forall2_same_length_lookup_2.
    + rewrite (Forall2_length _ _ _ Hlabels). apply (Forall2_length _ _ _ Hout).
    + intros i osq q' Hosq Hq'.
      destruct (second_pass_lookup _ _ _ _ Hout Hq') as (q & Hq & [[Hl _] _]).
      destruct (Forall2_lookup_lr _ _ _ _ _ _ Hlabels Hosq Hq) as (sq & -> & Hsq).
      exists sq. split; [reflexivity | congruence].
  - apply Forall_lookup. intros i q' Hq'.
    destruct (second_pass_lookup _ _ _ _ Hout Hq') as (q & Hq & [[Hl _] _]).
    rewrite Hl. apply (proj1 (Forall_lookup _ _) Hvalid i q Hq).
  - rewrite Hsame. apply first_pass_labels_distinct. exact Hinv.
Qed.
End CompiledFacts.

(** X13. A compiled questionnaire has one question for each source
    question, in the same order and with the same label; every label
    is valid, no two questions share a label, and [find_question] on the
    label of a question returns the position of that very question. *)
Theorem compiled_questions_keep_distinct_labels
    (js : string -> bool) (library : gmap string template_question)
    (src : source_questionnaire) (qq : questionnaire) (ql : questionnaire_localization) :
  compile js library src = Ok (qq, ql) ->
  Forall2 (fun osq q => exists sq, osq = Some sq /\ q_label q = sq_label sq)
    (sqq_questions src) (qq_questions qq) /\
  Forall (fun q => validate_label (q_label q) = true) (qq_questions qq) /\
  NoDup (map q_label (qq_questions qq)) /\
  forall i q, qq_questions qq !! i = Some q -> find_question qq (q_label q) = Some i.
Proof.
  intros H. destruct (compiled_labels_facts _ _ _ _ _ H) as (H1 & H2 & H3).
  repeat split; auto.
  intros i q Hq. unfold find_question. rewrite (list_find_label _ _ _ H3 Hq). reflexivity.
Qed.

(** ** Loops *)

Lemma scan_matching_end_loop_finds l :
  forall pos c d d',
    1 <= c ->
    loops_open l (d + c) = Some d' ->
    d' <= d ->
    exists e x,
      scan_matching_end_loop l pos c = Ok (Some e) /\
      pos <= e /\ l !! (e - pos) = Some x /\ get_loop_type x = end_loop.
Proof.
  induction l as [|q l IH]; simpl; intros pos c d d' Hc Hopen Hd.
  - injection Hopen as <-. lia.
  - unfold update_loop_counter, get_loop_type in *.
    destruct (q_variant q) eqn:Hq; simpl.
    + destruct c as [|c]; [lia|]. simpl.
      destruct (IH (S pos) (S c) d d' ltac:(lia) Hopen Hd) as (e & x & He & Hle & Hx & Ht).
      exists e, x. repeat split; auto; [lia|].
      replace (e - pos) with (S (e - S pos)) by lia. exact Hx.
    + destruct c as [|c]; [lia|]. simpl.
      destruct (IH (S pos) (S c) d d' ltac:(lia) Hopen Hd) as (e & x & He & Hle & Hx & Ht).
      exists e, x. repeat split; auto; [lia|].
      replace (e - pos) with (S (e - S pos)) by lia. exact Hx.
    + replace (S (d + c)) with (d + S c) in Hopen by lia.
      destruct (IH (S pos) (S c) d d' ltac:(lia) Hopen Hd) as (e & x & He & Hle & Hx & Ht).
      exists e, x. repeat split; auto; [lia|].
      replace (e - pos) with (S (e - S pos)) by lia. exact Hx.
    + destruct c as [|[|c]]; [lia| |].
      * simpl. exists pos, q. rewrite Nat.sub_diag. simpl.
        repeat split; auto. rewrite Hq. reflexivity.
      * simpl. replace (d + S (S c)) with (S (d + S c)) in Hopen by lia.
        destruct (IH (S pos) (S c) d d' ltac:(lia) Hopen Hd)
          as (e & x & He & Hle & Hx & Ht).
        exists e, x. repeat split; auto; [lia|].
        replace (e - pos) with (S (e - S pos)) by lia. exact Hx.
Qed.

Lemma balanced_loops_match qs b q :
  loops_open qs 0 = Some 0 ->
  qs !! b = Some q ->
  get_loop_type q = begin_loop ->
  exists e x,
    find_matching_end_loop qs b = Ok (Some e) /\
    b < e /\ qs !! e = Some x /\ get_loop_type x = end_loop.
Proof.
  intros Hopen Hq Hbegin.
  rewrite <- (take_drop_middle qs b q Hq) in Hopen.
  rewrite loops_open_app in Hopen.
  destruct (loops_open (take b qs) 0) as [d|]; simpl in Hopen; [|discriminate].
  rewrite Hbegin in Hopen.
  destruct (scan_matching_end_loop_finds (drop (S b) qs) (S b) 1 d 0)
    as (e & x & He & Hle & Hx & Ht); [lia | | lia |].
  { rewrite Nat.add_1_r. exact Hopen. }
  exists e, x. unfold find_matching_end_loop. split; [exact He|].
  split; [lia|]. split; [|exact Ht].
  rewrite lookup_drop in Hx. replace (S b + (e - S b)) with e in Hx by lia. exact Hx.
Qed.

Lemma localized_positions_elem l :
  forall i k,
    k ∈ localized_positions l i <->
    i <= k /\ exists q, l !! (k - i) = Some q /\ supports_localization q = true.
Proof.
  induction l as [|x l IH]; simpl; intros i k.
  - split; [intros H; inversion H|]. intros (_ & q & H & _). discriminate.
  - assert (Hrec : k ∈ localized_positions l (S i) <->
                   i < k /\ exists q, (x :: l) !! (k - i) = Some q /\
                                      supports_localization q = true).
    { rewrite IH. split.
      - intros (Hle & q & Hq & Hs). split; [lia|]. exists q. split; [|exact Hs].
        replace (k - i) with (S (k - S i)) by lia. exact Hq.
      - intros (Hlt & q & Hq & Hs). split; [lia|]. exists q. split; [|exact Hs].
        replace (k - i) with (S (k - S i)) in Hq by lia. exact Hq. }
    destruct (supports_localization x) eqn:Hx.
    + rewrite elem_of_cons, Hrec. split.
      * intros [->|(Hlt & H)].
        -- split; [lia|]. exists x. rewrite Nat.sub_diag. auto.
        -- split; [lia | exact H].
      * intros (Hle & q & Hq & Hs).
        destruct (decide (k = i)) as [->|Hne]; [left; reflexivity|].
        right. split; [lia|]. eauto.
    + rewrite Hrec. split.
      * intros (Hlt & H). split; [lia | exact H].
      * intros (Hle & q & Hq & Hs).
        destruct (decide (k = i)) as [->|Hne].
        -- rewrite Nat.sub_diag in Hq. injection Hq as <-. congruence.
        -- split; [lia|]. eauto.
Qed.

Lemma localized_positions_NoDup l : forall i, NoDup (localized_positions l i).
Proof.
  induction l as [|x l IH]; simpl; intros i; [constructor|].
  destruct (supports_localization x); [|apply IH].
  constructor; [|apply IH].
  rewrite localized_positions_elem. intros [Hle _]. lia.
Qed.

Lemma same_kind_update_loop_nest q q' ln self :
  same_kind q q' -> update_loop_nest q' ln self = update_loop_nest q ln self.
Proof.
  unfold same_kind, update_loop_nest. intros [_ H].
  destruct (q_variant q), (q_variant q'); try discriminate; try reflexivity;
    try (destruct H; discriminate).
Qed.

Lemma second_pass_dump_leveled qs out :
  Forall2 second_pass_result qs out ->
  forall qn ln, dump_leveled_from out qn ln = dump_leveled_from qs qn ln.
Proof.
  induction 1 as [|q q' qs out [Hk _] _ IH]; simpl; intros qn ln; [reflexivity|].
  rewrite (same_kind_loop_type _ _ Hk), !(same_kind_update_loop_nest _ _ _ _ Hk).
  destruct ln as [|b ln'].
  - destruct (update_loop_nest q [] qn); simpl; [rewrite IH|]; reflexivity.
  - destruct (bool_decide _); simpl; [rewrite IH; reflexivity|].
    destruct (update_loop_nest q (b :: ln') qn); simpl; [rewrite IH|]; reflexivity.
Qed.

Lemma check_begin_loop_operands_lookup lq qs :
  forall i k q,
    check_begin_loop_operands_from lq i qs = Ok tt ->
    qs !! k = Some q ->
    check_begin_loop_operand lq (i + k) q = Ok tt.
Proof.
  induction qs as [|x qs IH]; simpl; intros i k q H Hq; [discriminate|].
  apply rbind_ok in H as ([] & Hx & H).
  destruct k as [|k]; simpl in Hq.
  - injection Hq as <-. rewrite Nat.add_0_r. exact Hx.
  - replace (i + S k) with (S i + k) by lia. eauto.
Qed.

Section CompiledLoops.
Variable js_compile : string -> bool.
Variable template_library : gmap string template_question.

Lemma compiled_loops_open src qq ql :
  compile js_compile template_library src = Ok (qq, ql) ->
  loops_open (qq_questions qq) 0 = Some 0.
Proof.
  intros H.
  destruct (compile_shape _ _ _ _ _ H) as (s & lq & Hs & Hln & _ & _ & _ & Hout).
  destruct (first_pass_shape_holds js_compile _ _ _ Hs) as [_ (_ & _ & Hopen & _)].
  rewrite (second_pass_loops_open _ _ Hout), Hopen, Hln. reflexivity.
Qed.

Lemma compiled_begin_loops src qq ql :
  compile js_compile template_library src = Ok (qq, ql) ->
  exists lq,
    dump_leveled qq = Ok lq /\
    forall i q,
      qq_questions qq !! i = Some q ->
      begin_loop_is_sound (qq_questions qq) i q /\
      forall oq variable operand,
        q_variant q = q_begin_loop oq variable operand ->
        exists info oinfo,
          lq !! i = Some info /\ lq !! oq = Some oinfo /\
          qi_loop_nest info = qi_loop_nest oinfo.
Proof.
  intros H.
  destruct (compile_shape _ _ _ _ _ H) as (s & lq & Hs & _ & _ & Hlq & Hcheck & Hout).
  destruct (first_pass_shape_holds js_compile _ _ _ Hs)
    as [_ (_ & _ & _ & _ & Hsound & _)].
  exists lq. split.
  { unfold dump_leveled in *. rewrite (second_pass_dump_leveled _ _ Hout). exact Hlq. }
  intros i q' Hq'.
  destruct (second_pass_lookup _ _ _ _ Hout Hq') as (q & Hq & [Hk _]).
  split.
  - intros oq variable operand Hv.
    pose proof (same_kind_begin_loop _ _ _ _ _ Hk Hv) as Hv0.
    destruct (Hsound i q Hq oq variable operand Hv0) as (Hlt & (x & Hx & Hsa) & Hrest).
    split; [exact Hlt|]. split; [|exact Hrest].
    destruct (Forall2_lookup_l _ _ _ _ _ Hout Hx) as (x' & Hx' & [Hkx _]).
    exists x'. split; [exact Hx'|].
    rewrite (same_kind_supports_answer _ _ Hkx). exact Hsa.
  - intros oq variable operand Hv.
    pose proof (same_kind_begin_loop _ _ _ _ _ Hk Hv) as Hv0.
    pose proof (check_begin_loop_operands_lookup _ _ 0 i q Hcheck Hq) as Hc.
    unfold check_begin_loop_operand in Hc. rewrite Hv0 in Hc. simpl in Hc.
    apply rbind_ok in Hc as (info & Hinfo & Hc). apply or_throw_ok in Hinfo.
    apply rbind_ok in Hc as (oinfo & Hoinfo & Hc). apply or_throw_ok in Hoinfo.
    apply throw_if_ok in Hc. apply negb_false_iff, bool_decide_eq_true in Hc.
    eauto.
Qed.

Lemma compiled_dead_ends src qq ql i q :
  compile js_compile template_library src = Ok (qq, ql) ->
  qq_questions qq !! i = Some q ->
  q_transitions q = [] ->
  can_be_final q = true.
Proof.
  intros H Hq' Hnil.
  destruct (compile_shape _ _ _ _ _ H) as (s & lq & _ & _ & _ & _ & _ & Hout).
  destruct (second_pass_lookup _ _ _ _ Hout Hq') as (q0 & _ & [Hk Hfinal]).
  rewrite (same_kind_can_be_final _ _ Hk). auto.
Qed.

Lemma compiled_localization_positions src qq ql :
  compile js_compile template_library src = Ok (qq, ql) ->
  map qloc_question (qql_questions_localizations ql)
    = localized_positions (qq_questions qq) 0 /\
  qql_language ql = sqq_language src /\
  qql_questionnaire_change_count ql = 0%Z.
Proof.
  intros H.
  destruct (compile_shape _ _ _ _ _ H) as (s & lq & Hs & _ & -> & _ & _ & Hout).
  destruct (first_pass_shape_holds js_compile _ _ _ Hs)
    as [_ (_ & _ & _ & _ & _ & Hlocs)].
  split; [|split].
  - rewrite (second_pass_localized_positions _ _ Hout). exact Hlocs.
  - apply (first_pass_language _ _ _ Hs).
  - revert Hs. unfold first_pass.
    apply (rfold_invariant _ (fun s => qql_questionnaire_change_count (fp_ql s) = 0%Z));
      [|reflexivity].
    intros s0 osq s1 Hs0 Hstep. unfold first_pass_step in Hstep.
    apply rbind_ok in Hstep as (sq & _ & Hstep).
    apply rbind_ok in Hstep as ([q oqlb] & _ & Hstep).
    throw_inv Hstep.
    apply rbind_ok in Hstep as ([m ln] & _ & Hstep).
    injection Hstep as <-. simpl. destruct oqlb; exact Hs0.
Qed.
End CompiledLoops.

Lemma compiled_first_question
    (js : string -> bool) (library : gmap string template_question)
    (src : source_questionnaire) (qq : questionnaire) (ql : questionnaire_localization) :
  compile js library src = Ok (qq, ql) ->
  exists q, qq_questions qq !! 0 = Some q /\ get_loop_type q = regular.
Proof.
  intros H.
  pose proof (compiled_loops_open _ _ _ _ _ H) as Hopen.
  destruct (compiled_begin_loops _ _ _ _ _ H) as (lq & _ & Hsound).
  destruct (compiled_labels_facts _ _ _ _ _ H) as (Hlabels & _).
  assert (Hne : sqq_questions src <> []).
  { unfold compile in H. throw_inv H. throw_inv H.
    destruct (sqq_questions src); [discriminate | discriminate]. }
  destruct (qq_questions qq) as [|q qs] eqn:Hqs.
  { apply Forall2_nil_inv_r in Hlabels. contradiction. }
  exists q. split; [reflexivity|].
  destruct (Hsound 0 q) as [Hs _]; [reflexivity|].
  simpl in Hopen. unfold get_loop_type in *.
  destruct (q_variant q) as [| |oq variable operand|] eqn:Hv; try reflexivity.
  - destruct (Hs oq variable operand Hv) as [Hlt _]. lia.
  - discriminate.
Qed.

(** X14. A compiled questionnaire has a first question, and it is a
    regular question, never the begin or the end of a loop: the
    question an interview starts on is one that can be asked. *)
Theorem compiled_first_question_is_regular
    (js : string -> bool) (library : gmap string template_question)
    (src : source_questionnaire) (qq : questionnaire) (ql : questionnaire_localization) :
  compile js library src = Ok (qq, ql) ->
  exists q, qq_questions qq !! 0 = Some q /\ get_loop_type q = regular.
Proof. apply compiled_first_question. Qed.

(** X15. In a compiled questionnaire every begin loop has its end
    loop: the search the interpreter makes when it skips a loop finds an
    end loop placed after the begin loop, it never comes back empty
    handed or fails. *)
Theorem compiled_loops_are_closed
    (js : string -> bool) (library : gmap string template_question)
    (src : source_questionnaire) (qq : questionnaire) (ql : questionnaire_localization)
    (b : qref) (q : question) :
  compile js library src = Ok (qq, ql) ->
  qq_questions qq !! b = Some q ->
  get_loop_type q = begin_loop ->
  exists e x,
    find_matching_end_loop (qq_questions qq) b = Ok (Some e) /\
    b < e /\ qq_questions qq !! e = Some x /\ get_loop_type x = end_loop.
Proof.
  intros H Hq Hb. apply (balanced_loops_match _ _ q); auto.
  apply (compiled_loops_open _ _ _ _ _ H).
Qed.

(** X16. In a compiled questionnaire a question without transitions is
    a final one, a message or a template of a message: every question
    of another kind has at least one transition. The last question has
    no transition, so that every compiled questionnaire ends on a final
    question. *)
Theorem compiled_questions_have_a_way_out
    (js : string -> bool) (library : gmap string template_question)
    (src : source_questionnaire) (qq : questionnaire) (ql : questionnaire_localization)
    (i : qref) (q : question) :
  compile js library src = Ok (qq, ql) ->
  qq_questions qq !! i = Some q ->
  (q_transitions q = [] -> is_final q = true) /\
  (S i = length (qq_questions qq) -> is_final q = true).
Proof.
  intros H Hq.
  assert (Hnil : q_transitions q = [] -> is_final q = true).
  { intros Hnil. unfold is_final. rewrite Hnil. simpl.
    apply (compiled_dead_ends _ _ _ _ _ _ _ H Hq Hnil). }
  split; [exact Hnil|]. intros Hlast. apply Hnil.
  destruct (q_transitions q) as [|t ts] eqn:Ht; [reflexivity|].
  pose proof (compile_forward _ _ _ _ _ H i q t Hq) as Hf.
  rewrite Ht in Hf. specialize (Hf (list_elem_of_here _ _)). lia.
Qed.

(** X17. In a compiled questionnaire the question a begin loop iterates
    upon is placed before the begin loop, takes an answer, and lies in
    the same nest of loops as the begin loop; the variable of the loop
    is a valid label and its operand is not empty. *)
Theorem compiled_begin_loops_are_sound
    (js : string -> bool) (library : gmap string template_question)
    (src : source_questionnaire) (qq : questionnaire) (ql : questionnaire_localization) :
  compile js library src = Ok (qq, ql) ->
  exists lq,
    dump_leveled qq = Ok lq /\
    forall i q oq variable operand,
      qq_questions qq !! i = Some q ->
      q_variant q = q_begin_loop oq variable operand ->
      oq < i /\
      (exists x, qq_questions qq !! oq = Some x /\ supports_answer x = true) /\
      validate_label variable = true /\
      string_empty operand = false /\
      exists info oinfo,
        lq !! i = Some info /\ lq !! oq = Some oinfo /\
        qi_loop_nest info = qi_loop_nest oinfo.
Proof.
  intros H. destruct (compiled_begin_loops _ _ _ _ _ H) as (lq & Hlq & Hall).
  exists lq. split; [exact Hlq|].
  intros i q oq variable operand Hq Hv.
  destruct (Hall i q Hq) as [Hsound Hnest].
  destruct (Hsound oq variable operand Hv) as (H1 & H2 & H3 & H4).
  split; [exact H1|]. split; [exact H2|]. split; [exact H3|]. split; [exact H4|].
  apply (Hnest oq variable operand Hv).
Qed.

Lemma compiled_localization_checks
    (js : string -> bool) (library : gmap string template_question)
    (store : template_question -> language_t -> option template_question_localization)
    (src : source_questionnaire) (qq : questionnaire) (ql : questionnaire_localization) :
  compile js library src = Ok (qq, ql) ->
  (forall i q tq,
      qq_questions qq !! i = Some q -> q_variant q = q_from_template tq ->
      store tq (sqq_language src) <> None) ->
  force_check store qq ql = Ok tt /\
  exists ql', check store qq ql = Ok ql'.
Proof.
  intros H Htemplates.
  destruct (compiled_localization_positions _ _ _ _ _ H) as (Hpos & Hlang & _).
  assert (Hforce : force_check store qq ql = Ok tt).
  { apply force_check_ok. split.
    - rewrite Hpos. apply localized_positions_NoDup.
    - intros i q Hq Hnotin. rewrite Hpos in Hnotin. split.
      + destruct (supports_localization q) eqn:Hs; [|reflexivity].
        exfalso. apply Hnotin. apply localized_positions_elem.
        split; [lia|]. exists q. rewrite Nat.sub_0_r. auto.
      + intros tq Hv. rewrite Hlang. eauto. }
  split; [exact Hforce|].
  unfold check, check_counting.
  destruct (_ =? _)%Z; simpl; [eauto|]. rewrite Hforce. simpl. eauto.
Qed.

(** X18. The localization [compile] returns with a questionnaire is
    complete and not redundant: provided the library has a localization,
    in the language of the source, of each template the questionnaire
    uses, [force_check] accepts it, and so does [check]. *)
Theorem compiled_localization_passes_check
    (js : string -> bool) (library : gmap string template_question)
    (store : template_question -> language_t -> option template_question_localization)
    (src : source_questionnaire) (qq : questionnaire) (ql : questionnaire_localization) :
  compile js library src = Ok (qq, ql) ->
  (forall i q tq,
      qq_questions qq !! i = Some q -> q_variant q = q_from_template tq ->
      store tq (sqq_language src) <> None) ->
  force_check store qq ql = Ok tt /\
  exists ql', check store qq ql = Ok ql'.
Proof. apply compiled_localization_checks. Qed.

(** X19. Running the transitions of a question of a compiled
    questionnaire, on any stack, can only lead to a question that
    exists and is placed after it. *)
Theorem compiled_transitions_run_forward `{E : Expr}
    (js : string -> bool) (library : gmap string template_question)
    (src : source_questionnaire) (qq : questionnaire) (ql : questionnaire_localization)
    (start_timestamp : time_t) (ts : the_stack) (q q' : qref) :
  compile js library src = Ok (qq, ql) ->
  run_transitions (qq_questions qq) start_timestamp ts q = Ok q' ->
  q < q' < length (qq_questions qq).
Proof.
  intros H Hrun. unfold run_transitions in Hrun.
  apply rbind_ok in Hrun as (x & Hx & Hrun). apply or_throw_ok in Hx.
  unfold question_run_transitions in Hrun.
  apply run_transitions_loop_first in Hrun as (pre & t & post & Hl & _ & Ht).
  apply transition_run_taken in Ht as [-> _].
  apply (compile_forward _ _ _ _ _ H q x t Hx).
  rewrite Hl. apply elem_of_app. right. apply list_elem_of_here.
Qed.

(** ** Advancing an interview *)

Lemma advanced_refl it : advanced it it.
Proof.
  unfold advanced. repeat split; auto. exists []. rewrite app_nil_r. auto.
Qed.

Lemma advanced_trans it1 it2 it3 : advanced it1 it2 -> advanced it2 it3 -> advanced it1 it3.
Proof.
  intros (A1 & A2 & A3 & A4 & A5 & A6 & s1 & H1 & F1)
         (B1 & B2 & B3 & B4 & B5 & B6 & s2 & H2 & F2).
  unfold advanced. repeat split; try congruence.
  exists (s1 ++ s2). split.
  - rewrite H2, H1, app_assoc. reflexivity.
  - apply Forall_app. auto.
Qed.

Lemma advanced_add_begin_loop it qbl a index : advanced it (add_begin_loop it qbl a index).
Proof.
  unfold advanced, add_begin_loop, set_history. simpl. repeat split; auto.
  eexists. split; [reflexivity|]. repeat constructor.
Qed.

Lemma advanced_add_end_loop it qel : advanced it (add_end_loop it qel).
Proof.
  unfold advanced, add_end_loop, set_history. simpl. repeat split; auto.
  eexists. split; [reflexivity|]. repeat constructor.
Qed.

Section AdvanceFacts.
Context `{E : Expr}.
Variable qs : list question.
Variable lang : language_t.
Variable start_timestamp : time_t.

Lemma advance_facts fuel :
  advances qs (calculate_new_next_question_from qs lang start_timestamp fuel) /\
  advances qs (process_begin_loop qs lang start_timestamp fuel) /\
  advances qs (process_end_loop qs lang start_timestamp fuel).
Proof.
  induction fuel as [|n (IHc & IHb & IHe)].
  - unfold advances. split; [|split]; intros it ts q q' it' ts' H; discriminate.
  - unfold advances in *.
    split; [|split]; intros it ts q q' it' ts' H; simpl in H.
    + apply rbind_ok in H as (x & Hx & H). apply or_throw_ok in Hx.
      destruct (supports_localization x) eqn:Hs.
      * injection H as <- <- <-. split; [apply advanced_refl|].
        exists x. auto.
      * destruct (get_loop_type x); [discriminate | eauto | eauto].
    + apply rbind_ok in H as ([ts1 loa] & _ & H).
      destruct loa as [a|].
      * apply rbind_ok in H as (d & _ & H).
        apply rbind_ok in H as (lt & _ & H).
        assert (Hit : advanced it (add_begin_loop it q a (stack_get_index ts1)))
          by apply advanced_add_begin_loop.
        destruct lt;
          [apply IHc in H | apply IHc in H | apply IHe in H];
          destruct H as [Hadv Hq]; (split; [eapply advanced_trans; eauto | exact Hq]).
      * apply rbind_ok in H as (oqel & _ & H).
        destruct oqel as [qel|]; [|discriminate].
        apply rbind_ok in H as (d & _ & H).
        apply rbind_ok in H as (lt & _ & H).
        destruct lt; eauto.
    + throw_inv H.
      assert (Hit : advanced it (add_end_loop it q)) by apply advanced_add_end_loop.
      destruct (stack_process_end_loop ts) as [ts1 iterating].
      destruct iterating.
      * apply rbind_ok in H as (qbl & _ & H).
        apply rbind_ok in H as (d & _ & H).
        apply rbind_ok in H as (lt & _ & H).
        destruct lt;
          [apply IHc in H | apply IHc in H | apply IHe in H];
          destruct H as [Hadv Hq]; (split; [eapply advanced_trans; eauto | exact Hq]).
      * apply rbind_ok in H as (d & _ & H).
        apply rbind_ok in H as (lt & _ & H).
        destruct lt;
          [apply IHc in H | apply IHb in H | apply IHe in H];
          destruct H as [Hadv Hq]; (split; [eapply advanced_trans; eauto | exact Hq]).
Qed.
End AdvanceFacts.

Lemma make_answer_facts qs id l ip elapsed total_elapsed p a :
  make_answer qs id l ip elapsed total_elapsed p = Ok a ->
  a_id a = id /\ a_localization a = l /\
  a_elapsed a = elapsed /\ a_total_elapsed a = total_elapsed.
Proof.
  unfold make_answer. intros H.
  apply rbind_ok in H as ([[q qb] qlb] & _ & H).
  apply rbind_ok in H as (body & _ & H).
  injection H as <-. auto.
Qed.

Lemma next_question_localization_question store qs it locs :
  next_question_localization store qs it = Ok locs ->
  exists nq, i_next_question it = Some nq /\
             match locs with
             | loc_question ql => qloc_question ql = nq
             | loc_template _ qft => qft = nq
             end.
Proof.
  unfold next_question_localization, find_question_localization. intros H.
  apply rbind_ok in H as (nq & Hnq & H). apply or_throw_ok in Hnq.
  apply rbind_ok in H as (oql & Hoql & H).
  apply rbind_ok in Hoql as (qql & _ & Hoql). injection Hoql as <-.
  exists nq. split; [exact Hnq|].
  destruct (list_find _ _) as [[i ql]|] eqn:Hfind; simpl in H.
  - injection H as <-. apply list_find_Some in Hfind as (_ & Hq & _).
    apply bool_decide_unpack in Hq. exact Hq.
  - destruct (template_of qs nq); [|discriminate].
    apply rbind_ok in H as (tql & _ & H). injection H as <-. reflexivity.
Qed.

Section SubmitFacts.
Context `{E : Expr}.
Variable store : template_question -> language_t -> option template_question_localization.
Variable lang : language_t.
Variable start_timestamp : time_t.

Lemma submit_facts fuel it payload ip elapsed total_elapsed it' lq :
  submit store (i_questions it) lang start_timestamp fuel it payload ip
    elapsed total_elapsed = Ok (it', lq) ->
  exists nq a suffix q' x',
    i_state it = ongoing /\
    i_next_question it = Some nq /\
    a_question a = nq /\
    a_id a = fresh_answer_id (i_history it) /\
    a_elapsed a = elapsed /\ a_total_elapsed a = total_elapsed /\
    i_history it' = i_history it ++ entry_answer a :: suffix /\
    Forall (fun e => entry_is_regular e = false) suffix /\
    i_next_question it' = Some q' /\
    i_questions it !! q' = Some x' /\ supports_localization x' = true /\
    i_state it' = (if is_final x' then completed else ongoing) /\
    i_questionnaire it' = i_questionnaire it /\
    i_start_timestamp it' = i_start_timestamp it /\
    i_language it' = i_language it /\
    i_questionnaire_localization it' = i_questionnaire_localization it.
Proof.
  unfold submit. intros H.
  apply rbind_ok in H as (p & _ & H).
  throw_inv H. apply bool_decide_eq_false in Hu.
  throw_inv H. apply bool_decide_eq_false in Hu0.
  apply rbind_ok in H as (locs & Hlocs & H).
  apply rbind_ok in H as (a & Ha & H).
  destruct (next_question_localization_question _ _ _ _ Hlocs) as (nq & Hnq & Hq).
  destruct (make_answer_facts _ _ _ _ _ _ _ _ Ha) as (Hid & Hloc & Hel & Htot).
  unfold move_ahead in H.
  apply rbind_ok in H as (ts & _ & H).
  apply rbind_ok in H as ([[q1 it1] ts1] & Hnext & H).
  apply rbind_ok in H as (lq' & _ & H). injection H as <- <-.
  unfold calculate_new_next_question in Hnext.
  apply rbind_ok in Hnext as (nq' & _ & Hnext).
  apply rbind_ok in Hnext as (d & _ & Hnext).
  apply rbind_ok in Hnext as ([[q' it2] ts2] & Hfrom & Hnext).
  injection Hnext as <- <- <-.
  destruct (advance_facts (i_questions it) lang start_timestamp fuel) as (Hadv & _).
  destruct (Hadv _ _ _ _ _ _ Hfrom)
    as ((A1 & A2 & A3 & A4 & A5 & A6 & suffix & Hh & Hsuffix) & x' & Hx' & Hs).
  simpl in A1, A2, A3, A4, A5, A6, Hh.
  exists nq, a, suffix, q', x'.
  assert (Hstate : i_state it = ongoing) by (destruct (i_state it); congruence).
  split; [exact Hstate|]. split; [exact Hnq|]. split.
  { unfold a_question. rewrite Hloc. destruct locs; exact Hq. }
  split; [exact Hid|]. split; [exact Hel|]. split; [exact Htot|]. split.
  { simpl. rewrite Hh, <- app_assoc. reflexivity. }
  split; [exact Hsuffix|]. split; [reflexivity|]. split; [exact Hx'|].
  split; [exact Hs|]. split.
  { unfold set_next_question, i_questions in *. simpl.
    rewrite A1, Hx', A5, Hstate. reflexivity. }
  simpl. auto.
Qed.
End SubmitFacts.

(** X20. An answer that is accepted is added at the end of the history
    as an answer to the question the interview was waiting on, with the
    times it was submitted with; the entries that follow it in the new
    history are begin-loop and end-loop entries only. Nothing the
    history held is removed or changed, and the questionnaire, the
    localization, the language and the start time of the interview are
    left as they were. *)
Theorem submit_only_appends `{E : Expr}
    (store : template_question -> language_t -> option template_question_localization)
    (lang : language_t) (start_timestamp : time_t) (fuel : nat)
    (it : interview) (payload : option answer_payload) (ip : string)
    (elapsed total_elapsed : time_t) (it' : interview) (lq : localized_question) :
  submit store (i_questions it) lang start_timestamp fuel it payload ip
    elapsed total_elapsed = Ok (it', lq) ->
  (exists a suffix,
      i_history it' = i_history it ++ entry_answer a :: suffix /\
      i_next_question it = Some (a_question a) /\
      a_elapsed a = elapsed /\ a_total_elapsed a = total_elapsed /\
      Forall (fun e => entry_is_regular e = false) suffix) /\
  i_questionnaire it' = i_questionnaire it /\
  i_start_timestamp it' = i_start_timestamp it /\
  i_language it' = i_language it /\
  i_questionnaire_localization it' = i_questionnaire_localization it.
Proof.
  intros H.
  destruct (submit_facts _ _ _ _ _ _ _ _ _ _ _ H)
    as (nq & a & suffix & q' & x' & _ & Hnq & Ha & _ & He & Ht & Hh & Hs & _ & _ & _ & _ & Hrest).
  split; [|exact Hrest].
  exists a, suffix. rewrite Ha. auto.
Qed.

(** X21. An answer is accepted only by an ongoing interview, and the
    question the interview waits on next is then a question with a
    body, never a loop nor a question from a template; the interview is
    completed exactly when that question is final, and is ongoing
    otherwise. *)
Theorem submit_lands_on_a_question `{E : Expr}
    (store : template_question -> language_t -> option template_question_localization)
    (lang : language_t) (start_timestamp : time_t) (fuel : nat)
    (it : interview) (payload : option answer_payload) (ip : string)
    (elapsed total_elapsed : time_t) (it' : interview) (lq : localized_question) :
  submit store (i_questions it) lang start_timestamp fuel it payload ip
    elapsed total_elapsed = Ok (it', lq) ->
  i_state it = ongoing /\
  exists q' x',
    i_next_question it' = Some q' /\
    i_questions it !! q' = Some x' /\
    supports_localization x' = true /\
    i_state it' = (if is_final x' then completed else ongoing).
Proof.
  intros H.
  destruct (submit_facts _ _ _ _ _ _ _ _ _ _ _ H)
    as (nq & a & suffix & q' & x' & Hst & _ & _ & _ & _ & _ & _ & _ & Hn & Hx & Hs & Hst' & _).
  split; [exact Hst|]. exists q', x'. auto.
Qed.

(** ** Answers as they are submitted *)



Lemma cast_localization_with_options_error qlb e :
  cast_localization_with_options qlb = Err e -> e = bad_checked_cast.
Proof.
  unfold cast_localization_with_options. destruct (qlb_variant qlb); congruence.
Qed.

Lemma cast_body_multiple_choices_error k qb e :
  cast_body_multiple_choices k qb = Err e -> e = bad_checked_cast.
Proof.
  unfold cast_body_multiple_choices. destruct (qb_variant qb); try congruence.
  destruct (bool_decide _); congruence.
Qed.












Section SubmittedAnswers.
Context `{E : Expr}.
Variable store : template_question -> language_t -> option template_question_localization.
Variable lang : language_t.
Variable start_timestamp : time_t.





End SubmittedAnswers.



(** ** The validation of answers on the samples *)



(** ** Revising an answer *)

Lemma resect_suffix rest q : exists pre, rest = pre ++ resect rest q.
Proof.
  induction rest as [|e rest [pre IH]]; simpl.
  - exists []. reflexivity.
  - destruct (entry_question e =? q)%nat.
    + exists []. reflexivity.
    + exists (e :: pre). simpl. f_equal. exact IH.
Qed.

Lemma resect_sublist rest q : sublist (resect rest q) rest.
Proof.
  destruct (resect_suffix rest q) as [pre H]. rewrite H at 2.
  apply sublist_inserts_l. reflexivity.
Qed.

Section ReviseFacts.
Context `{E : Expr}.
Variable store : template_question -> language_t -> option template_question_localization.
Variable qs : list question.
Variable lang : language_t.
Variable start_timestamp : time_t.
Variable graft_keeps_identity : bool.

Lemma revise_finish_history fuel it nts kept nnetq it' lq :
  revise_finish store qs lang start_timestamp fuel it nts kept nnetq = Ok (it', lq) ->
  i_history it' = kept.
Proof.
  unfold revise_finish. intros H.
  apply rbind_ok in H as ([nq nts1] & _ & H).
  apply rbind_ok in H as (lq' & _ & H).
  injection H as <- <-. reflexivity.
Qed.

Lemma revise_loop_history fuel n :
  forall it pts nts pa na q kept rest it' lq,
    revise_loop store qs lang start_timestamp fuel n it pts nts pa na q kept rest
      = Ok (it', lq) ->
    exists sub, i_history it' = kept ++ sub /\ sublist sub rest.
Proof.
  induction n as [|n IH]; intros it pts nts pa na q kept rest it' lq H; simpl in H;
    apply rbind_ok in H as (nnetq & _ & H).
  - destruct rest as [|nee rest'].
    + apply revise_finish_history in H. exists []. rewrite app_nil_r. auto.
    + set (rest1 := if negb (nnetq =? entry_question nee)%nat
                    then resect (nee :: rest') nnetq else nee :: rest') in *.
      destruct rest1 as [|nee1 rest2] eqn:Hrest1.
      * apply revise_finish_history in H. exists []. rewrite app_nil_r.
        split; [exact H | apply sublist_nil_l].
      * apply rbind_ok in H as ([[truly pts1] nts1] & _ & H).
        destruct truly; [|discriminate].
        apply revise_finish_history in H. exists []. rewrite app_nil_r.
        split; [exact H | apply sublist_nil_l].
  - destruct rest as [|nee rest'].
    + apply revise_finish_history in H. exists []. rewrite app_nil_r. auto.
    + set (rest1 := if negb (nnetq =? entry_question nee)%nat
                    then resect (nee :: rest') nnetq else nee :: rest') in *.
      assert (Hsub : sublist rest1 (nee :: rest')).
      { unfold rest1. destruct (negb _); [apply resect_sublist | reflexivity]. }
      destruct rest1 as [|nee1 rest2] eqn:Hrest1.
      * apply revise_finish_history in H. exists []. rewrite app_nil_r.
        split; [exact H | apply sublist_nil_l].
      * apply rbind_ok in H as ([[truly pts1] nts1] & _ & H).
        destruct truly.
        -- apply revise_finish_history in H. exists []. rewrite app_nil_r.
           split; [exact H | apply sublist_nil_l].
        -- apply IH in H as (sub & Hh & Hsub').
           exists (nee1 :: sub). split.
           ++ rewrite Hh, <- app_assoc. reflexivity.
           ++ etransitivity; [|exact Hsub]. apply sublist_skip. exact Hsub'.
Qed.
End ReviseFacts.

(** X22. A revision that is accepted leaves the entries placed before
    the revised answer as they were, puts the new answer in the place
    of the old one, and keeps of the entries that followed a
    subsequence, in their order, with their links to the revised answer
    renewed: a revision never adds an entry to the history nor reorders
    it. *)
Theorem revise_answer_keeps_a_subsequence `{E : Expr}
    (store : template_question -> language_t -> option template_question_localization)
    (qs : list question) (lang : language_t) (start_timestamp : time_t)
    (graft_keeps_identity : bool) (fuel : nat)
    (it : interview) (pos : nat) (na : answer) (it' : interview) (lq : localized_question) :
  revise_answer store qs lang start_timestamp graft_keeps_identity fuel it pos na
    = Ok (it', lq) ->
  exists pa sub,
    i_history it !! pos = Some (entry_answer pa) /\
    a_question pa = a_question na /\
    i_history it' =
      take pos (i_history it) ++ entry_answer (grafted graft_keeps_identity pa na) :: sub /\
    sublist sub (map (relink graft_keeps_identity pa na) (drop (S pos) (i_history it))) /\
    length (i_history it') <= length (i_history it).
Proof.
  unfold revise_answer. intros H.
  destruct (i_history it !! pos) as [[pa| |]|] eqn:Hpos; try discriminate.
  throw_inv H. apply negb_false_iff, Nat.eqb_eq in Hu.
  apply rbind_ok in H as (pts0 & _ & H).
  apply revise_loop_history in H as (sub & Hh & Hsub).
  exists pa, sub. split; [reflexivity|]. split; [exact Hu|].
  rewrite <- app_assoc in Hh. simpl in Hh. split; [exact Hh|]. split; [exact Hsub|].
  rewrite Hh, length_app. simpl.
  apply sublist_length in Hsub. rewrite length_map, length_drop in Hsub.
  rewrite length_take. apply lookup_lt_Some in Hpos. lia.
Qed.

(** ** Starting an interview *)

Section StartFacts.
Variable store : template_question -> language_t -> option template_question_localization.
Variable find_localization : questionnaire -> language_t -> option questionnaire_localization.

Lemma start_facts it language now it' :
  start store find_localization it language now = Ok it' ->
  i_state it = initiated /\
  i_state it' <> initiated /\
  i_next_question it' = Some 0 /\
  i_history it' = i_history it /\
  i_questionnaire it' = i_questionnaire it /\
  i_language it' = language /\
  i_start_timestamp it' = now /\
  exists qql,
    i_questionnaire_localization it' = Some qql /\
    qql_questionnaire_change_count qql = qq_change_count (i_questionnaire it).
Proof.
  unfold start. intros H.
  apply rbind_ok in H as (qql & _ & H).
  apply rbind_ok in H as (qql' & Hcheck & H).
  throw_inv H. apply negb_false_iff, bool_decide_eq_true in Hu.
  apply rbind_ok in H as (first & Hfirst & H). apply or_throw_ok in Hfirst.
  injection H as <-. unfold set_next_question, i_questions in *. simpl.
  split; [exact Hu|]. split.
  { match goal with
    | |- context [match ?t with Some _ => _ | None => _ end] => destruct t as [x|]
    end; [destruct (is_final x)|]; discriminate. }
  repeat split; auto.
  exists qql'. split; [reflexivity|].
  apply (check_records_count _ _ _ _ Hcheck).
Qed.

Lemma start_needs_initiated it language now :
  i_state it <> initiated ->
  is_ok (start store find_localization it language now) = false.
Proof.
  intros Hs. unfold start.
  destruct (find_localization _ _); simpl; [|reflexivity].
  destruct (check _ _ _); simpl; [|reflexivity].
  rewrite bool_decide_eq_false_2 by exact Hs. reflexivity.
Qed.
End StartFacts.

(** X23. An interview starts once: [start] succeeds only on an
    interview that is initiated, leaves it ongoing, or completed if the
    first question is final, waiting on the first question of the
    questionnaire with its history untouched and with the localization
    checked against the current questionnaire; started again, in any
    language and whatever the store holds by then, it fails. *)
Theorem interview_starts_once
    (store store' : template_question -> language_t -> option template_question_localization)
    (find_localization find_localization'
       : questionnaire -> language_t -> option questionnaire_localization)
    (it : interview) (language language' : language_t) (now now' : time_t)
    (it' : interview) :
  start store find_localization it language now = Ok it' ->
  i_state it = initiated /\
  i_state it' <> initiated /\
  i_next_question it' = Some 0 /\
  i_history it' = i_history it /\
  (exists qql,
      i_questionnaire_localization it' = Some qql /\
      qql_questionnaire_change_count qql = qq_change_count (i_questionnaire it)) /\
  is_ok (start store' find_localization' it' language' now') = false.
Proof.
  intros H.
  destruct (start_facts _ _ _ _ _ _ H) as (H1 & H2 & H3 & H4 & _ & _ & _ & H5).
  repeat split; auto. apply start_needs_initiated. exact H2.
Qed.

(** X24. An interview on a questionnaire that was just compiled can be
    started in the language of the source: when the store returns the
    localization [compile] produced, and the library has a localization
    of each template the questionnaire uses, [start] succeeds on an
    initiated interview and leaves it waiting on a first question that
    is not a loop. *)
Theorem compiled_interview_can_start
    (js : string -> bool) (library : gmap string template_question)
    (store : template_question -> language_t -> option template_question_localization)
    (find_localization : questionnaire -> language_t -> option questionnaire_localization)
    (src : source_questionnaire) (qq : questionnaire) (ql : questionnaire_localization)
    (it : interview) (now : time_t) :
  compile js library src = Ok (qq, ql) ->
  (forall i q tq,
      qq_questions qq !! i = Some q -> q_variant q = q_from_template tq ->
      store tq (sqq_language src) <> None) ->
  find_localization qq (sqq_language src) = Some ql ->
  i_questionnaire it = qq ->
  i_state it = initiated ->
  exists it' q,
    start store find_localization it (sqq_language src) now = Ok it' /\
    i_next_question it' = Some 0 /\
    i_questions it' !! 0 = Some q /\ get_loop_type q = regular.
Proof.
  intros H Htemplates Hfind Hqq Hstate.
  destruct (compiled_localization_checks _ _ _ _ _ _ H Htemplates) as (_ & ql' & Hcheck).
  destruct (compiled_first_question _ _ _ _ _ H) as (q & Hq & Hregular).
  unfold start. rewrite Hqq, Hfind. simpl. rewrite Hcheck. simpl.
  rewrite bool_decide_eq_true_2 by exact Hstate. simpl.
  unfold i_questions. rewrite Hqq, Hq. simpl.
  eexists _, q. split; [reflexivity|].
  unfold set_next_question, i_questions. simpl. auto.
Qed.

(** ** Answering on the clock *)

Lemma answers_of_loop_entries suffix :
  Forall (fun e => entry_is_regular e = false) suffix -> answers_of suffix = [].
Proof.
  induction 1 as [|e suffix He _ IH]; [reflexivity|].
  destruct e; simpl; [discriminate | exact IH | exact IH].
Qed.

Lemma elapsed_sum_snoc l a :
  foldr (fun a s => (a_elapsed a + s)%Z) 0%Z (l ++ [a]) =
    (foldr (fun a s => (a_elapsed a + s)%Z) 0%Z l + a_elapsed a)%Z.
Proof. induction l as [|x l IH]; simpl; [lia | rewrite IH; lia]. Qed.

Section ClockFacts.
Context `{E : Expr}.
Variable store : template_question -> language_t -> option template_question_localization.

Lemma answer_service_is_submit fuel it payload ip now it' lq :
  answer_service store fuel it payload ip now = Ok (it', lq) ->
  exists elapsed total_elapsed,
    calculate_elapsed_times it now = Ok (elapsed, total_elapsed) /\
    submit store (i_questions it) (i_language it) (i_start_timestamp it) fuel it
      payload ip elapsed total_elapsed = Ok (it', lq).
Proof.
  unfold answer_service, submit. intros H.
  apply rbind_ok in H as (p & Hp & H). rewrite Hp. simpl.
  apply rbind_ok in H as ([] & Hs1 & H). rewrite Hs1. simpl.
  apply rbind_ok in H as ([] & Hs2 & H). rewrite Hs2. simpl.
  apply rbind_ok in H as (locs & Hlocs & H). rewrite Hlocs. simpl.
  apply rbind_ok in H as ([elapsed total_elapsed] & Htimes & H).
  exists elapsed, total_elapsed. split; [exact Htimes | exact H].
Qed.

Lemma calculate_elapsed_times_facts it now elapsed total_elapsed :
  calculate_elapsed_times it now = Ok (elapsed, total_elapsed) ->
  total_elapsed = (now - i_start_timestamp it)%Z /\
  elapsed = (total_elapsed - total_elapsed_at_end (i_history it))%Z.
Proof.
  unfold calculate_elapsed_times, total_elapsed_at_end, last_answer.
  destruct (i_history it) as [|e h] eqn:Hh.
  - intros H. injection H as <- <-. simpl. split; [reflexivity | lia].
  - rewrite last_answer_from_reverse. intros H.
    apply rbind_ok in H as (a & Ha & H). apply or_throw_ok in Ha.
    injection H as <- <-. rewrite Ha. unfold get_timestamp.
    split; [reflexivity | lia].
Qed.
End ClockFacts.

(** X25. The answer service stamps an answer with the time since the
    start of the interview and with the time since the previous answer,
    the difference of the two totals. If the times the answers of a
    history took add up to the total of its last answer, they still do
    once an answer has been accepted. *)
Theorem answer_times_add_up `{E : Expr}
    (store : template_question -> language_t -> option template_question_localization)
    (fuel : nat) (it : interview) (payload : option answer_payload) (ip : string)
    (now : time_t) (it' : interview) (lq : localized_question) :
  answer_service store fuel it payload ip now = Ok (it', lq) ->
  total_elapsed_at_end (i_history it') = (now - i_start_timestamp it)%Z /\
  (elapsed_sum (i_history it) = total_elapsed_at_end (i_history it) ->
   elapsed_sum (i_history it') = total_elapsed_at_end (i_history it')).
Proof.
  intros H.
  apply answer_service_is_submit in H as (elapsed & total_elapsed & Htimes & H).
  apply calculate_elapsed_times_facts in Htimes as [Htotal Helapsed].
  destruct (submit_facts _ _ _ _ _ _ _ _ _ _ _ H)
    as (nq & a & suffix & q' & x' & _ & _ & _ & _ & He & Ht & Hh & Hs & _).
  assert (Hanswers : answers_of (i_history it') = answers_of (i_history it) ++ [a]).
  { rewrite Hh, answers_of_app. simpl.
    rewrite (answers_of_loop_entries _ Hs). reflexivity. }
  assert (Hend : total_elapsed_at_end (i_history it') = total_elapsed).
  { unfold total_elapsed_at_end. rewrite Hanswers, last_snoc. exact Ht. }
  split; [congruence|].
  intros Hsum. rewrite Hend. unfold elapsed_sum in *.
  rewrite Hanswers, elapsed_sum_snoc, Hsum, He, Helapsed. lia.
Qed.

(** ** The texts and the conditions of a compiled questionnaire *)

Lemma rmap_length {A B} (f : A -> result B) l l' :
  rmap f l = Ok l' -> length l' = length l.
Proof.
  revert l'. induction l as [|x l IH]; simpl; intros l' H.
  - injection H as <-. reflexivity.
  - bind_inv H. bind_inv H. injection H as <-. simpl. f_equal. auto.
Qed.

Lemma rmap_elem {A B} (f : A -> result B) (P : B -> Prop) :
  (forall a b, f a = Ok b -> P b) ->
  forall l l', rmap f l = Ok l' -> Forall P l'.
Proof.
  intros Hf l. induction l as [|x l IH]; simpl; intros l' H.
  - injection H as <-. constructor.
  - bind_inv H. bind_inv H. injection H as <-. constructor; eauto.
Qed.

Section CompiledTexts.
Variable js_compile : string -> bool.
Variable template_library : gmap string template_question.

Lemma compile_first_texts qs m sq q o :
  source_question_compile_first template_library qs m sq = Ok (q, o) ->
  (forall b, q_variant q = q_with_body b ->
             qb_text_functions b = [] /\ sq_is_inline sq = true) /\
  (forall qlb, o = Some qlb -> qlb_text qlb = text_value (sq_text sq)).
Proof.
  unfold source_question_compile_first, sq_is_inline, sq_text.
  destruct (sq_variant sq) eqn:Hv; intros H; unfold_ok H;
    try (injection H as <- <-);
    repeat match goal with
           | Hq : make_question _ _ = Ok _ |- _ =>
               apply make_question_ok in Hq; destruct Hq as [? ?]
           end;
    subst; simpl;
    (split; [intros b Hb; try discriminate; injection Hb as <-; auto
            | intros qlb Hq; try discriminate; injection Hq as <-; reflexivity]).
Qed.

Lemma first_pass_step_texts read s osq s' :
  first_pass_invariant s ->
  length read = length (qq_questions (fp_qq s)) ->
  first_pass_texts read s ->
  first_pass_step template_library s osq = Ok s' ->
  first_pass_texts (read ++ [osq]) s'.
Proof.
  intros [Hqn _] Hlen [Hbodies Htexts] H. unfold first_pass_step in H.
  apply rbind_ok in H as (sq & Hsq & H). apply or_throw_ok in Hsq. subst osq.
  apply rbind_ok in H as ([q oqlb] & Hfirst & H).
  throw_inv H.
  apply rbind_ok in H as ([m ln] & _ & H).
  injection H as <-.
  destruct (compile_first_texts _ _ _ _ _ Hfirst) as [Hb Ht].
  unfold first_pass_texts. simpl. split.
  - intros i q0 b Hq0 Hv.
    apply lookup_app_Some in Hq0 as [Hq0|[Hge Hq0]].
    + destruct (Hbodies i q0 b Hq0 Hv) as (Hnil & sq0 & Hr & Hin).
      split; [exact Hnil|]. exists sq0. split; [|exact Hin].
      apply lookup_app_l_Some. exact Hr.
    + apply list_lookup_singleton_Some in Hq0 as [Hi ->].
      destruct (Hb b Hv) as [Hnil Hin]. split; [exact Hnil|].
      exists sq. split; [|exact Hin].
      assert (i = length read) as -> by lia.
      apply list_lookup_middle. reflexivity.
  - intros ql Hql.
    assert (Hcases : ql ∈ qql_questions_localizations (fp_ql s) \/
                     exists qlb, oqlb = Some qlb /\
                                 ql = {| qloc_question := fp_qn s; qloc_body := qlb |}).
    { destruct oqlb as [qlb|]; simpl in Hql; [|left; exact Hql].
      apply elem_of_app in Hql as [Hql|Hql]; [left; exact Hql|].
      apply list_elem_of_singleton in Hql. right. eauto. }
    destruct Hcases as [Hold|(qlb & -> & ->)].
    + destruct (Htexts ql Hold) as (sq0 & Hr & Ht0).
      exists sq0. split; [|exact Ht0]. apply lookup_app_l_Some. exact Hr.
    + exists sq. simpl. split; [|apply Ht; reflexivity].
      rewrite Hqn, <- Hlen. apply list_lookup_middle. reflexivity.
Qed.

Lemma first_pass_texts_hold src s :
  first_pass template_library src = Ok s ->
  first_pass_texts (sqq_questions src) s.
Proof.
  unfold first_pass. intros H.
  apply (rfold_prefix_invariant _
           (fun pre s => (first_pass_invariant s /\ first_pass_shape pre s) /\
                         first_pass_texts pre s)
           (fun pre s x s' Hs Hx =>
              conj (conj (first_pass_step_invariant js_compile template_library
                            s x s' (proj1 (proj1 Hs)) Hx)
                         (first_pass_step_shape template_library pre s x s'
                            (proj1 (proj1 Hs)) (proj2 (proj1 Hs)) Hx))
                   (first_pass_step_texts pre s x s' (proj1 (proj1 Hs))
                      (Forall2_length _ _ _ (proj1 (proj2 (proj1 Hs))))
                      (proj2 Hs) Hx))
           _ [] _ _) in H; [exact (proj2 H)|].
  split; [split|].
  - split; [reflexivity|]. intros i q Hq. simpl in Hq.
    rewrite lookup_nil in Hq. discriminate.
  - unfold first_pass_shape. simpl.
    split; [constructor|]. split; [constructor|]. split; [reflexivity|].
    split; [|split; [|reflexivity]].
    + intros label info Hl. rewrite lookup_empty in Hl. discriminate.
    + intros i q Hq. rewrite lookup_nil in Hq. discriminate.
  - split.
    + intros i q b Hq. simpl in Hq. rewrite lookup_nil in Hq. discriminate.
    + intros ql Hql. simpl in Hql. inversion Hql.
Qed.

(** *** The second pass, with the source of each question *)

Lemma second_pass_raw m sqs :
  forall qi qs out,
    (forall i q, qi <= i -> qs !! i = Some q -> q_transitions q = []) ->
    qi + length sqs <= length qs ->
    second_pass js_compile m qs qi sqs = Ok out ->
    forall i,
      qi <= i < qi + length sqs ->
      exists sq q q' qqi mid,
        sqs !! (i - qi) = Some (Some sq) /\
        qs !! i = Some q /\ out !! i = Some q' /\
        m !! q_label q = Some qqi /\
        length mid = length qs /\
        q_transitions q = [] /\
        source_question_compile_second js_compile m qqi i mid q sq = Ok q'.
Proof.
  induction sqs as [|osq sqs IH]; simpl; intros qi qs out Hnil Hlen H i Hi; [lia|].
  apply rbind_ok in H as (sq & Hsq & H). apply or_throw_ok in Hsq. subst osq.
  apply rbind_ok in H as (q & Hq & H). apply or_throw_ok in Hq.
  apply rbind_ok in H as (qqi & Hqqi & H). apply or_throw_ok in Hqqi.
  apply rbind_ok in H as (q' & Hq' & H).
  assert (Hnil' : forall j q0, S qi <= j -> <[qi := q']> qs !! j = Some q0 ->
                               q_transitions q0 = []).
  { intros j q0 Hj Hq0. rewrite list_lookup_insert_ne in Hq0 by lia.
    apply (Hnil j q0); [lia | exact Hq0]. }
  assert (Hlen' : S qi + length sqs <= length (<[qi := q']> qs))
    by (rewrite length_insert; lia).
  destruct (decide (i = qi)) as [->|Hne].
  - exists sq, q, q', qqi, qs. rewrite Nat.sub_diag.
    split; [reflexivity|]. split; [exact Hq|]. split.
    { destruct (second_pass_pointwise _ _ _ _ _ _ Hnil' Hlen' H) as [_ Hall].
      destruct (Hall qi) as [Hsame _]. rewrite Hsame by lia.
      apply list_lookup_insert_eq. apply lookup_lt_Some in Hq. exact Hq. }
    split; [exact Hqqi|]. split; [reflexivity|].
    split; [apply (Hnil qi q (Nat.le_refl _) Hq) | exact Hq'].
  - destruct (IH _ _ _ Hnil' Hlen' H i ltac:(lia))
      as (sq0 & q0 & q0' & qqi0 & mid & Hs0 & Hq0 & Hq0' & Hm0 & Hmid & Ht0 & Hc0).
    exists sq0, q0, q0', qqi0, mid.
    replace (i - qi) with (S (i - S qi)) by lia. simpl.
    rewrite list_lookup_insert_ne in Hq0 by lia.
    rewrite length_insert in Hmid. auto 10.
Qed.

(** *** Conditions *)

Lemma compile_transition_not_last m qs q qqi pushed ot t :
  compile_transition js_compile m qs q qqi pushed false ot = Ok t ->
  is_catch_all t = false.
Proof.
  unfold compile_transition. intros H.
  apply rbind_ok in H as (st & _ & H). throw_inv H. simpl in Hu.
  destruct (m !! st_destination st) as [dqi|]; [|discriminate].
  throw_inv H. throw_inv H.
  apply rbind_ok in H as (dq & _ & H).
  apply rbind_ok in H as ([] & _ & H).
  apply rbind_ok in H as (ocode & Hcode & H).
  apply rbind_ok in H as (ps & _ & H).
  throw_inv H. injection H as <-.
  unfold is_catch_all, function_empty. simpl.
  unfold transition_code in Hcode.
  destruct (string_empty (st_condition st)) eqn:Hc; simpl in *.
  - injection Hcode as <-. exact Hu.
  - throw_inv Hcode. injection Hcode as <-. exact Hc.
Qed.

Lemma compile_transitions_loop_catch_all m qs q qqi ts :
  forall pushed out,
    Forall (fun t => is_catch_all t = false) pushed ->
    compile_transitions_loop js_compile m qs q qqi pushed ts = Ok out ->
    out = pushed \/
    exists pre t, out = pre ++ [t] /\ Forall (fun t => is_catch_all t = false) pre.
Proof.
  induction ts as [|ot ts IH]; simpl; intros pushed out Hp H.
  - injection H as <-. left. reflexivity.
  - apply rbind_ok in H as (t & Ht & H). right.
    destruct ts as [|ot' ts'].
    + simpl in H. injection H as <-. eauto.
    + apply compile_transition_not_last in Ht.
      apply IH in H as [->|H].
      * eauto.
      * exact H.
      * apply Forall_app. split; [exact Hp|]. constructor; [exact Ht | constructor].
Qed.

Lemma compile_transitions_catch_all m qqi qi qs q sq ts pre t :
  compile_transitions js_compile m qqi qi qs q sq = Ok ts ->
  ts = pre ++ [t] ->
  Forall (fun t' => is_catch_all t' = false) pre.
Proof.
  unfold compile_transitions. intros H Hts.
  destruct (sq_transitions sq) as [|ot sts] eqn:Hsq.
  - destruct (can_be_final q).
    + injection H as <-. destruct pre; discriminate.
    + throw_inv H. destruct (qs !! S qi); [|discriminate].
      injection H as <-.
      destruct pre as [|? [|? ?]]; [constructor | discriminate | discriminate].
  - apply rbind_ok in H as (last & _ & H). throw_inv H.
    apply compile_transitions_loop_catch_all in H as [->|(pre' & t' & -> & Hpre)];
      [destruct pre; discriminate | | constructor].
    apply app_inj_tail in Hts as [-> _]. exact Hpre.
Qed.

Lemma compile_transition_reads m qs q qqi pushed is_last ot t n :
  (forall label info, m !! label = Some info -> qi_index info < n) ->
  compile_transition js_compile m qs q qqi pushed is_last ot = Ok t ->
  forall c p, t_condition t = Some c -> p ∈ f_parameters c -> p < n.
Proof.
  unfold compile_transition. intros Hm H.
  apply rbind_ok in H as (st & _ & H). throw_inv H.
  destruct (m !! st_destination st) as [dqi|]; [|discriminate].
  throw_inv H. throw_inv H.
  apply rbind_ok in H as (dq & _ & H).
  apply rbind_ok in H as ([] & _ & H).
  apply rbind_ok in H as (ocode & _ & H).
  apply rbind_ok in H as (ps & Hps & H).
  throw_inv H. injection H as <-. simpl.
  intros c p Hc Hp. injection Hc as <-. simpl in Hp.
  assert (Hall : Forall (fun p => p < n) ps).
  { eapply rmap_elem; [|exact Hps].
    intros par p0. unfold compile_transition_parameter.
    destruct (m !! par) as [pqi|] eqn:Hpar; [|discriminate].
    intros Heq. injection Heq as <-. eauto. }
  rewrite Forall_forall in Hall. auto.
Qed.

Lemma compile_transitions_loop_reads m qs q qqi n ts :
  (forall label info, m !! label = Some info -> qi_index info < n) ->
  forall pushed out,
    Forall (fun t => forall c p, t_condition t = Some c -> p ∈ f_parameters c -> p < n)
      pushed ->
    compile_transitions_loop js_compile m qs q qqi pushed ts = Ok out ->
    Forall (fun t => forall c p, t_condition t = Some c -> p ∈ f_parameters c -> p < n)
      out.
Proof.
  intros Hm. induction ts as [|ot ts IH]; simpl; intros pushed out Hp H.
  - injection H as <-. exact Hp.
  - apply rbind_ok in H as (t & Ht & H). apply (IH _ _) in H; [exact H|].
    apply Forall_app. split; [exact Hp|]. constructor; [|constructor].
    eapply compile_transition_reads; eauto.
Qed.

Lemma compile_transitions_reads m qqi qi qs q sq ts n :
  (forall label info, m !! label = Some info -> qi_index info < n) ->
  compile_transitions js_compile m qqi qi qs q sq = Ok ts ->
  Forall (fun t => forall c p, t_condition t = Some c -> p ∈ f_parameters c -> p < n) ts.
Proof.
  unfold compile_transitions. intros Hm H.
  destruct (sq_transitions sq) as [|ot sts] eqn:Hsq.
  - destruct (can_be_final q).
    + injection H as <-. constructor.
    + throw_inv H. destruct (qs !! S qi); [|discriminate].
      injection H as <-. constructor; [|constructor].
      intros c p Hc. discriminate.
  - apply rbind_ok in H as (last & _ & H). throw_inv H.
    eapply compile_transitions_loop_reads; [exact Hm | constructor | exact H].
Qed.

(** *** Texts *)

Lemma source_text_compile_facts m qqi st fs :
  source_text_compile m qqi st = Ok fs ->
  length fs = length (stx_functions st) /\
  validate_parametric_text (stx_value st) (length (stx_functions st)) = Ok tt /\
  Forall (fun f => forall p, p ∈ f_parameters f -> p < qi_index qqi) fs.
Proof.
  unfold source_text_compile. intros H.
  apply rbind_ok in H as (fs' & Hfs & H).
  apply rbind_ok in H as ([] & Hv & H). injection H as <-.
  split; [eapply rmap_length; eauto|]. split; [exact Hv|].
  eapply rmap_elem; [|exact Hfs].
  intros osf f Hf. simpl in Hf.
  apply rbind_ok in Hf as (sf & _ & Hf).
  unfold source_function_compile in Hf. throw_inv Hf.
  apply rbind_ok in Hf as (ps & Hps & Hf). injection Hf as <-. simpl.
  assert (Hall : Forall (fun p => p < qi_index qqi) ps).
  { eapply rmap_elem; [|exact Hps].
    intros par p0. unfold compile_function_parameter.
    destruct (m !! par) as [pqi|]; [|discriminate].
    intros Hp. throw_inv Hp. throw_inv Hp. throw_inv Hp. injection Hp as <-.
    apply Nat.eqb_neq in Hu0. apply Nat.ltb_ge in Hu1. lia. }
  rewrite Forall_forall in Hall. auto.
Qed.

(** what the second pass makes of the question [q] the first pass
    made of the source question [sq], placed at position [i] of [n] *)
Lemma second_step_conditions m qqi i mid q sq q' n :
  (forall label info, m !! label = Some info -> qi_index info < n) ->
  qi_index qqi = i ->
  q_transitions q = [] ->
  source_question_compile_second js_compile m qqi i mid q sq = Ok q' ->
  catch_all_only_last q' /\
  transitions_read_within n q' /\
  forall b,
    q_variant q = q_with_body b -> qb_text_functions b = [] -> sq_is_inline sq = true ->
    exists st b',
      sq_text sq = Some st /\ q_variant q' = q_with_body b' /\
      length (qb_text_functions b') = length (stx_functions st) /\
      validate_parametric_text (stx_value st) (length (stx_functions st)) = Ok tt /\
      Forall (fun f => forall p, p ∈ f_parameters f -> p < i) (qb_text_functions b').
Proof.
  intros Hm Hi Hnil H. unfold source_question_compile_second in H.
  apply rbind_ok in H as (ts & Hts & H). rewrite Hnil in H. simpl in H.
  assert (Htrans : q_transitions q' = ts).
  { destruct (sq_is_inline sq).
    - apply rbind_ok in H as (st & _ & H). apply rbind_ok in H as (fs & _ & H).
      injection H as <-. unfold set_text_functions, set_transitions. simpl.
      destruct (q_variant q); reflexivity.
    - injection H as <-. reflexivity. }
  split; [|split].
  - intros pre t Hq'. rewrite Htrans in Hq'.
    eapply compile_transitions_catch_all; eauto.
  - intros t c p Ht. rewrite Htrans in Ht.
    pose proof (compile_transitions_reads _ _ _ _ _ _ _ _ Hm Hts) as Hall.
    rewrite Forall_forall in Hall. apply (Hall t Ht).
  - intros b Hb Hfs Hinline. rewrite Hinline in H.
    apply rbind_ok in H as (st & Hst & H). apply or_throw_ok in Hst.
    apply rbind_ok in H as (fs & Hcompile & H). injection H as <-.
    destruct (source_text_compile_facts _ _ _ _ Hcompile) as (Hlen & Hv & Hps).
    unfold set_text_functions, set_transitions. simpl. rewrite Hb. simpl.
    eexists st, _. split; [exact Hst|]. split; [reflexivity|]. simpl.
    rewrite Hfs. simpl. rewrite Hi in Hps. auto.
Qed.

Lemma compiled_conditions src qq ql i q' :
  compile js_compile template_library src = Ok (qq, ql) ->
  qq_questions qq !! i = Some q' ->
  catch_all_only_last q' /\
  transitions_read_within (length (qq_questions qq)) q' /\
  forall b',
    q_variant q' = q_with_body b' ->
    Forall (fun f => forall p, p ∈ f_parameters f -> p < i) (qb_text_functions b') /\
    exists sq st,
      sqq_questions src !! i = Some (Some sq) /\ sq_text sq = Some st /\
      length (qb_text_functions b') = length (stx_functions st) /\
      validate_parametric_text (stx_value st) (length (stx_functions st)) = Ok tt.
Proof.
  intros H Hq'.
  pose proof H as Hcompile.
  unfold compile in H. throw_inv H. throw_inv H.
  apply rbind_ok in H as (s & Hs & H). throw_inv H.
  apply rbind_ok in H as (lq & _ & H).
  apply rbind_ok in H as ([] & _ & H).
  apply rbind_ok in H as (out & Hout & H).
  injection H as <- <-. simpl in *.
  destruct (first_pass_shape_holds js_compile _ _ _ Hs)
    as [[Hqn Hinv] (Hlabels & _ & _ & Hm & _)].
  destruct (first_pass_texts_hold _ _ Hs) as [Hbodies _].
  pose proof (Forall2_length _ _ _ Hlabels) as Hlen.
  assert (Hnil : forall j q, 0 <= j -> qq_questions (fp_qq s) !! j = Some q ->
                             q_transitions q = []).
  { intros j q _ Hq. apply (Hinv j q Hq). }
  assert (Hfits : 0 + length (sqq_questions src) <= length (qq_questions (fp_qq s)))
    by (simpl; lia).
  destruct (second_pass_pointwise _ _ _ _ _ _ Hnil Hfits Hout) as [Hlenout _].
  destruct (second_pass_raw _ _ _ _ _ Hnil Hfits Hout i)
    as (sq & q & q0' & qqi & mid & Hsq & Hq & Hq0' & Hqqi & Hmid & Ht & Hstep).
  { apply lookup_lt_Some in Hq'. lia. }
  rewrite Nat.sub_0_r in Hsq.
  assert (q0' = q') as -> by congruence.
  assert (Hidx : qi_index qqi = i).
  { destruct (Hinv i q Hq) as ((info & Hinfo & Hi) & _). congruence. }
  destruct (second_step_conditions _ _ _ _ _ _ _ _ Hm Hidx Ht Hstep) as (H1 & H2 & H3).
  split; [exact H1|]. split; [rewrite Hlenout; exact H2|].
  intros b' Hb'.
  destruct (second_pass_pointwise _ _ _ _ _ _ Hnil Hfits Hout) as [_ Hall].
  destruct (Hall i) as [_ Hdone].
  destruct Hdone as (q1 & q1' & Hq1 & Hq1' & [Hk _]).
  { apply lookup_lt_Some in Hq'. simpl. lia. }
  assert (q1 = q) as -> by congruence. assert (q1' = q') as -> by congruence.
  destruct Hk as [_ Hk]. rewrite Hb' in Hk.
  destruct (q_variant q) as [b| | |] eqn:Hb; try discriminate.
  destruct (Hbodies i q b Hq Hb) as (Hfs & sq0 & Hsq0 & Hinline).
  assert (sq0 = sq) as -> by congruence.
  destruct (H3 b eq_refl Hfs Hinline) as (st & b'' & Hst & Hb'' & Hl & Hv & Hps).
  assert (b'' = b') as -> by congruence.
  split; [exact Hps|]. exists sq, st. auto.
Qed.
End CompiledTexts.

(** X26. In a compiled questionnaire no transition of a question but
    the last is a catch-all: each of them has a condition with code. *)
Theorem compiled_catch_all_is_last
    (js : string -> bool) (library : gmap string template_question)
    (src : source_questionnaire) (qq : questionnaire) (ql : questionnaire_localization)
    (i : qref) (q : question) (pre : list transition) (t : transition) :
  compile js library src = Ok (qq, ql) ->
  qq_questions qq !! i = Some q ->
  q_transitions q = pre ++ [t] ->
  Forall (fun t' => is_catch_all t' = false) pre.
Proof.
  intros H Hq. destruct (compiled_conditions _ _ _ _ _ _ _ H Hq) as (Hlast & _).
  apply Hlast.
Qed.

(** X27. In a compiled questionnaire the condition of a transition
    reads answers to questions of the questionnaire only, and a text
    function of a question only answers to questions placed before it:
    every parameter is the position of a question that exists. *)
Theorem compiled_functions_read_existing_questions
    (js : string -> bool) (library : gmap string template_question)
    (src : source_questionnaire) (qq : questionnaire) (ql : questionnaire_localization)
    (i : qref) (q : question) :
  compile js library src = Ok (qq, ql) ->
  qq_questions qq !! i = Some q ->
  transitions_read_within (length (qq_questions qq)) q /\
  text_functions_read_before i q.
Proof.
  intros H Hq. destruct (compiled_conditions _ _ _ _ _ _ _ H Hq) as (_ & Hwithin & Htexts).
  split; [exact Hwithin|].
  intros b f p Hb Hf Hp. destruct (Htexts b Hb) as [Hall _].
  rewrite Forall_forall in Hall. apply (Hall f Hf p Hp).
Qed.

(** X28. Each localization [compile] returns belongs to a question with
    a body of the compiled questionnaire, and its text is valid for the
    text functions of that body: rendering the question with it, on any
    stack and host, never fails with function-call-out-of-bounds. *)
Theorem compiled_texts_render_in_bounds
    (js : string -> bool) (library : gmap string template_question)
    (src : source_questionnaire) (qq : questionnaire) (ql : questionnaire_localization)
    (loc : question_localization) :
  compile js library src = Ok (qq, ql) ->
  loc ∈ qql_questions_localizations ql ->
  exists q b,
    qq_questions qq !! qloc_question loc = Some q /\
    q_variant q = q_with_body b /\
    validate_parametric_text (qlb_text (qloc_body loc)) (length (qb_text_functions b))
      = Ok tt /\
    forall (E : Expr) (lang : language_t) (ts : the_stack),
      calculate_text (qq_questions qq) lang b ts (qlb_text (qloc_body loc))
        <> Err function_call_out_of_bounds.
Proof.
  intros H Hloc.
  destruct (compiled_localization_positions _ _ _ _ _ H) as (Hpos & _).
  assert (Hin : qloc_question loc ∈ localized_positions (qq_questions qq) 0).
  { rewrite <- Hpos. apply list_elem_of_fmap. eauto. }
  apply localized_positions_elem in Hin as (_ & q & Hq & Hs).
  rewrite Nat.sub_0_r in Hq.
  unfold supports_localization in Hs.
  destruct (q_variant q) as [b| | |] eqn:Hb; try discriminate.
  destruct (compiled_conditions _ _ _ _ _ _ _ H Hq) as (_ & _ & Htexts).
  destruct (Htexts b Hb) as (_ & sq & st & Hsq & Hst & Hlen & Hv).
  destruct (compile_shape _ _ _ _ _ H) as (s & lq & Hs' & _ & -> & _).
  destruct (first_pass_texts_hold js _ _ _ Hs') as [_ Hlocs].
  destruct (Hlocs loc Hloc) as (sq' & Hsq' & Htext).
  assert (sq' = sq) as ->.
  { pose proof (eq_trans (eq_sym Hsq') Hsq) as Heq. injection Heq. auto. }
  rewrite Hst in Htext. simpl in Htext.
  assert (Hvalid : validate_parametric_text (qlb_text (qloc_body loc))
                     (length (qb_text_functions b)) = Ok tt)
    by (rewrite Htext, Hlen; exact Hv).
  exists q, b. repeat split; auto.
  intros E lang ts. apply validated_text_in_bounds. exact Hvalid.
Qed.

(** ** The properties on the sample questionnaires *)

Lemma loop_source_compiles :
  compile accept_all ∅ loop_source = Ok (compiled loop_source, compiled_localization loop_source).
Proof. vm_compute. reflexivity. Qed.

Lemma branch_source_compiles :
  compile accept_all ∅ branch_source
    = Ok (compiled branch_source, compiled_localization branch_source).
Proof. vm_compute. reflexivity. Qed.

Lemma code_last_source_compiles :
  compile accept_all ∅ code_last_source
    = Ok (compiled code_last_source, compiled_localization code_last_source).
Proof. vm_compute. reflexivity. Qed.

Lemma loop_source_has_no_template i q tq :
  qq_questions (compiled loop_source) !! i = Some q ->
  q_variant q = q_from_template tq ->
  no_template_localization tq (sqq_language loop_source) <> None.
Proof.
  intros Hq Hv. exfalso.
  assert (Hall : Forall (fun q => forall tq, q_variant q <> q_from_template tq)
                   (qq_questions (compiled loop_source))).
  { vm_compute.
    repeat (apply List.Forall_cons; [intros tq' Hx; discriminate Hx|]).
    apply List.Forall_nil. }
  exact (Forall_lookup_1 _ _ _ _ Hall Hq tq Hv).
Qed.

Lemma calculate_keeps_last_answers_witness :
  Forall (fun e => entry_loop_type e = regular)
    (take 1 [entry_answer (letters_answer "ab")]) /\
  exists ts,
    calculate (qq_questions (compiled loop_source)) 0 [entry_answer (letters_answer "ab")] 1
      = Ok ts /\
    ts_vector ts = [] /\
    forall q, find_answer ts q
              = last_answer_to q (answers_of (take 1 [entry_answer (letters_answer "ab")])).
Proof.
  assert (H : Forall (fun e => entry_loop_type e = regular)
                (take 1 [entry_answer (letters_answer "ab")]))
    by (repeat constructor).
  split; [exact H|].
  exact (calculate_keeps_last_answers (qq_questions (compiled loop_source)) 0
           [entry_answer (letters_answer "ab")] 1 H).
Defined.

Lemma plain_text_is_rendered_verbatim_witness :
  mentions eval_prefix "Bye" = false /\
  validate_parametric_text "Bye" 0 = Ok tt /\
  calculate_text [] 0 twelve_body empty_stack "Bye" = Ok ("Bye", empty_stack).
Proof.
  assert (H : mentions eval_prefix "Bye" = false) by reflexivity.
  destruct (plain_text_is_rendered_verbatim [] 0 twelve_body empty_stack "Bye" 0 H)
    as (Hv & Hc & _).
  split; [exact H|]. split; [exact Hv | exact Hc].
Defined.

Lemma validated_text_stays_in_bounds_witness :
  validate_parametric_text "@{3}" (length (qb_text_functions twelve_body)) = Ok tt /\
  calculate_text [] 0 twelve_body empty_stack "@{3}" <> Err function_call_out_of_bounds.
Proof.
  assert (H : validate_parametric_text "@{3}" (length (qb_text_functions twelve_body)) = Ok tt)
    by (vm_compute; reflexivity).
  split; [exact H|].
  exact (validated_text_stays_in_bounds [] 0 twelve_body empty_stack "@{3}" H).
Defined.

Lemma find_answer_at_most_finds_nearest_witness :
  3 < length (i_history loop_interview_3) /\
  exists i,
    find_answer_at_most (i_history loop_interview_3) 3 = Ok i /\
    i <= 3 /\
    (i = 0 \/ exists e, i_history loop_interview_3 !! i = Some e /\ entry_is_regular e = true) /\
    forall j e, i < j <= 3 -> i_history loop_interview_3 !! j = Some e ->
                entry_is_regular e = false.
Proof.
  assert (H : 3 < length (i_history loop_interview_3)) by (vm_compute; lia).
  split; [exact H|].
  exact (proj2 (find_answer_at_most_finds_nearest (i_history loop_interview_3) 3) H).
Defined.

Lemma find_answer_at_least_finds_nearest_witness :
  find_answer_at_least (i_history loop_interview_3) 1 = Ok 2 /\
  1 <= 2 /\
  (exists e, i_history loop_interview_3 !! 2 = Some e /\ entry_is_regular e = true) /\
  forall j e, 1 <= j < 2 -> i_history loop_interview_3 !! j = Some e ->
              entry_is_regular e = false.
Proof.
  assert (H : find_answer_at_least (i_history loop_interview_3) 1 = Ok 2)
    by (vm_compute; reflexivity).
  split; [exact H|].
  exact (proj1 (proj1 (find_answer_at_least_finds_nearest (i_history loop_interview_3) 1) 2) H).
Defined.

Lemma rank_follows_find_question_witness :
  find_question (compiled branch_source) "q3" = Some 2 /\
  get_question_rank (compiled branch_source)
    {| q_label := "q3"; q_transitions := []; q_variant := q_end_loop |} = 3 /\
  get_question_rank (compiled branch_source)
    {| q_label := "q3"; q_transitions := []; q_variant := q_end_loop |}
    <= length (qq_questions (compiled branch_source)).
Proof.
  assert (H : find_question (compiled branch_source) "q3" = Some 2)
    by (vm_compute; reflexivity).
  split; [exact H|].
  exact (proj1 (rank_follows_find_question (compiled branch_source)
                  {| q_label := "q3"; q_transitions := []; q_variant := q_end_loop |}) 2 H).
Defined.

Lemma check_orphans_finds_first_orphan_witness :
  check_orphans (compiled branch_source) = no_orphan /\
  forall i, 0 < i < length (qq_questions (compiled branch_source)) ->
            is_targeted (qq_questions (compiled branch_source)) i.
Proof.
  assert (H : check_orphans (compiled branch_source) = no_orphan)
    by (vm_compute; reflexivity).
  split; [exact H|].
  exact (proj1 (proj1 (check_orphans_finds_first_orphan (compiled branch_source))) H).
Defined.

Lemma no_orphan_means_reachable_witness :
  check_orphans (compiled loop_source) = no_orphan /\
  5 < length (qq_questions (compiled loop_source)) /\
  reachable (qq_questions (compiled loop_source)) 5.
Proof.
  assert (H : check_orphans (compiled loop_source) = no_orphan)
    by (vm_compute; reflexivity).
  assert (Hi : 5 < length (qq_questions (compiled loop_source))) by (vm_compute; lia).
  split; [exact H|]. split; [exact Hi|].
  exact (no_orphan_means_reachable (compiled loop_source) 5 H Hi).
Defined.

Lemma force_check_accepts_complete_localizations_witness :
  force_check no_template_localization (compiled loop_source)
    (compiled_localization loop_source) = Ok tt /\
  NoDup (map qloc_question (qql_questions_localizations (compiled_localization loop_source))) /\
  localization_is_complete no_template_localization (compiled loop_source)
    (compiled_localization loop_source).
Proof.
  assert (H : force_check no_template_localization (compiled loop_source)
                (compiled_localization loop_source) = Ok tt)
    by (vm_compute; reflexivity).
  split; [exact H|].
  exact (proj1 (proj1 (force_check_accepts_complete_localizations no_template_localization
                         (compiled loop_source) (compiled_localization loop_source))) H).
Defined.

Lemma dump_agrees_with_find_question_localization_witness :
  i_questionnaire_localization loop_interview_0 = Some (compiled_localization loop_source) /\
  dump_localizations ∅ (qql_questions_localizations (compiled_localization loop_source))
    = Ok loop_localizations /\
  find_question_localization loop_interview_0 2 = Ok (loop_localizations !! 2) /\
  find_question_localization loop_interview_0 1 = Ok (loop_localizations !! 1).
Proof.
  assert (H : i_questionnaire_localization loop_interview_0
              = Some (compiled_localization loop_source)) by (vm_compute; reflexivity).
  assert (Hm : dump_localizations ∅
                 (qql_questions_localizations (compiled_localization loop_source))
               = Ok loop_localizations) by (vm_compute; reflexivity).
  split; [exact H|]. split; [exact Hm|].
  split.
  - exact (dump_agrees_with_find_question_localization loop_interview_0 _ _ 2 H Hm).
  - exact (dump_agrees_with_find_question_localization loop_interview_0 _ _ 1 H Hm).
Defined.

Lemma compiled_questions_keep_distinct_labels_witness :
  compile accept_all ∅ loop_source
    = Ok (compiled loop_source, compiled_localization loop_source) /\
  NoDup (map q_label (qq_questions (compiled loop_source))) /\
  forall i q, qq_questions (compiled loop_source) !! i = Some q ->
              find_question (compiled loop_source) (q_label q) = Some i.
Proof.
  split; [exact loop_source_compiles|].
  destruct (compiled_questions_keep_distinct_labels accept_all ∅ loop_source _ _
              loop_source_compiles) as (_ & _ & Hdistinct & Hfind).
  split; [exact Hdistinct | exact Hfind].
Defined.

Lemma compiled_first_question_is_regular_witness :
  compile accept_all ∅ loop_source
    = Ok (compiled loop_source, compiled_localization loop_source) /\
  exists q, qq_questions (compiled loop_source) !! 0 = Some q /\ get_loop_type q = regular.
Proof.
  split; [exact loop_source_compiles|].
  exact (compiled_first_question_is_regular accept_all ∅ loop_source _ _ loop_source_compiles).
Defined.

Lemma compiled_loops_are_closed_witness :
  exists q,
    qq_questions (compiled loop_source) !! 1 = Some q /\
    get_loop_type q = begin_loop /\
    exists e x,
      find_matching_end_loop (qq_questions (compiled loop_source)) 1 = Ok (Some e) /\
      1 < e /\ qq_questions (compiled loop_source) !! e = Some x /\ get_loop_type x = end_loop.
Proof.
  destruct (qq_questions (compiled loop_source) !! 1) as [q|] eqn:Hq;
    [|vm_compute in Hq; discriminate Hq].
  assert (Hb : get_loop_type q = begin_loop).
  { vm_compute in Hq. injection Hq as <-. reflexivity. }
  exists q. split; [reflexivity|]. split; [exact Hb|].
  exact (compiled_loops_are_closed accept_all ∅ loop_source _ _ 1 q
           loop_source_compiles Hq Hb).
Defined.

Lemma compiled_questions_have_a_way_out_witness :
  exists q,
    qq_questions (compiled loop_source) !! 5 = Some q /\
    q_transitions q = [] /\
    S 5 = length (qq_questions (compiled loop_source)) /\
    is_final q = true.
Proof.
  destruct (qq_questions (compiled loop_source) !! 5) as [q|] eqn:Hq;
    [|vm_compute in Hq; discriminate Hq].
  assert (Ht : q_transitions q = []).
  { vm_compute in Hq. injection Hq as <-. reflexivity. }
  assert (Hlast : S 5 = length (qq_questions (compiled loop_source)))
    by (vm_compute; reflexivity).
  exists q. split; [reflexivity|]. split; [exact Ht|]. split; [exact Hlast|].
  exact (proj1 (compiled_questions_have_a_way_out accept_all ∅ loop_source _ _ 5 q
                  loop_source_compiles Hq) Ht).
Defined.

Lemma compiled_begin_loops_are_sound_witness :
  compile accept_all ∅ loop_source
    = Ok (compiled loop_source, compiled_localization loop_source) /\
  exists lq,
    dump_leveled (compiled loop_source) = Ok lq /\
    forall i q oq variable operand,
      qq_questions (compiled loop_source) !! i = Some q ->
      q_variant q = q_begin_loop oq variable operand ->
      oq < i /\
      (exists x, qq_questions (compiled loop_source) !! oq = Some x /\
                 supports_answer x = true) /\
      validate_label variable = true /\
      string_empty operand = false /\
      exists info oinfo,
        lq !! i = Some info /\ lq !! oq = Some oinfo /\
        qi_loop_nest info = qi_loop_nest oinfo.
Proof.
  split; [exact loop_source_compiles|].
  exact (compiled_begin_loops_are_sound accept_all ∅ loop_source _ _ loop_source_compiles).
Defined.

Lemma compiled_localization_passes_check_witness :
  compile accept_all ∅ loop_source
    = Ok (compiled loop_source, compiled_localization loop_source) /\
  force_check no_template_localization (compiled loop_source)
    (compiled_localization loop_source) = Ok tt /\
  exists ql', check no_template_localization (compiled loop_source)
                (compiled_localization loop_source) = Ok ql'.
Proof.
  split; [exact loop_source_compiles|].
  exact (compiled_localization_passes_check accept_all ∅ no_template_localization
           loop_source _ _ loop_source_compiles loop_source_has_no_template).
Defined.

Lemma compiled_transitions_run_forward_witness :
  compile accept_all ∅ branch_source
    = Ok (compiled branch_source, compiled_localization branch_source) /\
  run_transitions (qq_questions (compiled branch_source)) 0%Z chose_first 0 = Ok 2 /\
  0 < 2 < length (qq_questions (compiled branch_source)).
Proof.
  assert (H : run_transitions (qq_questions (compiled branch_source)) 0%Z chose_first 0 = Ok 2)
    by (vm_compute; reflexivity).
  split; [exact branch_source_compiles|]. split; [exact H|].
  exact (compiled_transitions_run_forward accept_all ∅ branch_source _ _ 0%Z chose_first 0 2
           branch_source_compiles H).
Defined.

Lemma submit_only_appends_witness :
  exists it' lq,
    interview_submit loop_interview_0 (answer_input_payload "" "ab") = Ok (it', lq) /\
    (exists a suffix,
        i_history it' = i_history loop_interview_0 ++ entry_answer a :: suffix /\
        i_next_question loop_interview_0 = Some (a_question a) /\
        a_elapsed a = 1%Z /\ a_total_elapsed a = 1%Z /\
        Forall (fun e => entry_is_regular e = false) suffix) /\
    i_questionnaire it' = i_questionnaire loop_interview_0.
Proof.
  destruct (interview_submit loop_interview_0 (answer_input_payload "" "ab"))
    as [[it' lq]|e] eqn:H; [|vm_compute in H; discriminate H].
  exists it', lq. split; [reflexivity|].
  destruct (submit_only_appends _ _ _ _ _ _ _ _ _ _ _ H) as (Hhistory & Hqq & _).
  split; [exact Hhistory | exact Hqq].
Defined.

Lemma submit_lands_on_a_question_witness :
  exists it' lq,
    interview_submit loop_interview_0 (answer_input_payload "" "ab") = Ok (it', lq) /\
    i_state loop_interview_0 = ongoing /\
    exists q' x',
      i_next_question it' = Some q' /\
      i_questions loop_interview_0 !! q' = Some x' /\
      supports_localization x' = true /\
      i_state it' = (if is_final x' then completed else ongoing).
Proof.
  destruct (interview_submit loop_interview_0 (answer_input_payload "" "ab"))
    as [[it' lq]|e] eqn:H; [|vm_compute in H; discriminate H].
  exists it', lq. split; [reflexivity|].
  exact (submit_lands_on_a_question _ _ _ _ _ _ _ _ _ _ _ H).
Defined.

Lemma revise_answer_keeps_a_subsequence_witness :
  exists it' lq,
    revise_answer no_template_localization (i_questions loop_interview_3) 0 0%Z true
      sample_fuel loop_interview_3 0 (letters_answer "abc") = Ok (it', lq) /\
    exists pa sub,
      i_history loop_interview_3 !! 0 = Some (entry_answer pa) /\
      a_question pa = a_question (letters_answer "abc") /\
      i_history it' =
        take 0 (i_history loop_interview_3)
          ++ entry_answer (grafted true pa (letters_answer "abc")) :: sub /\
      sublist sub (map (relink true pa (letters_answer "abc"))
                     (drop 1 (i_history loop_interview_3))) /\
      length (i_history it') <= length (i_history loop_interview_3).
Proof.
  destruct (revise_answer no_template_localization (i_questions loop_interview_3) 0 0%Z true
              sample_fuel loop_interview_3 0 (letters_answer "abc"))
    as [[it' lq]|e] eqn:H; [|vm_compute in H; discriminate H].
  exists it', lq. split; [reflexivity|].
  exact (revise_answer_keeps_a_subsequence _ _ _ _ _ _ _ _ _ _ _ H).
Defined.

Lemma interview_starts_once_witness :
  exists it',
    start no_template_localization (compiled_store loop_source)
      (new_interview (compiled loop_source)) 0 7%Z = Ok it' /\
    i_state (new_interview (compiled loop_source)) = initiated /\
    i_state it' <> initiated /\
    i_next_question it' = Some 0 /\
    is_ok (start no_template_localization (compiled_store loop_source) it' 0 8%Z) = false.
Proof.
  destruct (start no_template_localization (compiled_store loop_source)
              (new_interview (compiled loop_source)) 0 7%Z) as [it'|e] eqn:H;
    [|vm_compute in H; discriminate H].
  exists it'. split; [reflexivity|].
  destruct (interview_starts_once no_template_localization no_template_localization
              (compiled_store loop_source) (compiled_store loop_source)
              _ 0 0 7%Z 8%Z it' H) as (Hinit & Hstate & Hnext & _ & _ & Hagain).
  split; [exact Hinit|]. split; [exact Hstate|]. split; [exact Hnext | exact Hagain].
Defined.

Lemma compiled_interview_can_start_witness :
  compile accept_all ∅ loop_source
    = Ok (compiled loop_source, compiled_localization loop_source) /\
  compiled_store loop_source (compiled loop_source) (sqq_language loop_source)
    = Some (compiled_localization loop_source) /\
  i_state (new_interview (compiled loop_source)) = initiated /\
  exists it' q,
    start no_template_localization (compiled_store loop_source)
      (new_interview (compiled loop_source)) (sqq_language loop_source) 7%Z = Ok it' /\
    i_next_question it' = Some 0 /\
    i_questions it' !! 0 = Some q /\ get_loop_type q = regular.
Proof.
  split; [exact loop_source_compiles|]. split; [reflexivity|]. split; [reflexivity|].
  exact (compiled_interview_can_start accept_all ∅ no_template_localization
           (compiled_store loop_source) loop_source _ _
           (new_interview (compiled loop_source)) 7%Z
           loop_source_compiles loop_source_has_no_template eq_refl eq_refl eq_refl).
Defined.

Lemma answer_times_add_up_witness :
  exists it' lq,
    answer_service no_template_localization sample_fuel loop_interview_0
      (Some (answer_input_payload "" "ab")) "192.0.2.1" 5%Z = Ok (it', lq) /\
    total_elapsed_at_end (i_history it') = (5 - i_start_timestamp loop_interview_0)%Z /\
    elapsed_sum (i_history it') = total_elapsed_at_end (i_history it').
Proof.
  destruct (answer_service no_template_localization sample_fuel loop_interview_0
              (Some (answer_input_payload "" "ab")) "192.0.2.1" 5%Z)
    as [[it' lq]|e] eqn:H; [|vm_compute in H; discriminate H].
  exists it', lq. split; [reflexivity|].
  destruct (answer_times_add_up _ _ _ _ _ _ _ _ H) as (Htotal & Hsum).
  split; [exact Htotal|]. apply Hsum. reflexivity.
Defined.

Lemma compiled_catch_all_is_last_witness :
  exists q pre t,
    qq_questions (compiled code_last_source) !! 0 = Some q /\
    q_transitions q = pre ++ [t] /\
    length pre = 1 /\
    Forall (fun t' => is_catch_all t' = false) pre.
Proof.
  destruct (qq_questions (compiled code_last_source) !! 0) as [q|] eqn:Hq;
    [|vm_compute in Hq; discriminate Hq].
  assert (Ht : exists t1 t2, q_transitions q = [t1] ++ [t2]).
  { vm_compute in Hq. injection Hq as <-. eexists _, _. reflexivity. }
  destruct Ht as (t1 & t2 & Ht).
  exists q, [t1], t2. split; [reflexivity|]. split; [exact Ht|]. split; [reflexivity|].
  exact (compiled_catch_all_is_last accept_all ∅ code_last_source _ _ 0 q [t1] t2
           code_last_source_compiles Hq Ht).
Defined.

Lemma compiled_functions_read_existing_questions_witness :
  exists q,
    qq_questions (compiled branch_source) !! 0 = Some q /\
    transitions_read_within (length (qq_questions (compiled branch_source))) q /\
    text_functions_read_before 0 q.
Proof.
  destruct (qq_questions (compiled branch_source) !! 0) as [q|] eqn:Hq;
    [|vm_compute in Hq; discriminate Hq].
  exists q. split; [reflexivity|].
  exact (compiled_functions_read_existing_questions accept_all ∅ branch_source _ _ 0 q
           branch_source_compiles Hq).
Defined.

Lemma compiled_texts_render_in_bounds_witness :
  exists loc,
    loc ∈ qql_questions_localizations (compiled_localization loop_source) /\
    exists q b,
      qq_questions (compiled loop_source) !! qloc_question loc = Some q /\
      q_variant q = q_with_body b /\
      validate_parametric_text (qlb_text (qloc_body loc)) (length (qb_text_functions b))
        = Ok tt /\
      forall (E : Expr) (lang : language_t) (ts : the_stack),
        calculate_text (qq_questions (compiled loop_source)) lang b ts
          (qlb_text (qloc_body loc)) <> Err function_call_out_of_bounds.
Proof.
  destruct (qql_questions_localizations (compiled_localization loop_source))
    as [|loc locs] eqn:Hlocs; [vm_compute in Hlocs; discriminate Hlocs|].
  assert (Hin : loc ∈ qql_questions_localizations (compiled_localization loop_source))
    by (rewrite Hlocs; apply list_elem_of_here).
  exists loc. split; [rewrite <- Hlocs; exact Hin|].
  exact (compiled_texts_render_in_bounds accept_all ∅ loop_source _ _ loc
           loop_source_compiles Hin).
Defined.
